(** * Cosmic-Bounce: the simulation core, embedded and verified

    The TypeScript sources (utils/math, types, components/GameCanvas) are
    embedded shallowly.  A JavaScript [number] is modelled as a real number:
    the development checks the arithmetic design of the engine, and IEEE-754
    rounding, infinities and NaN are outside the model.  Mutable refs
    ([ballsRef], [manualGapsRef], [collisionCountRef], ...) become fields of
    an explicit state record that every handler threads through. *)

From stdpp Require Import gmap strings list pretty.
From Stdlib Require Import Reals Lra Psatz.
From Stdlib Require Import Ascii.

Open Scope R_scope.

(** ** Decidable comparisons on numbers *)

#[global] Instance Rlt_decision : RelDecision Rlt := Rlt_dec.
#[global] Instance Rle_decision : RelDecision Rle := Rle_dec.
#[global] Instance Rgt_decision : RelDecision Rgt := Rgt_dec.
#[global] Instance Rge_decision : RelDecision Rge := Rge_dec.
#[global] Instance Req_decision : EqDecision R := Req_dec_T.

(** ** types.ts *)

Record Vector2 := mkVector2 { x : R; y : R }.

(** ** utils/math.ts *)

Definition add (v1 v2 : Vector2) : Vector2 :=
  {| x := x v1 + x v2; y := y v1 + y v2 |}.
Definition sub (v1 v2 : Vector2) : Vector2 :=
  {| x := x v1 - x v2; y := y v1 - y v2 |}.
Definition mult (v : Vector2) (s : R) : Vector2 :=
  {| x := x v * s; y := y v * s |}.
Definition dot (v1 v2 : Vector2) : R := x v1 * x v2 + y v1 * y v2.
Definition mag (v : Vector2) : R := sqrt (x v * x v + y v * y v).
Definition distSq (v1 v2 : Vector2) : R :=
  let dx := x v1 - x v2 in
  let dy := y v1 - y v2 in
  dx * dx + dy * dy.
Definition normalize (v : Vector2) : Vector2 :=
  let m := mag v in
  if decide (m = 0) then {| x := 0; y := 0 |}
  else {| x := x v / m; y := y v / m |}.
Definition dist (v1 v2 : Vector2) : R := mag (sub v1 v2).

Definition rotatePoint (point center : Vector2) (angle : R) : Vector2 :=
  let c := cos angle in
  let s := sin angle in
  let dx := x point - x center in
  let dy := y point - y center in
  {| x := x center + (dx * c - dy * s);
     y := y center + (dx * s + dy * c) |}.

Record SegmentHit := mkSegmentHit
  { sh_dist : R; sh_closest : Vector2; sh_normal : Vector2 }.

(** The projection parameter of [distToSegment], clamped between 0 and 1. *)
Definition segmentParam (p a b : Vector2) : R :=
  let ab := sub b a in
  let ap := sub p a in
  Rmax 0 (Rmin 1 (dot ap ab / dot ab ab)).

Definition distToSegment (p a b : Vector2) : SegmentHit :=
  let ab := sub b a in
  let ap := sub p a in
  let abLenSq := dot ab ab in
  if decide (abLenSq = 0) then
    {| sh_dist := dist p a; sh_closest := a;
       sh_normal := {| x := 0; y := -1 |} |}
  else
    let t := Rmax 0 (Rmin 1 (dot ap ab / abLenSq)) in
    let closest := add a (mult ab t) in
    let distance := dist p closest in
    let normal := normalize (sub p closest) in
    let normal :=
      if decide (x normal = 0 ∧ y normal = 0)
      then normalize {| x := - y ab; y := x ab |}
      else normal in
    {| sh_dist := distance; sh_closest := closest; sh_normal := normal |}.

(** ** types.ts: bodies and configuration *)

(** A ball colour is either one of the palette strings or the string
    [hsl(h, 80%, 60%)] built from a random hue. *)
Inductive Color :=
| ColorName (name : string)
| ColorHsl (hue : R).

(** [isPinned] is an optional flag in the source; only its truthiness is
    read and every constructor site writes [false], so it is a [bool]. *)
Record Ball := mkBall
  { id : R;
    pos : Vector2;
    vel : Vector2;
    radius : R;
    color : Color;
    trail : list Vector2;
    isPinned : bool }.

Definition with_pos (b : Ball) (p : Vector2) : Ball :=
  mkBall (id b) p (vel b) (radius b) (color b) (trail b) (isPinned b).
Definition with_vel (b : Ball) (v : Vector2) : Ball :=
  mkBall (id b) (pos b) v (radius b) (color b) (trail b) (isPinned b).
Definition with_radius (b : Ball) (r : R) : Ball :=
  mkBall (id b) (pos b) (vel b) r (color b) (trail b) (isPinned b).
Definition with_color (b : Ball) (c : Color) : Ball :=
  mkBall (id b) (pos b) (vel b) (radius b) c (trail b) (isPinned b).
Definition with_trail (b : Ball) (t : list Vector2) : Ball :=
  mkBall (id b) (pos b) (vel b) (radius b) (color b) t (isPinned b).
Definition with_isPinned (b : Ball) (p : bool) : Ball :=
  mkBall (id b) (pos b) (vel b) (radius b) (color b) (trail b) p.

(** The fields of [GameConfig] that the engine reads.  Counts are integers.
    [recordWallCollisions] is read by the engine but is not declared by the
    [GameConfig] interface, so it may be absent ([None], i.e. [undefined]). *)
Record GameConfig := mkGameConfig
  { ballCount : Z;
    polygonSides : Z;
    isCircle : bool;
    gapCount : Z;
    rotationSpeed : R;
    spawnPos : Vector2;
    gravity : R;
    elasticity : R;
    ballSize : R;
    isReductionMode : bool;
    isGodMode : bool;
    enableBallCollisions : bool;
    polygonLayers : Z;
    layerSpacing : R;
    baseScale : R;
    isDestructible : bool;
    randomSpawn : bool;
    micControlEnabled : bool;
    micSensitivity : R;
    recordWallCollisions : option bool }.

(** JavaScript truthiness of an optional boolean and of a nullable string. *)
Definition truthy (o : option bool) : bool :=
  match o with Some b => b | None => false end.

Definition truthyString (o : option string) : option string :=
  match o with
  | Some s => if decide (s = EmptyString) then None else Some s
  | None => None
  end.

(** ** components/GameCanvas.tsx: constants and state *)

Definition COLORS : list string :=
  [ "#00ffff"; "#ff00ff"; "#ffff00"; "#00ff00";
    "#ff4500"; "#39ff14"; "#fe019a"; "#bc13fe" ]%string.

Definition SUB_STEPS_nat : nat := 10.
Definition SUB_STEPS : R := INR SUB_STEPS_nat.

Inductive DragState :=
| DragBall (ballId : R) (offset : Vector2)
| DragVelocity (ballId : R).

Definition dragId (d : DragState) : R :=
  match d with DragBall i _ => i | DragVelocity i => i end.

(** The refs of the component.  [longPressTimer] tells whether the 600 ms
    timeout is pending; its callback is [longPressFire] below. *)
Record State := mkState
  { balls : list Ball;
    rotation : R;
    collisionCount : Z;
    manualGaps : gset string;
    dragState : option DragState;
    mousePos : Vector2;
    hoveredWall : option string;
    longPressTimer : bool;
    longPressStartPos : option Vector2;
    randomDraws : nat }.

Definition with_balls (s : State) (bs : list Ball) : State :=
  mkState bs (rotation s) (collisionCount s) (manualGaps s) (dragState s)
    (mousePos s) (hoveredWall s) (longPressTimer s) (longPressStartPos s)
    (randomDraws s).
Definition with_rotation (s : State) (r : R) : State :=
  mkState (balls s) r (collisionCount s) (manualGaps s) (dragState s)
    (mousePos s) (hoveredWall s) (longPressTimer s) (longPressStartPos s)
    (randomDraws s).
Definition with_collisionCount (s : State) (c : Z) : State :=
  mkState (balls s) (rotation s) c (manualGaps s) (dragState s)
    (mousePos s) (hoveredWall s) (longPressTimer s) (longPressStartPos s)
    (randomDraws s).
Definition with_manualGaps (s : State) (g : gset string) : State :=
  mkState (balls s) (rotation s) (collisionCount s) g (dragState s)
    (mousePos s) (hoveredWall s) (longPressTimer s) (longPressStartPos s)
    (randomDraws s).
Definition with_dragState (s : State) (d : option DragState) : State :=
  mkState (balls s) (rotation s) (collisionCount s) (manualGaps s) d
    (mousePos s) (hoveredWall s) (longPressTimer s) (longPressStartPos s)
    (randomDraws s).
Definition with_mousePos (s : State) (m : Vector2) : State :=
  mkState (balls s) (rotation s) (collisionCount s) (manualGaps s)
    (dragState s) m (hoveredWall s) (longPressTimer s) (longPressStartPos s)
    (randomDraws s).
Definition with_hoveredWall (s : State) (h : option string) : State :=
  mkState (balls s) (rotation s) (collisionCount s) (manualGaps s)
    (dragState s) (mousePos s) h (longPressTimer s) (longPressStartPos s)
    (randomDraws s).
Definition with_longPressTimer (s : State) (t : bool) : State :=
  mkState (balls s) (rotation s) (collisionCount s) (manualGaps s)
    (dragState s) (mousePos s) (hoveredWall s) t (longPressStartPos s)
    (randomDraws s).
Definition with_longPressStartPos (s : State) (p : option Vector2) : State :=
  mkState (balls s) (rotation s) (collisionCount s) (manualGaps s)
    (dragState s) (mousePos s) (hoveredWall s) (longPressTimer s) p
    (randomDraws s).
Definition with_randomDraws (s : State) (n : nat) : State :=
  mkState (balls s) (rotation s) (collisionCount s) (manualGaps s)
    (dragState s) (mousePos s) (hoveredWall s) (longPressTimer s)
    (longPressStartPos s) n.

(** What the handlers read from outside the refs: the props, the window
    size, the canvas rectangle (absent while the canvas is unmounted) and
    the byte frequency data of the microphone analyser, when there is one. *)
Record Env := mkEnv
  { config : GameConfig;
    paused : bool;
    innerWidth : R;
    innerHeight : R;
    canvasRect : option Vector2;
    micAnalyser : option (list Z) }.

Record PointerEvent := mkPointerEvent
  { button : Z; clientX : R; clientY : R }.

Definition eventPos (rect : Vector2) (e : PointerEvent) : Vector2 :=
  {| x := clientX e - x rect; y := clientY e - y rect |}.

(** ** Interaction handlers *)

(** [togglePin]: the first ball within [radius + 15] of [p] flips its pin
    flag; pinning zeroes its velocity.  Returns the balls and whether a ball
    was hit. *)
Fixpoint togglePin (p : Vector2) (bs : list Ball) : list Ball * bool :=
  match bs with
  | [] => ([], false)
  | ball :: rest =>
      if decide (dist p (pos ball) < radius ball + 15) then
        let ball1 := with_isPinned ball (negb (isPinned ball)) in
        let ball2 :=
          if isPinned ball1 then with_vel ball1 {| x := 0; y := 0 |}
          else ball1 in
        (ball2 :: rest, true)
      else
        let '(rest', hit) := togglePin p rest in (ball :: rest', hit)
  end.

(** The callback of the long-press timeout. *)
Definition longPressFire (st : State) : State :=
  if longPressTimer st then
    let '(bs, success) := togglePin (mousePos st) (balls st) in
    let st1 := with_balls st bs in
    let st2 := if success then with_dragState st1 None else st1 in
    with_longPressTimer st2 false
  else st.

Definition hitsVelocityHandle (mouse : Vector2) (ball : Ball) : bool :=
  bool_decide (dist mouse (add (pos ball) (mult (vel ball) 10)) < 10).

Definition hitsBall (mouse : Vector2) (ball : Ball) : bool :=
  bool_decide (dist mouse (pos ball) < radius ball + 5).

Definition toggleGap (wallId : string) (gaps : gset string) : gset string :=
  if decide (wallId ∈ gaps) then gaps ∖ {[ wallId ]} else gaps ∪ {[ wallId ]}.

Definition handlePointerDown (env : Env) (e : PointerEvent) (st : State)
  : State :=
  if negb (isGodMode (config env)) || negb (paused env) then st
  else if negb (button e =? 0)%Z then st
  else match canvasRect env with
  | None => st
  | Some rect =>
      let mouse := eventPos rect e in
      let st := with_mousePos st mouse in
      let st := with_longPressStartPos st (Some mouse) in
      let st := with_longPressTimer st true in
      match find (hitsVelocityHandle mouse) (balls st) with
      | Some ball => with_dragState st (Some (DragVelocity (id ball)))
      | None =>
          match find (hitsBall mouse) (balls st) with
          | Some ball =>
              with_dragState st
                (Some (DragBall (id ball) (sub (pos ball) mouse)))
          | None =>
              match truthyString (hoveredWall st) with
              | Some wallId =>
                  with_manualGaps st (toggleGap wallId (manualGaps st))
              | None => st
              end
          end
      end
  end.

(** [Array.prototype.find] returns one ball object, which the handler then
    mutates in place: the first ball with the dragged id is rewritten. *)
Fixpoint updateFirst (f : Ball → bool) (g : Ball → Ball) (bs : list Ball)
  : list Ball :=
  match bs with
  | [] => []
  | ball :: rest =>
      if f ball then g ball :: rest else ball :: updateFirst f g rest
  end.

Definition dragMove (d : DragState) (mouse : Vector2) (ball : Ball) : Ball :=
  if isPinned ball then ball
  else match d with
       | DragBall _ offset => with_trail (with_pos ball (add mouse offset)) []
       | DragVelocity _ => with_vel ball (mult (sub mouse (pos ball)) 0.1)
       end.

Definition handlePointerMove (env : Env) (e : PointerEvent) (st : State)
  : State :=
  match canvasRect env with
  | None => st
  | Some rect =>
      let mouse := eventPos rect e in
      let st := with_mousePos st mouse in
      let st :=
        match longPressTimer st, longPressStartPos st with
        | true, Some start =>
            if decide (dist mouse start > 10)
            then with_longPressTimer st false else st
        | _, _ => st
        end in
      match dragState st with
      | Some d =>
          with_balls st
            (updateFirst (λ b, bool_decide (id b = dragId d))
               (dragMove d mouse) (balls st))
      | None => st
      end
  end.

Definition handlePointerUp (st : State) : State :=
  with_dragState (with_longPressTimer st false) None.

Definition handleContextMenu (env : Env) (e : PointerEvent) (st : State)
  : State :=
  if negb (isGodMode (config env)) then st
  else match canvasRect env with
       | None => st
       | Some rect => with_balls st (togglePin (eventPos rect e) (balls st)).1
       end.

(** ** JavaScript built-ins used by the physics loop *)

(** [Math.atan2]. *)
Definition Math_atan2 (ay ax : R) : R :=
  if decide (0 < ax) then atan (ay / ax)
  else if decide (ax < 0) then
    (if decide (0 <= ay) then atan (ay / ax) + PI else atan (ay / ax) - PI)
  else if decide (0 < ay) then PI / 2
  else if decide (ay < 0) then - (PI / 2)
  else 0.

(** The remainder operator [%] on numbers: the quotient is truncated
    towards zero, so the result has the sign of the dividend. *)
Definition jsTrunc (r : R) : Z :=
  if decide (0 <= r) then Int_part r else (- Int_part (- r))%Z.
Definition jsRem (a n : R) : R := a - n * IZR (jsTrunc (a / n)).

(** The template string [`${layer}-${i}`]. *)
Definition wallIdOf (layer i : nat) : string :=
  (pretty layer +:+ "-" +:+ pretty i)%string.

(** ** The frame: values computed at the top of [update] *)

Definition center (env : Env) : Vector2 :=
  {| x := innerWidth env / 2; y := innerHeight env / 2 |}.
Definition maxRadius (env : Env) : R :=
  Rmin (innerWidth env) (innerHeight env) * 0.45 * baseScale (config env).
Definition sides (env : Env) : Z := Z.max 3 (polygonSides (config env)).
Definition angleStep (env : Env) : R := (PI * 2) / IZR (sides env).

Definition sumBytes (data : list Z) : Z := foldl Z.add 0%Z data.

Definition micVolume (data : list Z) : R :=
  let average := IZR (sumBytes data) / INR (length data) in
  Rmin 1 (average / 128).

Definition currentElasticity (env : Env) : R :=
  match micControlEnabled (config env), micAnalyser env with
  | true, Some data =>
      0.5 + (micVolume data * micSensitivity (config env) * 0.4)
  | _, _ => elasticity (config env)
  end.

Definition layerRadiusOf (env : Env) (layer : nat) : R :=
  maxRadius env - (INR layer * layerSpacing (config env)).

(** ** Integrator (step 1 of the ball loop) *)

Definition dampingFactor : R := Rpower 0.9995 (1 / SUB_STEPS).

Definition clampSpeed (r : R) (v : Vector2) : Vector2 :=
  let currentSpeed := mag v in
  let maxStepSpeed := r * 0.8 in
  let maxFrameSpeed := maxStepSpeed * SUB_STEPS in
  if decide (currentSpeed > maxFrameSpeed)
  then mult v (maxFrameSpeed / currentSpeed)
  else v.

Definition integrate (cfg : GameConfig) (ball : Ball) : Ball :=
  let v := {| x := x (vel ball);
              y := y (vel ball) + gravity cfg / SUB_STEPS |} in
  let v := mult v dampingFactor in
  let v := clampSpeed (radius ball) v in
  let ball := with_vel ball v in
  with_pos ball (add (pos ball) (mult (vel ball) (1 / SUB_STEPS))).

(** ** Ball-ball collision (step 2) *)

(** The body of the inner loop once [other] has been selected: the moving
    [ball] against [other], with the collision counter. *)
Definition collidePair (el : R) (ball other : Ball) (count : Z)
  : Ball * Ball * Z :=
  let distSqVal := distSq (pos ball) (pos other) in
  let minDist := radius ball + radius other in
  if decide (distSqVal < minDist * minDist) then
    let distance := sqrt distSqVal in
    let normal := mult (sub (pos ball) (pos other)) (1 / distance) in
    let overlap := minDist - distance in
    if isPinned other then
      let ball := with_pos ball (add (pos ball) (mult normal overlap)) in
      let vDotN := dot (vel ball) normal in
      if decide (vDotN < 0) then
        let ball := with_vel ball (sub (vel ball) (mult normal (2 * vDotN))) in
        let ball := with_vel ball (mult (vel ball) el) in
        (ball, other, (count + 1)%Z)
      else (ball, other, count)
    else
      let push := mult normal (overlap * 0.5) in
      let ball := with_pos ball (add (pos ball) push) in
      let other := with_pos other (sub (pos other) push) in
      let relVel := sub (vel ball) (vel other) in
      let sepVel := dot relVel normal in
      if decide (sepVel < 0) then
        let impulse := mult normal sepVel in
        let ball := with_vel ball (sub (vel ball) impulse) in
        let other := with_vel other (add (vel other) impulse) in
        let ball := with_vel ball (mult (vel ball) 0.99) in
        let other := with_vel other (mult (vel other) 0.99) in
        (ball, other, (count + 1)%Z)
      else (ball, other, count)
  else (ball, other, count).

(** One iteration [j] of the inner loop for the ball at index [b].  The
    accumulator holds the array and the counter; [ball] and [other] are the
    objects at [b] and [j], written back after the iteration. *)
Definition ballBallIter (cfg : GameConfig) (el : R) (b : nat)
  (acc : list Ball * Z) (j : nat) : list Ball * Z :=
  if decide (b = j) then acc
  else match acc.1 !! b, acc.1 !! j with
       | Some ball, Some other =>
           if negb (enableBallCollisions cfg) && negb (isPinned other)
           then acc
           else
             let '(ball', other', count') := collidePair el ball other acc.2 in
             (<[j := other']> (<[b := ball']> acc.1), count')
       | _, _ => acc
       end.

(** The guard of step 2 and its loop over all [j]. *)
Definition ballBallScheduled (step : nat) : bool :=
  bool_decide (SUB_STEPS < 4) || (step mod 2 =? 0)%nat.

Definition ballBallEnabled (cfg : GameConfig) (bs : list Ball) (step : nat)
  : bool :=
  (enableBallCollisions cfg || existsb isPinned bs) && ballBallScheduled step.

Definition ballBallPass (cfg : GameConfig) (el : R) (step b : nat)
  (acc : list Ball * Z) : list Ball * Z :=
  if ballBallEnabled cfg acc.1 step
  then foldl (ballBallIter cfg el b) acc (seq 0 (length acc.1))
  else acc.

(** ** Wall collision (step 3) *)

(** What the wall loop mutates: the ball, the manual gap set and the
    collision counter. *)
Record WallAcc := mkWallAcc
  { wa_ball : Ball; wa_gaps : gset string; wa_count : Z }.

(** The counting policy for wall hits. *)
Definition countsWallHits (cfg : GameConfig) : bool :=
  negb (enableBallCollisions cfg) || truthy (recordWallCollisions cfg).

Definition recordWallCollision (cfg : GameConfig) (count : Z) : Z :=
  if countsWallHits cfg then (count + 1)%Z else count.

Definition breakWall (cfg : GameConfig) (wallId : string) (gaps : gset string)
  : gset string :=
  if isDestructible cfg then gaps ∪ {[ wallId ]} else gaps.

Definition sidesN (env : Env) : nat := Z.to_nat (sides env).

Definition circleInGap (env : Env) (currentRotation : R) (ball : Ball)
  (gaps : gset string) (wallId : string) : bool :=
  let cfg := config env in
  let byArc :=
    if bool_decide (gapCount cfg > 0)%Z then
      let angle := Math_atan2 (y (pos ball) - y (center env))
                              (x (pos ball) - x (center env)) in
      let relAngle := angle - currentRotation in
      let relAngle := jsRem relAngle (PI * 2) in
      let relAngle :=
        if decide (relAngle < 0) then relAngle + PI * 2 else relAngle in
      let drawAngle :=
        (IZR (sides env - gapCount cfg) / IZR (sides env)) * PI * 2 in
      bool_decide (relAngle > drawAngle)
    else false in
  byArc || bool_decide (wallId ∈ gaps).

(** The geometric test of the circular wall: the ball overlaps the ring of
    this layer, outside every gap, and moves against the wall normal. *)
Definition circleNormal (env : Env) (layer : nat) (ball : Ball) : Vector2 :=
  let distToCenter := mag (sub (pos ball) (center env)) in
  let wallNormal := normalize (sub (center env) (pos ball)) in
  if decide (distToCenter > layerRadiusOf env layer)
  then mult wallNormal (-1) else wallNormal.

Definition circleLayer (env : Env) (currentRotation : R) (layer : nat)
  (acc : WallAcc) : WallAcc :=
  let cfg := config env in
  let el := currentElasticity env in
  let ball := wa_ball acc in
  let layerRadius := layerRadiusOf env layer in
  let distToCenter := mag (sub (pos ball) (center env)) in
  let wallId := wallIdOf layer 0 in
  if circleInGap env currentRotation ball (wa_gaps acc) wallId then acc
  else
    let distToEdge := Rabs (distToCenter - layerRadius) in
    if decide (distToEdge < radius ball) then
      let wallNormal := circleNormal env layer ball in
      if decide (dot (vel ball) wallNormal < 0) then
        let vDotN := dot (vel ball) wallNormal in
        let ball := with_vel ball (sub (vel ball) (mult wallNormal (2 * vDotN))) in
        let ball := with_vel ball (mult (vel ball) el) in
        let tangent := {| x := - y wallNormal; y := x wallNormal |} in
        let ball :=
          with_vel ball
            (add (vel ball)
               (mult tangent (rotationSpeed cfg * layerRadius * 0.05))) in
        let pen := radius ball - distToEdge in
        let ball := with_pos ball (add (pos ball) (mult wallNormal pen)) in
        {| wa_ball := ball;
           wa_gaps := breakWall cfg wallId (wa_gaps acc);
           wa_count := recordWallCollision cfg (wa_count acc) |}
      else acc
    else acc.

Definition layerVertices (env : Env) (currentRotation : R) (layer : nat)
  : list Vector2 :=
  map (λ i : nat,
         {| x := x (center env)
                 + cos (currentRotation + INR i * angleStep env)
                   * layerRadiusOf env layer;
            y := y (center env)
                 + sin (currentRotation + INR i * angleStep env)
                   * layerRadiusOf env layer |})
      (seq 0 (sidesN env)).

Definition isAutoGap (env : Env) (i : nat) : bool :=
  bool_decide (Z.of_nat i >= sides env - gapCount (config env))%Z.

(** The body of the side loop once the segment [p1 p2] of wall [wallId] is
    known not to be a gap. *)
Definition polygonWall (env : Env) (wallId : string) (p1 p2 : Vector2)
  (acc : WallAcc) : WallAcc :=
  let cfg := config env in
  let el := currentElasticity env in
  let ball := wa_ball acc in
  let hit := distToSegment (pos ball) p1 p2 in
  let dist := sh_dist hit in
  let normal := sh_normal hit in
  if decide (dist < radius ball) then
    if decide (dot (vel ball) normal < 0) then
      let vDotN := dot (vel ball) normal in
      let ball := with_vel ball (sub (vel ball) (mult normal (2 * vDotN))) in
      let ball := with_vel ball (mult (vel ball) el) in
      let wallVector := sub p2 p1 in
      let wallTangent := normalize wallVector in
      let ball :=
        with_vel ball
          (add (vel ball) (mult wallTangent (rotationSpeed cfg * 40))) in
      let ball :=
        with_pos ball (add (pos ball) (mult normal (radius ball - dist))) in
      {| wa_ball := ball;
         wa_gaps := breakWall cfg wallId (wa_gaps acc);
         wa_count := recordWallCollision cfg (wa_count acc) |}
    else if decide (dist < radius ball * 0.5) then
      {| wa_ball :=
           with_pos ball (add (pos ball) (mult normal (radius ball - dist)));
         wa_gaps := wa_gaps acc;
         wa_count := wa_count acc |}
    else acc
  else acc.

Definition polygonSide (env : Env) (vertices : list Vector2) (layer : nat)
  (acc : WallAcc) (i : nat) : WallAcc :=
  let wallId := wallIdOf layer i in
  let isManualGap := bool_decide (wallId ∈ wa_gaps acc) in
  if isAutoGap env i || isManualGap then acc
  else match vertices !! i, vertices !! ((i + 1) mod sidesN env)%nat with
       | Some p1, Some p2 => polygonWall env wallId p1 p2 acc
       | _, _ => acc
       end.

Definition wallLayer (env : Env) (currentRotation : R) (acc : WallAcc)
  (layer : nat) : WallAcc :=
  if decide (layerRadiusOf env layer <= 0) then acc
  else if isCircle (config env) then circleLayer env currentRotation layer acc
  else
    foldl (polygonSide env (layerVertices env currentRotation layer) layer)
      acc (seq 0 (sidesN env)).

Definition layersN (env : Env) : nat := Z.to_nat (polygonLayers (config env)).

Definition wallPass (env : Env) (currentRotation : R) (acc : WallAcc)
  : WallAcc :=
  foldl (wallLayer env currentRotation) acc (seq 0 (layersN env)).

(** ** The physics loop, trails and hover of [update]; spawning *)

Section Engine.

(** [random n] is what the [n]-th call of [Math.random] returns; the state
    counts the calls made so far. *)
Variable random : nat → R.

(** Boundary and reduction, at the end of the ball loop body: the ball at
    index [b] is removed, respawned or kept. *)
Definition respawn (env : Env) (d : nat) (ball : Ball) : Ball * nat :=
  let cfg := config env in
  let '(ball, d) :=
    if randomSpawn cfg then
      let maxDim :=
        Rmin (innerWidth env) (innerHeight env) * 0.4 * baseScale cfg in
      let angle := random d * PI * 2 in
      let r := random (d + 1) * maxDim in
      let ball :=
        with_pos ball {| x := x (center env) + cos angle * r;
                         y := y (center env) + sin angle * r |} in
      (with_color ball (ColorHsl (random (d + 2) * 360)), (d + 3)%nat)
    else if micControlEnabled cfg then
      let ball :=
        with_pos ball {| x := x (center env) + (random d - 0.5) * 100;
                         y := y (center env) + maxRadius env - 20 |} in
      (with_vel ball {| x := 0; y := 0 |}, (d + 1)%nat)
    else
      let ball :=
        with_pos ball {| x := x (center env); y := y (center env) |} in
      (with_vel ball {| x := (random d - 0.5) * 5;
                        y := (random (d + 1) - 0.5) * 5 |}, (d + 2)%nat) in
  (with_trail ball [], d).

Definition boundary (env : Env) (b : nat) (ball : Ball) (st : State)
  : State :=
  let distFromCenter := mag (sub (pos ball) (center env)) in
  let outerBound := Rmax (innerWidth env) (innerHeight env) + 100 in
  if decide (distFromCenter > outerBound) then
    if isReductionMode (config env) then
      with_balls st (delete b (balls st))
    else
      let '(ball, d) := respawn env (randomDraws st) ball in
      with_randomDraws (with_balls st (<[b := ball]> (balls st))) d
  else st.

(** The body of the ball loop for index [b] in sub-step [step]. *)
Definition processBall (env : Env) (step : nat) (st : State) (b : nat)
  : State :=
  match balls st !! b with
  | None => st
  | Some ball =>
      if isPinned ball then st
      else
        let cfg := config env in
        let ball := integrate cfg ball in
        let bs := <[b := ball]> (balls st) in
        let '(bs, count) :=
          ballBallPass cfg (currentElasticity env) step b
            (bs, collisionCount st) in
        match bs !! b with
        | None => st
        | Some ball =>
            let acc :=
              wallPass env (rotation st)
                {| wa_ball := ball; wa_gaps := manualGaps st;
                   wa_count := count |} in
            let st := with_balls st (<[b := wa_ball acc]> bs) in
            let st := with_manualGaps st (wa_gaps acc) in
            let st := with_collisionCount st (wa_count acc) in
            boundary env b (wa_ball acc) st
        end
  end.

(** One sub-step: advance the rotation, then visit the balls from the
    last index down to 0. *)
Definition subStep (env : Env) (st : State) (step : nat) : State :=
  let st :=
    with_rotation st (rotation st + rotationSpeed (config env) / SUB_STEPS) in
  foldl (processBall env step) st (rev (seq 0 (length (balls st)))).

Definition updateTrail (ball : Ball) : Ball :=
  if bool_decide (Rabs (x (vel ball)) + Rabs (y (vel ball)) > 0.5)
     && negb (isPinned ball)
  then
    let t := trail ball ++ [pos ball] in
    with_trail ball (if decide (15 < length t)%nat then tail t else t)
  else ball.

Definition physics (env : Env) (st : State) : State :=
  if paused env then st
  else
    let st := foldl (subStep env) st (seq 0 SUB_STEPS_nat) in
    with_balls st (map updateTrail (balls st)).

(** The hover check inside the layer drawing loop.  It only runs while no
    wall is hovered yet, in god mode and paused. *)
Definition hoverActive (env : Env) (hovered : option string) : bool :=
  isGodMode (config env) && paused env
  && negb (bool_decide (is_Some (truthyString hovered))).

Definition hoverCircle (env : Env) (mouse : Vector2) (layer : nat)
  (hovered : option string) : option string :=
  if hoverActive env hovered then
    let distToMouse :=
      Rabs (mag (sub mouse (center env)) - layerRadiusOf env layer) in
    if decide (distToMouse < 20) then Some (wallIdOf layer 0) else hovered
  else hovered.

Definition hoverSide (env : Env) (mouse : Vector2)
  (vertices : list Vector2) (layer : nat) (hovered : option string)
  (i : nat) : option string :=
  if isAutoGap env i then hovered
  else match vertices !! i, vertices !! ((i + 1) mod sidesN env)%nat with
       | Some p1, Some p2 =>
           if hoverActive env hovered then
             if decide (sh_dist (distToSegment mouse p1 p2) < 20)
             then Some (wallIdOf layer i) else hovered
           else hovered
       | _, _ => hovered
       end.

Definition hoverLayer (env : Env) (mouse : Vector2) (renderRotation : R)
  (hovered : option string) (layer : nat) : option string :=
  if decide (layerRadiusOf env layer <= 0) then hovered
  else if isCircle (config env) then hoverCircle env mouse layer hovered
  else
    foldl (hoverSide env mouse (layerVertices env renderRotation layer) layer)
      hovered (seq 0 (sidesN env)).

Definition computeHover (env : Env) (st : State) : option string :=
  foldl (hoverLayer env (mousePos st) (rotation st)) None
    (seq 0 (layersN env)).

(** One animation frame. *)
Definition update (env : Env) (st : State) : State :=
  let st := physics env st in
  with_hoveredWall st (computeHover env st).

End Engine.

(** ** Spawning and the event loop *)

Section Session.

Variable random : nat → R.

(** One iteration of the loop of [initBalls]: ball number [i], built from
    the draws starting at [d]. *)
Definition spawnBall (env : Env) (d i : nat) : Ball * nat :=
  let cfg := config env in
  let centerX := innerWidth env / 2 in
  let centerY := innerHeight env / 2 in
  let maxRadius :=
    Rmin (innerWidth env) (innerHeight env) * 0.45 * baseScale cfg in
  if randomSpawn cfg then
    let maxDim :=
      Rmin (innerWidth env) (innerHeight env) * 0.4 * baseScale cfg in
    let angle := random d * PI * 2 in
    let r := random (d + 1) * maxDim in
    ({| id := INR i;
        pos := {| x := centerX + cos angle * r; y := centerY + sin angle * r |};
        vel := {| x := (random (d + 2) - 0.5) * 20;
                  y := (random (d + 3) - 0.5) * 20 |};
        radius := 3 + random (d + 4) * 15;
        color := ColorHsl (random (d + 5) * 360);
        trail := []; isPinned := false |}, (d + 6)%nat)
  else
    let '(p, v, d) :=
      if micControlEnabled cfg then
        ({| x := centerX + (random d - 0.5) * 100;
            y := centerY + maxRadius - 20 - (random (d + 1) * 50) |},
         {| x := 0; y := 0 |}, (d + 2)%nat)
      else
        let randomOffsetX := (random d - 0.5) * 50 in
        let randomOffsetY := (random (d + 1) - 0.5) * 50 in
        ({| x := centerX + (x (spawnPos cfg) * 300) + randomOffsetX;
            y := centerY + (y (spawnPos cfg) * 300) + randomOffsetY |},
         {| x := (random (d + 2) - 0.5) * 10;
            y := (random (d + 3) - 0.5) * 10 |}, (d + 4)%nat) in
    ({| id := INR i; pos := p; vel := v;
        radius := ballSize cfg + random d * 2;
        color := ColorName (nth (i mod length COLORS) COLORS EmptyString);
        trail := []; isPinned := false |}, (d + 1)%nat).

Definition initBalls (env : Env) (st : State) : State :=
  let '(newBalls, d) :=
    foldl (λ (acc : list Ball * nat) (i : nat),
             let '(ball, d) := spawnBall env acc.2 i in (acc.1 ++ [ball], d))
          ([], randomDraws st)
          (seq 0 (Z.to_nat (ballCount (config env)))) in
  let st := with_collisionCount st 0 in
  let st := with_randomDraws st d in
  let st := with_balls st newBalls in
  with_manualGaps st ∅.

(** The effect that follows a change of [ballSize] or [randomSpawn]. *)
Definition resizeBalls (env : Env) (st : State) : State :=
  if randomSpawn (config env) then st
  else
    let '(bs, d) :=
      foldl (λ (acc : list Ball * nat) (ball : Ball),
               (acc.1 ++ [with_radius ball
                            (ballSize (config env) + (random acc.2 * 2))],
                S acc.2))
            ([], randomDraws st) (balls st) in
    with_randomDraws (with_balls st bs) d.

(** [now] is what [Date.now] returns. *)
Definition handleDoubleClick (env : Env) (e : PointerEvent) (now : R)
  (st : State) : State :=
  match canvasRect env with
  | None => st
  | Some rect =>
      let cfg := config env in
      let mouse := eventPos rect e in
      let d := randomDraws st in
      let '(r, c, d) :=
        if randomSpawn cfg then
          (3 + random d * 15, ColorHsl (random (d + 1) * 360), (d + 2)%nat)
        else
          (ballSize cfg + (random d * 2),
           ColorName (nth (length (balls st) mod length COLORS) COLORS
                        EmptyString),
           (d + 1)%nat) in
      let newBall :=
        {| id := now + random d;
           pos := mouse;
           vel := {| x := (random (d + 1) - 0.5) * 15;
                     y := (random (d + 2) - 0.5) * 15 |};
           radius := r; color := c; trail := []; isPinned := false |} in
      with_randomDraws (with_balls st (balls st ++ [newBall])) (d + 3)
  end.

(** Everything that can happen to the component. *)
Inductive Event :=
| Frame
| PointerDown (e : PointerEvent)
| PointerMove (e : PointerEvent)
| PointerUp
| ContextMenu (e : PointerEvent)
| DoubleClick (e : PointerEvent) (now : R)
| LongPress
| Restart
| BallSizeChanged.

Definition dispatch (env : Env) (ev : Event) (st : State) : State :=
  match ev with
  | Frame => update random env st
  | PointerDown e => handlePointerDown env e st
  | PointerMove e => handlePointerMove env e st
  | PointerUp => handlePointerUp st
  | ContextMenu e => handleContextMenu env e st
  | DoubleClick e now => handleDoubleClick env e now st
  | LongPress => longPressFire st
  | Restart => initBalls env st
  | BallSizeChanged => resizeBalls env st
  end.

End Session.

(** The state before the first [initBalls]. *)
Definition initialState : State :=
  {| balls := []; rotation := 0; collisionCount := 0; manualGaps := ∅;
     dragState := None; mousePos := {| x := 0; y := 0 |};
     hoveredWall := None; longPressTimer := false;
     longPressStartPos := None; randomDraws := 0 |}.

(** ** Vocabulary of the pinning statements *)

(** The pinned bodies, in array order, with what must not change. *)
Definition pinnedBodies (st : State) : list (R * Vector2 * Vector2) :=
  map (λ b, (id b, pos b, vel b)) (List.filter isPinned (balls st)).

(** Every pinned body is at rest. *)
Definition pinnedAtRest (bs : list Ball) : Prop :=
  Forall (λ b, isPinned b = true → vel b = {| x := 0; y := 0 |}) bs.

(** The events that flip a pin flag, and the restart that replaces the
    bodies. *)
Definition keepsPins (ev : Event) : Prop :=
  match ev with
  | ContextMenu _ | LongPress | Restart => False
  | _ => True
  end.

(** What [togglePin] may do to one body: nothing, pin it and zero its
    velocity, or unpin it and leave its velocity alone. *)
Definition pinStep (b b' : Ball) : Prop :=
  b' = b
  ∨ (isPinned b = false
     ∧ b' = with_vel (with_isPinned b true) {| x := 0; y := 0 |})
  ∨ (isPinned b = true ∧ b' = with_isPinned b false).

(** The invariant of the inner loop for index [b]: the ball at [b] is there
    and unpinned, and the pinned bodies are those of [pinned]. *)
Definition pinsKept (b : nat) (pinned : list Ball) (bs : list Ball) : Prop :=
  (∃ ball, bs !! b = Some ball ∧ isPinned ball = false)
  ∧ List.filter isPinned bs = pinned.

(** Two records of one body that differ at most in radius, colour and
    trail. *)
Definition sameBody (b b' : Ball) : Prop :=
  id b' = id b ∧ pos b' = pos b ∧ vel b' = vel b ∧ isPinned b' = isPinned b.

(** The states the component reaches from [initialState], whatever the
    props, window and events turn out to be. *)
Inductive reachable (random : nat → R) : State → Prop :=
| reachable_initial : reachable random initialState
| reachable_dispatch (env : Env) (ev : Event) (st : State) :
    reachable random st → reachable random (dispatch random env ev st).

(** ** Division made partial

    The same two functions of utils/math.ts with every [/] replaced by a
    division that fails on a zero divisor.  They are used only to state that
    the unchecked functions never reach such a division. *)

Module Checked.

Definition div (a b : R) : option R :=
  if decide (b = 0) then None else Some (a / b).

Definition normalize (v : Vector2) : option Vector2 :=
  let m := mag v in
  if decide (m = 0) then Some {| x := 0; y := 0 |}
  else
    vx ← div (x v) m;
    vy ← div (y v) m;
    Some {| x := vx; y := vy |}.

Definition distToSegment (p a b : Vector2) : option SegmentHit :=
  let ab := sub b a in
  let ap := sub p a in
  let abLenSq := dot ab ab in
  if decide (abLenSq = 0) then
    Some {| sh_dist := dist p a; sh_closest := a;
            sh_normal := {| x := 0; y := -1 |} |}
  else
    q ← div (dot ap ab) abLenSq;
    let t := Rmax 0 (Rmin 1 q) in
    let closest := add a (mult ab t) in
    let distance := dist p closest in
    normal ← normalize (sub p closest);
    normal ←
      (if decide (x normal = 0 ∧ y normal = 0)
       then normalize {| x := - y ab; y := x ab |}
       else Some normal);
    Some {| sh_dist := distance; sh_closest := closest;
            sh_normal := normal |}.

End Checked.

(** ** Vocabulary of the collision statements *)

(** The contact normal computed by [collidePair] and its overlap test. *)
Definition contactNormal (ball other : Ball) : Vector2 :=
  mult (sub (pos ball) (pos other))
       (1 / sqrt (distSq (pos ball) (pos other))).

Definition overlapping (ball other : Ball) : Prop :=
  distSq (pos ball) (pos other)
  < (radius ball + radius other) * (radius ball + radius other).

(** ** Vocabulary of the wall statements *)

(** The tests under which [polygonWall] and [circleLayer] resolve a hit. *)
Definition polygonHit (ball : Ball) (p1 p2 : Vector2) : Prop :=
  sh_dist (distToSegment (pos ball) p1 p2) < radius ball
  ∧ dot (vel ball) (sh_normal (distToSegment (pos ball) p1 p2)) < 0.

Definition circleHit (env : Env) (currentRotation : R) (layer : nat)
  (acc : WallAcc) : Prop :=
  circleInGap env currentRotation (wa_ball acc) (wa_gaps acc)
    (wallIdOf layer 0) = false
  ∧ Rabs (mag (sub (pos (wa_ball acc)) (center env)) - layerRadiusOf env layer)
    < radius (wa_ball acc)
  ∧ dot (vel (wa_ball acc)) (circleNormal env layer (wa_ball acc)) < 0.

(** ** Vocabulary of the interaction statements *)

(** A press that reaches step 3 of [handlePointerDown] with wall [w]
    hovered: god mode and paused, main button, canvas mounted, and neither a
    velocity handle nor a ball under the pointer. *)
Definition wallPress (env : Env) (e : PointerEvent) (st : State) (w : string)
  : Prop :=
  isGodMode (config env) = true ∧ paused env = true ∧ button e = 0%Z
  ∧ (∃ rect, canvasRect env = Some rect
       ∧ find (hitsVelocityHandle (eventPos rect e)) (balls st) = None
       ∧ find (hitsBall (eventPos rect e)) (balls st) = None)
  ∧ hoveredWall st = Some w ∧ w ≠ EmptyString.

(** ** Vocabulary of the hover statement *)

(** The walls that the drawing loop visits, in the order it visits them
    (layers from 0 upwards, sides by index, layers of non-positive radius
    and auto-gap sides left out), each with the distance that the hover
    check compares with its tolerance. *)
Definition sideCandidate (env : Env) (mouse : Vector2)
  (vertices : list Vector2) (layer i : nat) : list (string * R) :=
  if isAutoGap env i then []
  else match vertices !! i, vertices !! ((i + 1) mod sidesN env)%nat with
       | Some p1, Some p2 =>
           [(wallIdOf layer i, sh_dist (distToSegment mouse p1 p2))]
       | _, _ => []
       end.

Definition layerCandidates (env : Env) (mouse : Vector2) (renderRotation : R)
  (layer : nat) : list (string * R) :=
  if decide (layerRadiusOf env layer <= 0) then []
  else if isCircle (config env) then
    [(wallIdOf layer 0,
      Rabs (mag (sub mouse (center env)) - layerRadiusOf env layer))]
  else
    flat_map
      (sideCandidate env mouse (layerVertices env renderRotation layer) layer)
      (seq 0 (sidesN env)).

Definition hoverCandidates (env : Env) (mouse : Vector2) (renderRotation : R)
  : list (string * R) :=
  flat_map (layerCandidates env mouse renderRotation) (seq 0 (layersN env)).

(** The first candidate closer than [tol], if any. *)
Definition firstWithin (tol : R) (cands : list (string * R)) : option string :=
  fst <$> find (λ c, bool_decide (c.2 < tol)) cands.

(** What the hover check does to the hovered id when it meets the
    candidates [cands]: an id already set is kept. *)
Definition pickHover (hovered : option string) (cands : list (string * R))
  : option string :=
  match hovered with
  | Some w => Some w
  | None => firstWithin 20 cands
  end.

Definition hoverSettled (hovered : option string) : Prop :=
  ∀ w, hovered = Some w → w ≠ EmptyString.

(** ** Vocabulary of the frame statements *)

(** What the wall loop may do to the gap set and the counter. *)
Definition wallKeeps (cfg : GameConfig) (acc acc' : WallAcc) : Prop :=
  (wa_count acc <= wa_count acc')%Z
  ∧ wa_gaps acc ⊆ wa_gaps acc'
  ∧ (isDestructible cfg = false → wa_gaps acc' = wa_gaps acc)
  ∧ trail (wa_ball acc') = trail (wa_ball acc)
  ∧ radius (wa_ball acc') = radius (wa_ball acc).

(** What the physics loop may do to the state besides moving the balls. *)
Definition frameKeeps (env : Env) (st st' : State) : Prop :=
  (collisionCount st <= collisionCount st')%Z
  ∧ manualGaps st ⊆ manualGaps st'
  ∧ (isDestructible (config env) = false → manualGaps st' = manualGaps st)
  ∧ (length (balls st') ≤ length (balls st))%nat
  ∧ (isReductionMode (config env) = false →
     length (balls st') = length (balls st))
  ∧ dragState st' = dragState st ∧ mousePos st' = mousePos st
  ∧ longPressTimer st' = longPressTimer st
  ∧ longPressStartPos st' = longPressStartPos st.

(** The bound that the trail update keeps. *)
Definition trailBounded (b : Ball) : Prop := (length (trail b) ≤ 15)%nat.

(** ** Vocabulary of the pointer statements *)

(** What a second [togglePin] at the same point must restore. *)
Definition pinView (b : Ball) : R * Vector2 * R * bool :=
  (id b, pos b, radius b, isPinned b).

(** [p] is within the reach of [togglePin] for ball [b]. *)
Definition inPinReach (p : Vector2) (b : Ball) : Prop :=
  dist p (pos b) < radius b + 15.

(** A press that [handlePointerDown] accepts: god mode and paused, main
    button, canvas mounted at [rect]. *)
Definition acceptedPress (env : Env) (e : PointerEvent) (rect : Vector2)
  : Prop :=
  isGodMode (config env) = true ∧ paused env = true ∧ button e = 0%Z
  ∧ canvasRect env = Some rect.

(** ** Vocabulary of the wall-id statement *)

(** A string without the separator of the wall ids. *)
Fixpoint dashFree (s : string) : Prop :=
  match s with
  | EmptyString => True
  | String c s => c ≠ "-"%char ∧ dashFree s
  end.

(** ** Vocabulary of the spawning statements *)

(** [Math.random] returns a number in [0, 1). *)
Definition unitRandom (random : nat → R) : Prop := ∀ n, 0 <= random n < 1.

(** What [initBalls] guarantees of ball number [i]. *)
Definition freshBall (cfg : GameConfig) (i : nat) (ball : Ball) : Prop :=
  id ball = INR i ∧ isPinned ball = false ∧ trail ball = []
  ∧ if randomSpawn cfg then 3 <= radius ball < 18
    else ballSize cfg <= radius ball < ballSize cfg + 2.

(** The bound beyond which [update] respawns or removes a ball. *)
Definition outerBound (env : Env) : R :=
  Rmax (innerWidth env) (innerHeight env) + 100.

(** What the analyser writes into the [Uint8Array]. *)
Definition isByte (z : Z) : Prop := (0 <= z <= 255)%Z.

(** What the radius effect does to one ball. *)
Definition resized (cfg : GameConfig) (ball ball' : Ball) : Prop :=
  ball' = with_radius ball (radius ball')
  ∧ ballSize cfg <= radius ball' < ballSize cfg + 2.

(** ** Sample data *)

Definition zeroVector : Vector2 := {| x := 0; y := 0 |}.

(** [INITIAL_CONFIG] of types.ts. *)
Definition INITIAL_CONFIG : GameConfig :=
  {| ballCount := 50; polygonSides := 6; isCircle := false; gapCount := 0;
     rotationSpeed := 0.005; spawnPos := {| x := 0; y := -0.2 |};
     gravity := 0.05; elasticity := 0.95; ballSize := 6;
     isReductionMode := false; isGodMode := false;
     enableBallCollisions := false; polygonLayers := 1; layerSpacing := 60;
     baseScale := 1.0; isDestructible := false; randomSpawn := false;
     micControlEnabled := false; micSensitivity := 5;
     recordWallCollisions := None |}.

Definition sampleBall (p v : Vector2) (r : R) (pinned : bool) : Ball :=
  {| id := 0; pos := p; vel := v; radius := r; color := ColorName "#00ffff";
     trail := []; isPinned := pinned |}.

(** Two unpinned balls of radius 2 whose centres are 3 apart and that move
    towards each other with equal speed along the line of centres, and a
    pinned copy of the second one. *)
Definition leftBall : Ball :=
  sampleBall {| x := 0; y := 0 |} {| x := 1; y := 0 |} 2 false.
Definition rightBall : Ball :=
  sampleBall {| x := 3; y := 0 |} {| x := -1; y := 0 |} 2 false.
Definition pinnedBall : Ball :=
  sampleBall {| x := 3; y := 0 |} {| x := 0; y := 0 |} 2 true.

(** The initial configuration with ball-ball collisions switched on. *)
Definition ballsOnConfig : GameConfig :=
  mkGameConfig 50 6 false 0 0.005 {| x := 0; y := -0.2 |} 0.05 0.95 6
    false false true 1 60 1.0 false false false 5 None.

(** A 1000 x 1000 window with the initial configuration, a ball that
    overlaps the outermost circular layer and moves outwards, and a ball
    just above a horizontal wall segment, moving down. *)
Definition sampleEnv : Env :=
  {| config := INITIAL_CONFIG; paused := false;
     innerWidth := 1000; innerHeight := 1000;
     canvasRect := Some {| x := 0; y := 0 |}; micAnalyser := None |}.

Definition rimBall : Ball :=
  sampleBall {| x := 949; y := 500 |} {| x := 1; y := 0 |} 6 false.

Definition rimAcc : WallAcc :=
  {| wa_ball := rimBall; wa_gaps := ∅; wa_count := 0 |}.

Definition floorBall : Ball :=
  sampleBall {| x := 0; y := 1 |} {| x := 0; y := -1 |} 2 false.

Definition floorAcc : WallAcc :=
  {| wa_ball := floorBall; wa_gaps := ∅; wa_count := 0 |}.

Definition floorLeft : Vector2 := {| x := -5; y := 0 |}.
Definition floorRight : Vector2 := {| x := 5; y := 0 |}.

(** A paused god-mode session without balls in which wall "0-2" is hovered,
    and a press of the main button. *)
Definition godEnv : Env :=
  {| config :=
       mkGameConfig 50 6 false 0 0.005 {| x := 0; y := -0.2 |} 0.05 0.95 6
         false true false 1 60 1.0 false false false 5 None;
     paused := true; innerWidth := 1000; innerHeight := 1000;
     canvasRect := Some {| x := 0; y := 0 |}; micAnalyser := None |}.

Definition hoverState : State :=
  {| balls := []; rotation := 0; collisionCount := 0; manualGaps := ∅;
     dragState := None; mousePos := {| x := 0; y := 0 |};
     hoveredWall := Some "0-2"%string; longPressTimer := false;
     longPressStartPos := None; randomDraws := 0 |}.

Definition mainPress : PointerEvent :=
  {| button := 0; clientX := 10; clientY := 10 |}.

(** Paused god mode with two circular layers 10 apart (radii 450 and 440)
    and the pointer 441 from the centre. *)
Definition ringEnv : Env :=
  {| config :=
       mkGameConfig 50 6 true 0 0.005 {| x := 0; y := -0.2 |} 0.05 0.95 6
         false true false 2 10 1.0 false false false 5 None;
     paused := true; innerWidth := 1000; innerHeight := 1000;
     canvasRect := Some {| x := 0; y := 0 |}; micAnalyser := None |}.

Definition ringState : State :=
  {| balls := []; rotation := 0; collisionCount := 0; manualGaps := ∅;
     dragState := None; mousePos := {| x := 941; y := 500 |};
     hoveredWall := None; longPressTimer := false;
     longPressStartPos := None; randomDraws := 0 |}.

(** A session: a double click spawns a ball under the pointer, and a
    context-menu click at the same place pins it. *)
Definition halfRandom : nat → R := λ _, 0.5.

Definition pinnedSession : State :=
  dispatch halfRandom godEnv (ContextMenu mainPress)
    (dispatch halfRandom godEnv (DoubleClick mainPress 1000) initialState).

(** The sample window with destructible walls. *)
Definition destructEnv : Env :=
  {| config :=
       mkGameConfig 50 6 false 0 0.005 {| x := 0; y := -0.2 |} 0.05 0.95 6
         false false false 1 60 1.0 true false false 5 None;
     paused := false; innerWidth := 1000; innerHeight := 1000;
     canvasRect := Some {| x := 0; y := 0 |}; micAnalyser := None |}.

(** An unpinned ball at rest at (100, 100); a paused god-mode session with
    one rolling ball there, a press on that ball and a pointer position 30
    to the right. *)
Definition restBall : Ball :=
  sampleBall {| x := 100; y := 100 |} {| x := 0; y := 0 |} 6 false.

(** The same ball rolling to the right: its velocity handle is 50 away. *)
Definition rollingBall : Ball :=
  sampleBall {| x := 100; y := 100 |} {| x := 5; y := 0 |} 6 false.

Definition dragSession : State :=
  {| balls := [rollingBall]; rotation := 0; collisionCount := 0;
     manualGaps := ∅; dragState := None; mousePos := {| x := 0; y := 0 |};
     hoveredWall := None; longPressTimer := false;
     longPressStartPos := None; randomDraws := 0 |}.

Definition ballPress : PointerEvent :=
  {| button := 0; clientX := 103; clientY := 100 |}.

Definition ballPressMoved : PointerEvent :=
  {| button := 0; clientX := 133; clientY := 100 |}.

(** The sample window with a hexagon whose last two sides are open. *)
Definition gappedEnv : Env :=
  {| config :=
       mkGameConfig 50 6 false 2 0.005 {| x := 0; y := -0.2 |} 0.05 0.95 6
         false false false 1 60 1.0 false false false 5 None;
     paused := false; innerWidth := 1000; innerHeight := 1000;
     canvasRect := Some {| x := 0; y := 0 |}; micAnalyser := None |}.

(** A ball far outside the sample window, alone in a session. *)
Definition farBall : Ball :=
  sampleBall {| x := 5000; y := 500 |} {| x := 1; y := 0 |} 6 false.

Definition farSession : State :=
  {| balls := [farBall]; rotation := 0; collisionCount := 0;
     manualGaps := ∅; dragState := None; mousePos := {| x := 0; y := 0 |};
     hoveredWall := None; longPressTimer := false;
     longPressStartPos := None; randomDraws := 0 |}.

(** The sample window with microphone control and three frequency bins. *)
Definition micData : list Z := [0; 255; 200]%Z.

Definition micEnv : Env :=
  {| config :=
       mkGameConfig 50 6 false 0 0.005 {| x := 0; y := -0.2 |} 0.05 0.95 6
         false false false 1 60 1.0 false false true 5 None;
     paused := false; innerWidth := 1000; innerHeight := 1000;
     canvasRect := Some {| x := 0; y := 0 |}; micAnalyser := Some micData |}.

(** A session drawn with [Math.random] always 0.25: a double click spawns a
    ball at (10, 10), a context-menu click there pins it, and a second
    double click spawns a moving ball at (200, 200). *)
Definition quarterRandom : nat → R := λ _, 0.25.

Definition farPress : PointerEvent :=
  {| button := 0; clientX := 200; clientY := 200 |}.

Definition twoBallSession : State :=
  dispatch quarterRandom godEnv (DoubleClick farPress 2000)
    (dispatch quarterRandom godEnv (ContextMenu mainPress)
       (dispatch quarterRandom godEnv (DoubleClick mainPress 1000)
          initialState)).

(** * Verification *)

(** Decimal literals are rationals injected by [Q2R]; [field] needs them
    written as quotients. *)
Ltac decimals := unfold Q2R; cbn [QArith_base.Qnum QArith_base.Qden].

(** ** The sub-step schedule *)

Lemma SUB_STEPS_value : SUB_STEPS = 10.
Proof. unfold SUB_STEPS, SUB_STEPS_nat. simpl. lra. Qed.

Lemma ballBallScheduled_even (step : nat) :
  ballBallScheduled step = true ↔ (step mod 2 = 0)%nat.
Proof.
  unfold ballBallScheduled.
  rewrite bool_decide_eq_false_2 by (rewrite SUB_STEPS_value; lra).
  cbn [orb]. apply Nat.eqb_eq.
Qed.

(** ** Vector lemmas *)

Lemma Vector2_eq (v w : Vector2) : x v = x w → y v = y w → v = w.
Proof. destruct v, w; simpl; intros -> ->; reflexivity. Qed.

Lemma sumsq_nonneg (a b : R) : 0 <= a * a + b * b.
Proof. nra. Qed.

Lemma sumsq_zero (a b : R) : a * a + b * b = 0 → a = 0 ∧ b = 0.
Proof. intros H; split; nra. Qed.

Lemma mag_nonneg (v : Vector2) : 0 <= mag v.
Proof. apply sqrt_pos. Qed.

Lemma mag_sq (v : Vector2) : mag v * mag v = x v * x v + y v * y v.
Proof. unfold mag. apply sqrt_sqrt, sumsq_nonneg. Qed.

Lemma mag_zero_iff (v : Vector2) : mag v = 0 ↔ x v = 0 ∧ y v = 0.
Proof.
  split.
  - intros H. apply sumsq_zero. rewrite <- mag_sq, H. lra.
  - intros [Hx Hy]. unfold mag. rewrite Hx, Hy.
    replace (0 * 0 + 0 * 0) with 0 by lra. apply sqrt_0.
Qed.

Lemma mag_mult (v : Vector2) (s : R) : mag (mult v s) = Rabs s * mag v.
Proof.
  unfold mag, mult; simpl.
  replace (x v * s * (x v * s) + y v * s * (y v * s))
    with (Rsqr s * (x v * x v + y v * y v)) by (unfold Rsqr; ring).
  rewrite sqrt_mult_alt by apply Rle_0_sqr.
  now rewrite sqrt_Rsqr_abs.
Qed.

Lemma dot_self_zero (v : Vector2) : dot v v = 0 ↔ x v = 0 ∧ y v = 0.
Proof.
  unfold dot. split; [apply sumsq_zero | intros [-> ->]; lra].
Qed.

Lemma sub_zero_iff (v w : Vector2) :
  (x (sub v w) = 0 ∧ y (sub v w) = 0) ↔ v = w.
Proof.
  split.
  - simpl. intros [Hx Hy]. apply Vector2_eq; lra.
  - intros ->. simpl. lra.
Qed.

Lemma normalize_unit (v : Vector2) : mag v ≠ 0 → mag (normalize v) = 1.
Proof.
  intros Hm. unfold normalize. destruct (decide (mag v = 0)) as [E|_]; [easy|].
  pose proof (mag_nonneg v) as Hp.
  unfold mag at 1; simpl.
  replace (x v / mag v * (x v / mag v) + y v / mag v * (y v / mag v))
    with ((x v * x v + y v * y v) / (mag v * mag v)) by (field; exact Hm).
  rewrite <- mag_sq.
  replace (mag v * mag v / (mag v * mag v)) with 1 by (field; exact Hm).
  apply sqrt_1.
Qed.

Lemma normalize_scale (v : Vector2) :
  mag v ≠ 0 → normalize v = mult v (/ mag v).
Proof.
  intros Hm. unfold normalize. destruct (decide (mag v = 0)); [easy|].
  apply Vector2_eq; simpl; reflexivity.
Qed.

Lemma normalize_zero_iff (v : Vector2) :
  (x (normalize v) = 0 ∧ y (normalize v) = 0) ↔ mag v = 0.
Proof.
  split.
  - intros H. destruct (decide (mag v = 0)) as [E|N]; [exact E|].
    apply mag_zero_iff in H. rewrite normalize_unit in H by exact N. lra.
  - intros E. unfold normalize. destruct (decide (mag v = 0)); [simpl; lra|easy].
Qed.

(** ** Properties of [normalize] and [distToSegment] *)

Lemma mag_zero_vector (v : Vector2) : mag v = 0 ↔ v = zeroVector.
Proof.
  rewrite mag_zero_iff. split.
  - intros [Hx Hy]. apply Vector2_eq; assumption.
  - intros ->. simpl. split; reflexivity.
Qed.

Lemma checked_normalize_total (v : Vector2) :
  Checked.normalize v = Some (normalize v).
Proof.
  unfold Checked.normalize, normalize, Checked.div.
  destruct (decide (mag v = 0)); reflexivity.
Qed.

Lemma segmentParam_range (p a b : Vector2) : 0 <= segmentParam p a b <= 1.
Proof.
  unfold segmentParam. split.
  - apply Rmax_l.
  - apply Rmax_lub; [lra | apply Rmin_l].
Qed.

Lemma perp_mag (v : Vector2) : mag {| x := - y v; y := x v |} = mag v.
Proof. unfold mag; simpl. f_equal. ring. Qed.

Lemma distToSegment_degenerate (p a : Vector2) :
  distToSegment p a a
  = {| sh_dist := dist p a; sh_closest := a;
       sh_normal := {| x := 0; y := -1 |} |}.
Proof.
  unfold distToSegment.
  destruct (decide (dot (sub a a) (sub a a) = 0)) as [_|N]; [reflexivity|].
  exfalso. apply N. unfold dot; simpl. ring.
Qed.

Lemma segment_length_nonzero (a b : Vector2) :
  a ≠ b → dot (sub b a) (sub b a) ≠ 0.
Proof.
  intros Hab E. apply dot_self_zero, sub_zero_iff in E. congruence.
Qed.

Lemma distToSegment_normal_unit (p a b : Vector2) :
  mag (sh_normal (distToSegment p a b)) = 1.
Proof.
  unfold distToSegment.
  destruct (decide (dot (sub b a) (sub b a) = 0)) as [E|N]; cbn [sh_normal].
  - unfold mag; simpl.
    replace (0 * 0 + -1 * -1) with 1 by lra. apply sqrt_1.
  - match goal with |- context [decide ?P] => destruct (decide P) as [Z|NZ] end.
    + apply normalize_unit. rewrite perp_mag. intros M.
      apply N, dot_self_zero, mag_zero_iff, M.
    + apply normalize_unit. intros M. apply NZ, normalize_zero_iff, M.
Qed.

(** C5: for every nonzero vector [normalize] returns a vector of magnitude 1
    that is a positive multiple of its argument (same direction); for the
    zero vector it returns the fallback value, the zero vector itself, and
    in neither case is a division by zero reached. *)
Theorem normalize_unit_same_direction (v : Vector2) :
  (v ≠ zeroVector →
     mag (normalize v) = 1 ∧ ∃ k, 0 < k ∧ normalize v = mult v k)
  ∧ normalize zeroVector = zeroVector
  ∧ Checked.normalize v = Some (normalize v).
Proof.
  split; [|split].
  - intros Hv.
    assert (Hm : mag v ≠ 0) by (intros E; apply Hv, mag_zero_vector, E).
    split; [apply normalize_unit, Hm|].
    exists (/ mag v). split; [|apply normalize_scale, Hm].
    apply Rinv_0_lt_compat. pose proof (mag_nonneg v). lra.
  - unfold normalize.
    destruct (decide (mag zeroVector = 0)) as [_|N]; [reflexivity|].
    exfalso. apply N, mag_zero_vector. reflexivity.
  - apply checked_normalize_total.
Qed.

Lemma normalize_unit_same_direction_witness :
  mag (normalize {| x := 3; y := 4 |}) = 1
  ∧ ∃ k, 0 < k ∧ normalize {| x := 3; y := 4 |} = mult {| x := 3; y := 4 |} k.
Proof.
  apply (normalize_unit_same_direction {| x := 3; y := 4 |}).
  intros E. apply (f_equal x) in E. simpl in E. lra.
Defined.

(** C10: [distToSegment] never reaches a division by zero.  On a segment of
    length zero it returns the distance to [a], [a] itself and the normal
    (0, -1).  Otherwise the closest point is [a + t (b - a)] with [t] clamped
    to [0, 1].  The distance is never negative and the normal is never the
    zero vector: it is the perpendicular of the segment when [p] is its own
    closest point, and points from the closest point to [p] otherwise. *)
Theorem distToSegment_total_safe (p a b : Vector2) :
  Checked.distToSegment p a b = Some (distToSegment p a b)
  ∧ (a = b →
       distToSegment p a b
       = {| sh_dist := dist p a; sh_closest := a;
            sh_normal := {| x := 0; y := -1 |} |})
  ∧ (a ≠ b →
       let t := segmentParam p a b in
       let closest := add a (mult (sub b a) t) in
       0 <= t <= 1
       ∧ sh_closest (distToSegment p a b) = closest
       ∧ sh_dist (distToSegment p a b) = dist p closest
       ∧ (p = closest →
            sh_normal (distToSegment p a b)
            = normalize {| x := - y (sub b a); y := x (sub b a) |})
       ∧ (p ≠ closest →
            sh_normal (distToSegment p a b) = normalize (sub p closest)))
  ∧ 0 <= sh_dist (distToSegment p a b)
  ∧ sh_normal (distToSegment p a b) ≠ zeroVector.
Proof.
  split; [|split; [|split; [|split]]].
  - unfold Checked.distToSegment, distToSegment, Checked.div.
    destruct (decide (dot (sub b a) (sub b a) = 0)); [reflexivity|].
    cbv beta iota zeta delta [mbind option_bind].
    rewrite checked_normalize_total.
    match goal with |- context [decide ?P] => destruct (decide P) end;
      [rewrite checked_normalize_total|]; reflexivity.
  - intros ->. apply distToSegment_degenerate.
  - intros Hab. pose proof (segment_length_nonzero a b Hab) as N.
    split; [apply segmentParam_range|].
    unfold distToSegment, segmentParam.
    destruct (decide (dot (sub b a) (sub b a) = 0)); [easy|]. simpl.
    split; [reflexivity|]. split; [reflexivity|]. split.
    + intros Hp.
      match goal with |- context [decide ?P] => destruct (decide P) as [Z|NZ] end;
        [reflexivity|].
      exfalso. apply NZ, normalize_zero_iff, mag_zero_iff, sub_zero_iff, Hp.
    + intros Hp.
      match goal with |- context [decide ?P] => destruct (decide P) as [Z|NZ] end;
        [|reflexivity].
      exfalso. apply Hp.
      apply sub_zero_iff, mag_zero_iff, normalize_zero_iff, Z.
  - unfold distToSegment.
    destruct (decide (dot (sub b a) (sub b a) = 0)); simpl; apply mag_nonneg.
  - intros E. pose proof (distToSegment_normal_unit p a b) as U.
    rewrite E in U. apply mag_zero_vector in E.
    assert (mag zeroVector = 0) by (apply mag_zero_vector; reflexivity). lra.
Qed.

Lemma distToSegment_total_safe_witness :
  distToSegment {| x := 1; y := 1 |} {| x := 2; y := 0 |} {| x := 2; y := 0 |}
  = {| sh_dist := dist {| x := 1; y := 1 |} {| x := 2; y := 0 |};
       sh_closest := {| x := 2; y := 0 |};
       sh_normal := {| x := 0; y := -1 |} |}
  ∧ (let p := {| x := 0; y := 1 |} in
     let a := {| x := -5; y := 0 |} in
     let b := {| x := 5; y := 0 |} in
     let t := segmentParam p a b in
     0 <= t <= 1
     ∧ sh_closest (distToSegment p a b) = add a (mult (sub b a) t)
     ∧ sh_dist (distToSegment p a b) = dist p (add a (mult (sub b a) t))).
Proof.
  split.
  - apply (distToSegment_total_safe
             {| x := 1; y := 1 |} {| x := 2; y := 0 |} {| x := 2; y := 0 |}).
    reflexivity.
  - destruct (distToSegment_total_safe
                {| x := 0; y := 1 |} {| x := -5; y := 0 |} {| x := 5; y := 0 |})
      as (_ & _ & H & _).
    assert (Hne : {| x := -5; y := 0 |} ≠ {| x := 5; y := 0 |}).
    { intros E. apply (f_equal x) in E. simpl in E. lra. }
    destruct (H Hne) as (Ht & Hc & Hd & _).
    split; [exact Ht|]. split; [exact Hc|exact Hd].
Defined.

(** ** The anti-tunneling clamp of the integrator *)

Lemma clampSpeed_bound (r : R) (v : Vector2) :
  0 <= r → mag (clampSpeed r v) <= r * 0.8 * SUB_STEPS.
Proof.
  intros Hr. unfold clampSpeed.
  pose proof SUB_STEPS_value as HS. pose proof (mag_nonneg v) as Hv.
  destruct (decide (mag v > r * 0.8 * SUB_STEPS)) as [G|G].
  - rewrite mag_mult.
    assert (Hm : 0 <= r * 0.8 * SUB_STEPS) by (rewrite HS; nra).
    rewrite Rabs_right.
    + right. field. lra.
    + apply Rle_ge. apply Rmult_le_pos; [exact Hm|].
      left. apply Rinv_0_lt_compat. lra.
  - lra.
Qed.

Lemma integrate_vel (cfg : GameConfig) (ball : Ball) :
  vel (integrate cfg ball)
  = clampSpeed (radius ball)
      (mult {| x := x (vel ball); y := y (vel ball) + gravity cfg / SUB_STEPS |}
         dampingFactor).
Proof. reflexivity. Qed.

Lemma integrate_pos (cfg : GameConfig) (ball : Ball) :
  pos (integrate cfg ball)
  = add (pos ball) (mult (vel (integrate cfg ball)) (1 / SUB_STEPS)).
Proof. reflexivity. Qed.

(** C2: after the integration phase of a sub-step (gravity, damping, clamp,
    position update) the speed of a body of radius [r >= 0] is at most
    [r * 0.8 * SUB_STEPS]; hence the displacement of that sub-step, the
    velocity divided by [SUB_STEPS], is at most 80% of the radius. *)
Theorem integrate_speed_bounded (cfg : GameConfig) (ball : Ball) :
  0 <= radius ball →
  let ball' := integrate cfg ball in
  radius ball' = radius ball
  ∧ mag (vel ball') <= radius ball * 0.8 * SUB_STEPS
  ∧ mag (mult (vel ball') (1 / SUB_STEPS)) <= radius ball * 0.8
  ∧ dist (pos ball') (pos ball) <= radius ball * 0.8.
Proof.
  intros Hr ball'.
  assert (Hv : mag (vel ball') <= radius ball * 0.8 * SUB_STEPS).
  { unfold ball'. rewrite integrate_vel. apply clampSpeed_bound, Hr. }
  assert (Hd : mag (mult (vel ball') (1 / SUB_STEPS)) <= radius ball * 0.8).
  { rewrite mag_mult. pose proof SUB_STEPS_value as HS.
    rewrite HS in *. rewrite Rabs_right by lra. lra. }
  split; [reflexivity|]. split; [exact Hv|]. split; [exact Hd|].
  unfold ball' in *. rewrite integrate_pos. unfold dist.
  replace (sub (add (pos ball) (mult (vel (integrate cfg ball)) (1 / SUB_STEPS)))
             (pos ball))
    with (mult (vel (integrate cfg ball)) (1 / SUB_STEPS)); [exact Hd|].
  apply Vector2_eq; simpl; ring.
Qed.

Lemma integrate_speed_bounded_witness :
  let ball :=
    sampleBall {| x := 0; y := 0 |} {| x := 500; y := 0 |} 6 false in
  let ball' := integrate INITIAL_CONFIG ball in
  radius ball' = radius ball
  ∧ mag (vel ball') <= radius ball * 0.8 * SUB_STEPS
  ∧ mag (mult (vel ball') (1 / SUB_STEPS)) <= radius ball * 0.8
  ∧ dist (pos ball') (pos ball) <= radius ball * 0.8.
Proof.
  apply (integrate_speed_bounded INITIAL_CONFIG
           (sampleBall {| x := 0; y := 0 |} {| x := 500; y := 0 |} 6 false)).
  simpl. lra.
Defined.

(** ** Ball-ball collision: counter and velocities *)

Lemma collidePair_apart (el : R) (ball other : Ball) (count : Z) :
  ¬ overlapping ball other →
  collidePair el ball other count = (ball, other, count).
Proof.
  intros H. unfold collidePair, overlapping in *.
  destruct (decide _); [contradiction|reflexivity].
Qed.

Lemma collidePair_pinned_count (el : R) (ball other : Ball) (count : Z) :
  overlapping ball other → isPinned other = true →
  (collidePair el ball other count).2
  = if decide (dot (vel ball) (contactNormal ball other) < 0)
    then (count + 1)%Z else count.
Proof.
  intros Ho Hp. unfold collidePair, overlapping, contactNormal in *.
  destruct (decide _); [|contradiction]. rewrite Hp. cbn [vel with_pos].
  destruct (decide _); reflexivity.
Qed.

Lemma collidePair_dynamic_count (el : R) (ball other : Ball) (count : Z) :
  overlapping ball other → isPinned other = false →
  (collidePair el ball other count).2
  = if decide (dot (sub (vel ball) (vel other)) (contactNormal ball other) < 0)
    then (count + 1)%Z else count.
Proof.
  intros Ho Hp. unfold collidePair, overlapping, contactNormal in *.
  destruct (decide _); [|contradiction]. rewrite Hp. cbn [vel with_pos].
  destruct (decide _); reflexivity.
Qed.

(** The iteration of the inner loop that meets the pair: with ball-ball
    collisions on, or against a pinned partner, it runs [collidePair] and
    writes both bodies and the counter back. *)
Lemma ballBallIter_collides (cfg : GameConfig) (el : R) (b j : nat)
  (bs : list Ball) (count : Z) (ball other : Ball) :
  enableBallCollisions cfg = true ∨ isPinned other = true →
  b ≠ j → bs !! b = Some ball → bs !! j = Some other →
  let r := collidePair el ball other count in
  ballBallIter cfg el b (bs, count) j
  = (<[j := r.1.2]> (<[b := r.1.1]> bs), r.2).
Proof.
  intros Hon Hbj Hb Hj r. unfold ballBallIter.
  destruct (decide (b = j)); [contradiction|]. cbn [fst snd].
  rewrite Hb, Hj.
  assert (E : negb (enableBallCollisions cfg) && negb (isPinned other) = false).
  { destruct Hon as [-> | ->]; [reflexivity|apply andb_false_r]. }
  rewrite E. unfold r.
  destruct (collidePair el ball other count) as [[ball' other'] count'].
  reflexivity.
Qed.

(** C1 (amended): a resolved collision of a moving body with a pinned body
    (overlap, negative approach velocity along the contact normal) adds
    exactly one to the collision counter, and so does a resolved dynamic
    collision of two unpinned bodies (overlap, negative separating
    velocity); the counter never decreases. *)
Theorem resolved_collision_counts_once
  (cfg : GameConfig) (el : R) (b j : nat) (bs : list Ball)
  (ball other : Ball) (count : Z) :
  b ≠ j → bs !! b = Some ball → bs !! j = Some other →
  overlapping ball other →
  let r := ballBallIter cfg el b (bs, count) j in
  (isPinned other = true →
   dot (vel ball) (contactNormal ball other) < 0 →
   (collidePair el ball other count).2 = (count + 1)%Z
   ∧ r.2 = (count + 1)%Z)
  ∧ (isPinned other = false →
     dot (sub (vel ball) (vel other)) (contactNormal ball other) < 0 →
     (collidePair el ball other count).2 = (count + 1)%Z
     ∧ (enableBallCollisions cfg = true → r.2 = (count + 1)%Z))
  ∧ (count <= (collidePair el ball other count).2)%Z
  ∧ (count <= r.2)%Z.
Proof.
  intros Hbj Hb Hj Ho r.
  assert (Hpin : isPinned other = true →
                 dot (vel ball) (contactNormal ball other) < 0 →
                 (collidePair el ball other count).2 = (count + 1)%Z).
  { intros Hp Hv. rewrite collidePair_pinned_count by assumption.
    destruct (decide _); [reflexivity|contradiction]. }
  assert (Hdyn : isPinned other = false →
                 dot (sub (vel ball) (vel other)) (contactNormal ball other) < 0 →
                 (collidePair el ball other count).2 = (count + 1)%Z).
  { intros Hp Hv. rewrite collidePair_dynamic_count by assumption.
    destruct (decide _); [reflexivity|contradiction]. }
  assert (Hmono : (count <= (collidePair el ball other count).2)%Z).
  { destruct (isPinned other) eqn:Hp.
    - rewrite collidePair_pinned_count by assumption. destruct (decide _); lia.
    - rewrite collidePair_dynamic_count by assumption. destruct (decide _); lia. }
  split; [|split; [|split]].
  - intros Hp Hv. split; [apply Hpin; assumption|].
    unfold r. rewrite (ballBallIter_collides cfg el b j bs count ball other)
      by (assumption || (right; exact Hp)).
    cbn [snd]. apply Hpin; assumption.
  - intros Hp Hv. split; [apply Hdyn; assumption|]. intros Hon.
    unfold r. rewrite (ballBallIter_collides cfg el b j bs count ball other)
      by (assumption || (left; exact Hon)).
    cbn [snd]. apply Hdyn; assumption.
  - exact Hmono.
  - unfold r, ballBallIter. destruct (decide (b = j)); [contradiction|].
    cbn [fst snd]. rewrite Hb, Hj.
    destruct (_ && _); [cbn [snd]; lia|].
    destruct (collidePair el ball other count) as [[ball' other'] count'].
    exact Hmono.
Qed.

(** Evaluation of the engine on concrete numbers. *)
Lemma sqrt_of_square (r s : R) : 0 <= s → r = s * s → sqrt r = s.
Proof. intros Hs ->. apply sqrt_square, Hs. Qed.

Ltac decide_numbers :=
  repeat match goal with
         | |- context [decide ?P] =>
             destruct (decide P) as [?|?]; try (exfalso; simpl in *; lra)
         end.

Lemma Ball_eq (a b : Ball) :
  id a = id b → pos a = pos b → vel a = vel b → radius a = radius b →
  color a = color b → trail a = trail b → isPinned a = isPinned b → a = b.
Proof. destruct a, b; simpl; intros; subst; reflexivity. Qed.

Ltac numbers :=
  unfold dot, distSq;
  cbn [x y add sub mult id pos vel radius color trail isPinned
       with_pos with_vel with_trail leftBall rightBall pinnedBall sampleBall];
  lra.

Ltac vector_eq := apply Vector2_eq; numbers.

Ltac ball_eq := apply Ball_eq; try reflexivity; vector_eq.

Lemma leftBall_rightBall_distance :
  sqrt (distSq (pos leftBall) (pos rightBall)) = 3.
Proof. apply sqrt_of_square; [lra|numbers]. Qed.

Lemma leftBall_rightBall_normal :
  contactNormal leftBall rightBall = {| x := -1; y := 0 |}.
Proof.
  unfold contactNormal. rewrite leftBall_rightBall_distance. vector_eq.
Qed.

Lemma leftBall_rightBall_overlapping : overlapping leftBall rightBall.
Proof. unfold overlapping. numbers. Qed.

Lemma leftBall_rightBall_collide :
  collidePair 1 leftBall rightBall 0
  = (sampleBall {| x := -0.5; y := 0 |} {| x := -0.99; y := 0 |} 2 false,
     sampleBall {| x := 3.5; y := 0 |} {| x := 0.99; y := 0 |} 2 false,
     1%Z).
Proof.
  unfold collidePair.
  destruct (decide _) as [_|N];
    [|exfalso; apply N, leftBall_rightBall_overlapping].
  rewrite leftBall_rightBall_distance. cbn [isPinned rightBall sampleBall].
  destruct (decide _) as [_|N].
  - do 2 f_equal; ball_eq.
  - exfalso. apply N. numbers.
Qed.

Lemma ballBallIter_self (cfg : GameConfig) (el : R) (b : nat)
  (acc : list Ball * Z) :
  ballBallIter cfg el b acc b = acc.
Proof.
  unfold ballBallIter. destruct (decide (b = b)); [reflexivity|contradiction].
Qed.

(** The ball-ball pass of an even sub-step for ball 0 of the array
    [leftBall; rightBall], with ball-ball collisions on. *)
Lemma leftBall_rightBall_pass :
  ballBallPass ballsOnConfig 1 0 0 ([leftBall; rightBall], 0%Z)
  = ([sampleBall {| x := -0.5; y := 0 |} {| x := -0.99; y := 0 |} 2 false;
      sampleBall {| x := 3.5; y := 0 |} {| x := 0.99; y := 0 |} 2 false],
     1%Z).
Proof.
  unfold ballBallPass, ballBallEnabled.
  assert (Hs : ballBallScheduled 0 = true)
    by (apply ballBallScheduled_even; reflexivity).
  rewrite Hs. cbn [enableBallCollisions ballsOnConfig orb andb fst length seq
                   foldl].
  rewrite ballBallIter_self. unfold ballBallIter.
  destruct (decide (0%nat = 1%nat)) as [E|_]; [discriminate|].
  cbn [fst snd lookup list_lookup enableBallCollisions ballsOnConfig negb andb].
  rewrite leftBall_rightBall_collide. reflexivity.
Qed.

(** C1, as stated, fails: the dynamic collision of [leftBall] and
    [rightBall] is resolved (overlap, negative separating velocity) and
    the counter changes, from 0 to 1 in the ball-ball pass. *)
Lemma dynamic_collision_is_counted :
  isPinned leftBall = false ∧ isPinned rightBall = false
  ∧ overlapping leftBall rightBall
  ∧ dot (sub (vel leftBall) (vel rightBall)) (contactNormal leftBall rightBall)
    < 0
  ∧ (collidePair 1 leftBall rightBall 0).2 ≠ 0%Z
  ∧ (ballBallPass ballsOnConfig 1 0 0 ([leftBall; rightBall], 0%Z)).2 = 1%Z.
Proof.
  split; [reflexivity|]. split; [reflexivity|].
  split; [apply leftBall_rightBall_overlapping|]. split; [|split].
  - rewrite leftBall_rightBall_normal. numbers.
  - rewrite leftBall_rightBall_collide. simpl. lia.
  - rewrite leftBall_rightBall_pass. reflexivity.
Qed.

Lemma resolved_collision_counts_once_witness :
  (collidePair 1 leftBall rightBall 0).2 = (0 + 1)%Z
  ∧ (ballBallIter ballsOnConfig 1 0 ([leftBall; rightBall], 0%Z) 1).2
    = (0 + 1)%Z.
Proof.
  destruct (resolved_collision_counts_once ballsOnConfig 1 0 1
              [leftBall; rightBall] leftBall rightBall 0
              (Nat.neq_0_succ 0) eq_refl eq_refl
              leftBall_rightBall_overlapping) as (_ & Hdyn & _).
  assert (Hv : dot (sub (vel leftBall) (vel rightBall))
                 (contactNormal leftBall rightBall) < 0)
    by (rewrite leftBall_rightBall_normal; numbers).
  destruct (Hdyn eq_refl Hv) as [Hc Hi].
  split; [exact Hc|apply Hi; reflexivity].
Defined.

(** ** Head-on dynamic collision *)

Lemma distSq_pos_distinct (p q : Vector2) : p ≠ q → 0 < distSq p q.
Proof.
  intros Hpq. unfold distSq.
  destruct (Rle_lt_or_eq_dec 0 _ (sumsq_nonneg (x p - x q) (y p - y q)))
    as [H|H]; [exact H|].
  exfalso. apply Hpq. symmetry in H. apply sumsq_zero in H as [Hx Hy].
  apply Vector2_eq; lra.
Qed.

Lemma collidePair_dynamic (el : R) (ball other : Ball) (count : Z) :
  overlapping ball other → isPinned other = false →
  let n := contactNormal ball other in
  let overlap :=
    radius ball + radius other - sqrt (distSq (pos ball) (pos other)) in
  let push := mult n (overlap * 0.5) in
  let sepVel := dot (sub (vel ball) (vel other)) n in
  collidePair el ball other count
  = if decide (sepVel < 0) then
      (with_vel (with_pos ball (add (pos ball) push))
         (mult (sub (vel ball) (mult n sepVel)) 0.99),
       with_vel (with_pos other (sub (pos other) push))
         (mult (add (vel other) (mult n sepVel)) 0.99),
       (count + 1)%Z)
    else
      (with_pos ball (add (pos ball) push),
       with_pos other (sub (pos other) push), count).
Proof.
  intros Ho Hp. unfold collidePair, overlapping, contactNormal in *.
  destruct (decide _); [|contradiction]. rewrite Hp. cbn [vel with_pos].
  destruct (decide _); reflexivity.
Qed.

(** Where a dynamic resolution leaves the two centres. *)
Lemma contactNormal_mag (ball other : Ball) :
  pos ball ≠ pos other → mag (contactNormal ball other) = 1.
Proof.
  intros Hne. pose proof (distSq_pos_distinct _ _ Hne) as Hpos.
  pose proof (sqrt_lt_R0 _ Hpos) as HD.
  unfold contactNormal. rewrite mag_mult.
  change (mag (sub (pos ball) (pos other)))
    with (sqrt (distSq (pos ball) (pos other))).
  set (D := sqrt (distSq (pos ball) (pos other))) in *.
  rewrite Rabs_right.
  - field. lra.
  - apply Rle_ge. unfold Rdiv. rewrite Rmult_1_l.
    left. apply Rinv_0_lt_compat. exact HD.
Qed.

Lemma collidePair_dynamic_centres (el : R) (ball other : Ball) (count : Z) :
  overlapping ball other → isPinned other = false → pos ball ≠ pos other →
  let r := collidePair el ball other count in
  add (pos r.1.1) (pos r.1.2) = add (pos ball) (pos other)
  ∧ sub (pos r.1.1) (pos r.1.2)
    = mult (contactNormal ball other) (radius ball + radius other)
  ∧ dist (pos r.1.1) (pos r.1.2) = Rabs (radius ball + radius other).
Proof.
  intros Ho Hp Hne r.
  pose proof (distSq_pos_distinct _ _ Hne) as Hpos.
  pose proof (sqrt_lt_R0 _ Hpos) as HD.
  assert (E : pos r.1.1
              = add (pos ball)
                  (mult (contactNormal ball other)
                     ((radius ball + radius other
                       - sqrt (distSq (pos ball) (pos other))) * 0.5))
              ∧ pos r.1.2
                = sub (pos other)
                    (mult (contactNormal ball other)
                       ((radius ball + radius other
                         - sqrt (distSq (pos ball) (pos other))) * 0.5))).
  { unfold r. rewrite collidePair_dynamic by assumption. cbv zeta.
    destruct (decide _); cbn [fst snd pos with_vel with_pos];
      split; reflexivity. }
  destruct E as [E1 E2].
  assert (Hdiff : sub (pos r.1.1) (pos r.1.2)
                  = mult (contactNormal ball other)
                      (radius ball + radius other)).
  { rewrite E1, E2. unfold contactNormal.
    set (D := sqrt (distSq (pos ball) (pos other))) in *.
    apply Vector2_eq; cbn [x y add sub mult]; decimals; field; lra. }
  split; [|split; [exact Hdiff|]].
  - rewrite E1, E2. apply Vector2_eq; cbn [x y add sub mult]; ring.
  - unfold dist. rewrite Hdiff, mag_mult, contactNormal_mag by exact Hne.
    ring.
Qed.

(** The resolution of a head-on pair by [collidePair]. *)
Lemma collidePair_head_on
  (el : R) (ball other : Ball) (count : Z) (k : R) :
  isPinned ball = false → isPinned other = false →
  overlapping ball other →
  pos ball ≠ pos other →
  vel ball = mult (sub (pos ball) (pos other)) k →
  vel other = mult (vel ball) (-1) →
  let r := collidePair el ball other count in
  ¬ overlapping r.1.1 r.1.2
  ∧ (k < 0 →
       vel r.1.1 = mult (vel other) 0.99 ∧ vel r.1.2 = mult (vel ball) 0.99
       ∧ r.2 = (count + 1)%Z)
  ∧ (0 <= k →
       vel r.1.1 = vel ball ∧ vel r.1.2 = vel other ∧ r.2 = count).
Proof.
  intros _ Hp Ho Hne Hv Hw r.
  pose proof (distSq_pos_distinct _ _ Hne) as Hpos.
  pose proof (sqrt_lt_R0 _ Hpos) as HD.
  pose proof (sqrt_sqrt _ (Rlt_le _ _ Hpos)) as HDD.
  assert (Hsep : dot (sub (vel ball) (vel other)) (contactNormal ball other)
                 = 2 * k * sqrt (distSq (pos ball) (pos other))).
  { rewrite Hw, Hv. unfold contactNormal, dot. cbn [x y sub mult].
    set (D := sqrt _) in *. unfold distSq in HDD. cbn zeta in HDD.
    transitivity (2 * k * ((x (pos ball) - x (pos other)) * (x (pos ball) - x (pos other))
                           + (y (pos ball) - y (pos other)) * (y (pos ball) - y (pos other))) / D).
    - field. lra.
    - rewrite <- HDD. field. lra. }
  unfold r. rewrite collidePair_dynamic by assumption. cbv zeta.
  rewrite Hsep.
  set (D := sqrt (distSq (pos ball) (pos other))) in *.
  set (m := radius ball + radius other).
  assert (Hno : ∀ vb vo : Vector2,
             ¬ overlapping
                 (with_vel (with_pos ball
                    (add (pos ball) (mult (contactNormal ball other) ((m - D) * 0.5)))) vb)
                 (with_vel (with_pos other
                    (sub (pos other) (mult (contactNormal ball other) ((m - D) * 0.5)))) vo)).
  { intros vb vo. unfold overlapping, contactNormal.
    cbn [pos radius with_vel with_pos]. fold D. fold m.
    unfold distSq in *. cbn [x y add sub mult]. cbn zeta in HDD.
    match goal with |- ¬ (?l < _) =>
      replace l with
        (((x (pos ball) - x (pos other)) * (x (pos ball) - x (pos other))
          + (y (pos ball) - y (pos other)) * (y (pos ball) - y (pos other)))
         * (m / D) * (m / D)) by (decimals; field; lra)
    end.
    rewrite <- HDD. replace (D * D * (m / D) * (m / D)) with (m * m) by (field; lra).
    lra. }
  destruct (decide (2 * k * D < 0)) as [Hk|Hk]; cbn [fst snd].
  - split; [apply Hno|]. split.
    + intros _. cbn [vel with_vel]. split; [|split; [|reflexivity]].
      * rewrite Hw, Hv. unfold contactNormal. fold D.
        apply Vector2_eq; cbn [x y sub mult]; decimals; field; lra.
      * rewrite Hw, Hv. unfold contactNormal. fold D.
        apply Vector2_eq; cbn [x y add sub mult]; decimals; field; lra.
    + intros Hk0. exfalso. nra.
  - split; [apply (Hno (vel ball) (vel other))|]. split.
    + intros Hk0. exfalso. apply Hk. nra.
    + intros _. cbn [vel with_pos]. split; [|split]; reflexivity.
Qed.

(** C6 (amended): ball-ball collisions are on and the inner loop meets two
    overlapping unpinned bodies with distinct centres that hold opposite
    velocities of equal magnitude along the line of centres.  After the
    resolution they no longer overlap: each was pushed by half the overlap,
    so the midpoint of the centres is kept and the centres end on the old
    line of centres, the sum of the radii apart (its absolute value, should
    the sum be negative).  If they were approaching, each ends with 0.99
    times the other's initial velocity (the exchange of an elastic
    equal-mass collision, then the 0.99 damping) and the collision counter
    grows by one; if they were separating, the velocities are unchanged.
    No other body of the array is touched. *)
Theorem head_on_collision_exchanges_damped
  (cfg : GameConfig) (el : R) (b j : nat) (bs : list Ball)
  (ball other : Ball) (count : Z) (k : R) :
  enableBallCollisions cfg = true →
  b ≠ j → bs !! b = Some ball → bs !! j = Some other →
  isPinned ball = false → isPinned other = false →
  overlapping ball other →
  pos ball ≠ pos other →
  vel ball = mult (sub (pos ball) (pos other)) k →
  vel other = mult (vel ball) (-1) →
  let r := ballBallIter cfg el b (bs, count) j in
  ∃ ball' other',
    r.1 !! b = Some ball' ∧ r.1 !! j = Some other'
    ∧ (∀ i, i ≠ b → i ≠ j → r.1 !! i = bs !! i)
    ∧ ¬ overlapping ball' other'
    ∧ add (pos ball') (pos other') = add (pos ball) (pos other)
    ∧ sub (pos ball') (pos other')
      = mult (contactNormal ball other) (radius ball + radius other)
    ∧ dist (pos ball') (pos other') = Rabs (radius ball + radius other)
    ∧ (k < 0 →
         vel ball' = mult (vel other) 0.99 ∧ vel other' = mult (vel ball) 0.99
         ∧ r.2 = (count + 1)%Z)
    ∧ (0 <= k →
         vel ball' = vel ball ∧ vel other' = vel other ∧ r.2 = count).
Proof.
  intros Hon Hbj Hb Hj Hpb Hpo Ho Hne Hv Hw r.
  pose proof (collidePair_head_on el ball other count k
                Hpb Hpo Ho Hne Hv Hw) as (Hno & Hin & Hout).
  pose proof (collidePair_dynamic_centres el ball other count Ho Hpo Hne)
    as (Hmid & Hdiff & Hdist).
  cbv zeta in Hmid, Hdiff, Hdist.
  unfold r. rewrite (ballBallIter_collides cfg el b j bs count ball other)
    by (assumption || (left; exact Hon)).
  cbv zeta. cbn [fst snd].
  exists (collidePair el ball other count).1.1,
         (collidePair el ball other count).1.2.
  split; [|split; [|split; [|split; [|split; [|split; [|split; [|split]]]]]]].
  - rewrite list_lookup_insert_ne by (intros E; apply Hbj; symmetry; exact E).
    apply list_lookup_insert_eq. apply lookup_lt_Some in Hb. exact Hb.
  - apply list_lookup_insert_eq. rewrite length_insert.
    apply lookup_lt_Some in Hj. exact Hj.
  - intros i Hib Hij.
    rewrite list_lookup_insert_ne by (intros E; apply Hij; symmetry; exact E).
    rewrite list_lookup_insert_ne by (intros E; apply Hib; symmetry; exact E).
    reflexivity.
  - exact Hno.
  - exact Hmid.
  - exact Hdiff.
  - exact Hdist.
  - exact Hin.
  - exact Hout.
Qed.

Lemma leftBall_rightBall_head_on :
  vel leftBall = mult (sub (pos leftBall) (pos rightBall)) (- (1 / 3))
  ∧ vel rightBall = mult (vel leftBall) (-1).
Proof. split; vector_eq. Qed.

(** C6, as stated, fails: [leftBall] and [rightBall] overlap, are unpinned
    and approach head-on with opposite velocities, and after the resolution
    the first one does not hold the second one's initial velocity. *)
Lemma head_on_velocities_not_exchanged :
  isPinned leftBall = false ∧ isPinned rightBall = false
  ∧ overlapping leftBall rightBall
  ∧ vel leftBall = mult (sub (pos leftBall) (pos rightBall)) (- (1 / 3))
  ∧ vel rightBall = mult (vel leftBall) (-1)
  ∧ vel (collidePair 1 leftBall rightBall 0).1.1 ≠ vel rightBall
  ∧ (ballBallPass ballsOnConfig 1 0 0 ([leftBall; rightBall], 0%Z)).1
    = [sampleBall {| x := -0.5; y := 0 |} {| x := -0.99; y := 0 |} 2 false;
       sampleBall {| x := 3.5; y := 0 |} {| x := 0.99; y := 0 |} 2 false].
Proof.
  split; [reflexivity|]. split; [reflexivity|].
  split; [apply leftBall_rightBall_overlapping|].
  split; [apply leftBall_rightBall_head_on|].
  split; [apply leftBall_rightBall_head_on|]. split.
  - rewrite leftBall_rightBall_collide. cbn [fst vel sampleBall rightBall].
    intros E. apply (f_equal x) in E. cbn [x] in E. lra.
  - rewrite leftBall_rightBall_pass. reflexivity.
Qed.

Lemma leftBall_rightBall_distinct : pos leftBall ≠ pos rightBall.
Proof. intros E. apply (f_equal x) in E. simpl in E. lra. Qed.

Lemma head_on_collision_exchanges_damped_witness :
  let r := ballBallIter ballsOnConfig 1 0 ([leftBall; rightBall], 0%Z) 1 in
  ∃ ball' other',
    r.1 !! 0%nat = Some ball' ∧ r.1 !! 1%nat = Some other'
    ∧ ¬ overlapping ball' other'
    ∧ add (pos ball') (pos other') = add (pos leftBall) (pos rightBall)
    ∧ dist (pos ball') (pos other')
      = Rabs (radius leftBall + radius rightBall)
    ∧ vel ball' = mult (vel rightBall) 0.99
    ∧ vel other' = mult (vel leftBall) 0.99
    ∧ r.2 = (0 + 1)%Z.
Proof.
  destruct (head_on_collision_exchanges_damped ballsOnConfig 1 0 1
              [leftBall; rightBall] leftBall rightBall 0 (- (1 / 3))
              eq_refl (Nat.neq_0_succ 0) eq_refl eq_refl eq_refl eq_refl
              leftBall_rightBall_overlapping leftBall_rightBall_distinct
              (proj1 leftBall_rightBall_head_on)
              (proj2 leftBall_rightBall_head_on))
    as (ball' & other' & Hb & Hj & _ & Hno & Hmid & _ & Hdist & Hin & _).
  exists ball', other'.
  split; [exact Hb|]. split; [exact Hj|]. split; [exact Hno|].
  split; [exact Hmid|]. split; [exact Hdist|].
  apply Hin. lra.
Defined.

(** ** Wall hits and the collision counter *)

Lemma countsWallHits_iff (cfg : GameConfig) :
  countsWallHits cfg = true
  ↔ enableBallCollisions cfg = false ∨ recordWallCollisions cfg = Some true.
Proof.
  unfold countsWallHits, truthy.
  destruct (enableBallCollisions cfg), (recordWallCollisions cfg) as [[]|];
    simpl; split; intros H; try reflexivity; try discriminate;
    try (left; reflexivity); try (right; reflexivity);
    destruct H as [H|H]; discriminate.
Qed.

Lemma recordWallCollision_step (cfg : GameConfig) (count : Z) :
  recordWallCollision cfg count = (count + 1)%Z ↔ countsWallHits cfg = true.
Proof.
  unfold recordWallCollision. destruct (countsWallHits cfg); split;
    intros H; try reflexivity; try discriminate; lia.
Qed.

Lemma polygonWall_hit_count (env : Env) (wallId : string) (p1 p2 : Vector2)
  (acc : WallAcc) :
  polygonHit (wa_ball acc) p1 p2 →
  wa_count (polygonWall env wallId p1 p2 acc)
  = recordWallCollision (config env) (wa_count acc).
Proof.
  intros [Hd Hv]. unfold polygonWall.
  destruct (decide _); [|contradiction].
  destruct (decide _); [reflexivity|contradiction].
Qed.

Lemma circleLayer_hit_count (env : Env) (rot : R) (layer : nat)
  (acc : WallAcc) :
  circleHit env rot layer acc →
  wa_count (circleLayer env rot layer acc)
  = recordWallCollision (config env) (wa_count acc).
Proof.
  intros (Hg & Hd & Hv). unfold circleLayer. rewrite Hg.
  destruct (decide _); [|contradiction].
  destruct (decide _); [reflexivity|contradiction].
Qed.

(** C7: a resolved wall hit, on a circular layer or on a polygon side, adds
    one to the collision counter exactly when ball-ball collisions are
    disabled or [recordWallCollisions] is set, and leaves it unchanged
    otherwise, that is when ball-ball collisions are enabled and the flag is
    not set. *)
Theorem wall_hit_counting_policy
  (env : Env) (rot : R) (layer : nat) (wallId : string) (p1 p2 : Vector2)
  (acc : WallAcc) :
  let counts :=
    enableBallCollisions (config env) = false
    ∨ recordWallCollisions (config env) = Some true in
  (circleHit env rot layer acc →
     (wa_count (circleLayer env rot layer acc) = (wa_count acc + 1)%Z
      ↔ counts)
     ∧ (¬ counts → wa_count (circleLayer env rot layer acc) = wa_count acc))
  ∧ (polygonHit (wa_ball acc) p1 p2 →
     (wa_count (polygonWall env wallId p1 p2 acc) = (wa_count acc + 1)%Z
      ↔ counts)
     ∧ (¬ counts →
        wa_count (polygonWall env wallId p1 p2 acc) = wa_count acc)).
Proof.
  intros counts. unfold counts.
  split; intros Hhit.
  - rewrite circleLayer_hit_count by exact Hhit.
    rewrite recordWallCollision_step, countsWallHits_iff.
    split; [reflexivity|]. intros Hn.
    unfold recordWallCollision.
    destruct (countsWallHits (config env)) eqn:E; [|reflexivity].
    exfalso. apply Hn, countsWallHits_iff, E.
  - rewrite polygonWall_hit_count by exact Hhit.
    rewrite recordWallCollision_step, countsWallHits_iff.
    split; [reflexivity|]. intros Hn.
    unfold recordWallCollision.
    destruct (countsWallHits (config env)) eqn:E; [|reflexivity].
    exfalso. apply Hn, countsWallHits_iff, E.
Qed.

Lemma mag_axis_x (a : R) : 0 <= a → mag {| x := a; y := 0 |} = a.
Proof. intros Ha. unfold mag. apply sqrt_of_square; [exact Ha|simpl; ring]. Qed.

Lemma mag_axis_y (a : R) : 0 <= a → mag {| x := 0; y := a |} = a.
Proof. intros Ha. unfold mag. apply sqrt_of_square; [exact Ha|simpl; ring]. Qed.

Lemma mag_axis_x_neg (a : R) : a <= 0 → mag {| x := a; y := 0 |} = - a.
Proof. intros Ha. unfold mag. apply sqrt_of_square; [lra|simpl; ring]. Qed.

Lemma sampleEnv_maxRadius : maxRadius sampleEnv = 450.
Proof.
  unfold maxRadius. cbn [innerWidth innerHeight sampleEnv config baseScale
                          INITIAL_CONFIG].
  rewrite Rmin_left by lra. lra.
Qed.

Lemma sampleEnv_layer0 : layerRadiusOf sampleEnv 0 = 450.
Proof. unfold layerRadiusOf. rewrite sampleEnv_maxRadius. simpl. lra. Qed.

Lemma rimBall_hits : circleHit sampleEnv 0 0 rimAcc.
Proof.
  unfold circleHit. cbn [wa_ball wa_gaps rimAcc].
  assert (Hs : sub (pos rimBall) (center sampleEnv) = {| x := 449; y := 0 |})
    by (apply Vector2_eq; simpl; lra).
  assert (Hc : sub (center sampleEnv) (pos rimBall) = {| x := -449; y := 0 |})
    by (apply Vector2_eq; simpl; lra).
  split; [|split].
  - unfold circleInGap. cbn [config sampleEnv gapCount INITIAL_CONFIG].
    rewrite bool_decide_eq_false_2 by lia.
    rewrite bool_decide_eq_false_2 by set_solver. reflexivity.
  - rewrite Hs, sampleEnv_layer0, mag_axis_x by lra.
    unfold Rabs. destruct (Rcase_abs _); simpl; lra.
  - unfold circleNormal. rewrite Hs, Hc, sampleEnv_layer0, mag_axis_x by lra.
    destruct (decide _) as [G|_]; [lra|].
    unfold normalize. rewrite mag_axis_x_neg by lra.
    destruct (decide _) as [E|_]; [lra|].
    replace (- -449) with 449 by lra. unfold dot.
    cbn [x y vel rimBall sampleBall]. lra.
Qed.

Lemma floorBall_segment :
  distToSegment (pos floorBall) floorLeft floorRight
  = {| sh_dist := 1; sh_closest := {| x := 0; y := 0 |};
       sh_normal := {| x := 0; y := 1 |} |}.
Proof.
  unfold distToSegment.
  assert (Hab : dot (sub floorRight floorLeft) (sub floorRight floorLeft) = 100)
    by (unfold dot; simpl; lra).
  assert (Hap : dot (sub (pos floorBall) floorLeft) (sub floorRight floorLeft)
                = 50) by (unfold dot; simpl; lra).
  rewrite Hab, Hap. destruct (decide _) as [E|_]; [lra|].
  rewrite (Rmin_right 1 (50 / 100)) by lra.
  rewrite (Rmax_right 0 (50 / 100)) by lra.
  assert (Hc : add floorLeft (mult (sub floorRight floorLeft) (50 / 100))
               = {| x := 0; y := 0 |}) by (apply Vector2_eq; simpl; lra).
  rewrite Hc.
  assert (Hs : sub (pos floorBall) {| x := 0; y := 0 |} = {| x := 0; y := 1 |})
    by (apply Vector2_eq; simpl; lra).
  unfold dist. rewrite Hs.
  assert (Hn : normalize {| x := 0; y := 1 |} = {| x := 0; y := 1 |}).
  { unfold normalize. rewrite mag_axis_y by lra.
    destruct (decide _) as [E|_]; [lra|]. apply Vector2_eq; simpl; lra. }
  rewrite Hn, mag_axis_y by lra.
  destruct (decide _) as [[_ E]|_]; [simpl in E; lra|reflexivity].
Qed.

Lemma floorBall_hits : polygonHit (wa_ball floorAcc) floorLeft floorRight.
Proof.
  unfold polygonHit. cbn [wa_ball floorAcc]. rewrite floorBall_segment.
  cbn [sh_dist sh_normal]. split; [simpl; lra|unfold dot; simpl; lra].
Qed.

Lemma wall_hit_counting_policy_witness :
  let counts :=
    enableBallCollisions INITIAL_CONFIG = false
    ∨ recordWallCollisions INITIAL_CONFIG = Some true in
  (wa_count (circleLayer sampleEnv 0 0 rimAcc) = (wa_count rimAcc + 1)%Z
   ↔ counts)
  ∧ (wa_count (polygonWall sampleEnv "0-0" floorLeft floorRight floorAcc)
     = (wa_count floorAcc + 1)%Z ↔ counts).
Proof.
  pose proof (wall_hit_counting_policy sampleEnv 0 0 "0-0"
                floorLeft floorRight rimAcc) as [Hc _].
  pose proof (wall_hit_counting_policy sampleEnv 0 0 "0-0"
                floorLeft floorRight floorAcc) as [_ Hp].
  split.
  - apply (Hc rimBall_hits).
  - apply (Hp floorBall_hits).
Defined.

(** ** Toggling a wall by pressing it *)

Lemma toggleGap_member (w : string) (gaps : gset string) :
  w ∈ toggleGap w gaps ↔ w ∉ gaps.
Proof.
  unfold toggleGap. destruct (decide (w ∈ gaps)); set_unfold; tauto.
Qed.

Lemma toggleGap_other (w w' : string) (gaps : gset string) :
  w' ≠ w → w' ∈ toggleGap w gaps ↔ w' ∈ gaps.
Proof.
  intros Hne. unfold toggleGap.
  destruct (decide (w ∈ gaps)); set_unfold; tauto.
Qed.

Lemma toggleGap_twice (w : string) (gaps : gset string) :
  toggleGap w (toggleGap w gaps) = gaps.
Proof.
  apply set_eq. intros z. destruct (decide (z = w)) as [->|Hz].
  - rewrite !toggleGap_member. destruct (decide (w ∈ gaps)); tauto.
  - rewrite !toggleGap_other by exact Hz. reflexivity.
Qed.

Lemma handlePointerDown_wallPress
  (env : Env) (e : PointerEvent) (st : State) (w : string) :
  wallPress env e st w →
  ∃ rect, canvasRect env = Some rect ∧
  handlePointerDown env e st
  = with_manualGaps
      (with_longPressTimer
         (with_longPressStartPos (with_mousePos st (eventPos rect e))
            (Some (eventPos rect e))) true)
      (toggleGap w (manualGaps st)).
Proof.
  intros (Hg & Hp & Hb & (rect & Hr & Hv & Hh) & Hw & Hne).
  exists rect. split; [exact Hr|].
  unfold handlePointerDown. rewrite Hg, Hp, Hb, Hr. cbn [negb orb Z.eqb].
  cbn [balls with_longPressTimer with_longPressStartPos with_mousePos].
  rewrite Hv, Hh.
  cbn [hoveredWall with_longPressTimer with_longPressStartPos with_mousePos].
  rewrite Hw. unfold truthyString.
  destruct (decide (w = EmptyString)); [contradiction|reflexivity].
Qed.

Lemma handlePointerDown_balls (env : Env) (e : PointerEvent) (st : State) :
  balls (handlePointerDown env e st) = balls st.
Proof.
  unfold handlePointerDown.
  destruct (_ || _); [reflexivity|]. destruct (negb _); [reflexivity|].
  destruct (canvasRect env); [|reflexivity].
  cbn [balls with_longPressTimer with_longPressStartPos with_mousePos].
  destruct (find _ _); [reflexivity|]. destruct (find _ _); [reflexivity|].
  destruct (truthyString _); reflexivity.
Qed.

Lemma handlePointerDown_hoveredWall
  (env : Env) (e : PointerEvent) (st : State) :
  hoveredWall (handlePointerDown env e st) = hoveredWall st.
Proof.
  unfold handlePointerDown.
  destruct (_ || _); [reflexivity|]. destruct (negb _); [reflexivity|].
  destruct (canvasRect env); [|reflexivity].
  cbn [balls with_longPressTimer with_longPressStartPos with_mousePos].
  destruct (find _ _); [reflexivity|]. destruct (find _ _); [reflexivity|].
  destruct (truthyString _); reflexivity.
Qed.

Lemma wallPress_after_press
  (env env' : Env) (e e' : PointerEvent) (st : State) (w : string) :
  wallPress env e st w → wallPress env e (handlePointerDown env' e' st) w.
Proof.
  unfold wallPress.
  rewrite handlePointerDown_balls, handlePointerDown_hoveredWall. tauto.
Qed.

(** C3: a press that toggles wall [w] adds [w] to the manual gap set if it
    was absent and removes it if it was present, touching no other wall id;
    a second such press restores the gap set exactly. *)
Theorem double_toggle_restores_gaps
  (env1 env2 : Env) (e1 e2 : PointerEvent) (st : State) (w : string) :
  wallPress env1 e1 st w →
  wallPress env2 e2 st w →
  let st1 := handlePointerDown env1 e1 st in
  let st2 := handlePointerDown env2 e2 st1 in
  (w ∈ manualGaps st1 ↔ w ∉ manualGaps st)
  ∧ (∀ w', w' ≠ w → w' ∈ manualGaps st1 ↔ w' ∈ manualGaps st)
  ∧ manualGaps st2 = manualGaps st.
Proof.
  intros H1 H2 st1 st2. unfold st2, st1.
  apply (wallPress_after_press env2 env1 e2 e1) in H2.
  destruct (handlePointerDown_wallPress _ _ _ _ H2) as (r2 & _ & E2).
  rewrite E2. clear E2.
  destruct (handlePointerDown_wallPress _ _ _ _ H1) as (r1 & _ & E1).
  rewrite E1. cbn [manualGaps with_manualGaps].
  split; [apply toggleGap_member|].
  split; [intros w' Hw'; apply toggleGap_other, Hw'|].
  apply toggleGap_twice.
Qed.

Lemma mainPress_wallPress (st : State) :
  balls st = [] → hoveredWall st = Some "0-2"%string →
  wallPress godEnv mainPress st "0-2".
Proof.
  intros Hb Hw. unfold wallPress.
  split; [reflexivity|]. split; [reflexivity|]. split; [reflexivity|].
  split; [|split; [exact Hw|discriminate]].
  exists {| x := 0; y := 0 |}. rewrite Hb. repeat split.
Qed.

Lemma double_toggle_restores_gaps_witness :
  let st1 := handlePointerDown godEnv mainPress hoverState in
  let st2 := handlePointerDown godEnv mainPress st1 in
  ("0-2"%string ∈ manualGaps st1 ↔ "0-2"%string ∉ manualGaps hoverState)
  ∧ (∀ w', w' ≠ "0-2"%string →
       w' ∈ manualGaps st1 ↔ w' ∈ manualGaps hoverState)
  ∧ manualGaps st2 = manualGaps hoverState.
Proof.
  apply (double_toggle_restores_gaps godEnv godEnv mainPress mainPress
           hoverState "0-2");
    apply mainPress_wallPress; reflexivity.
Defined.

(** ** Pinned bodies as obstacles *)

Lemma existsb_isPinned (bs : list Ball) :
  existsb isPinned bs = true ↔ ∃ o, o ∈ bs ∧ isPinned o = true.
Proof.
  rewrite existsb_exists. split; intros (o & Ho & Hp); exists o;
    (split; [apply list_elem_of_In, Ho|exact Hp]).
Qed.

Lemma collidePair_pinned (el : R) (ball other : Ball) (count : Z) :
  overlapping ball other → isPinned other = true →
  let n := contactNormal ball other in
  let overlap :=
    radius ball + radius other - sqrt (distSq (pos ball) (pos other)) in
  let vDotN := dot (vel ball) n in
  collidePair el ball other count
  = if decide (vDotN < 0) then
      (with_vel (with_pos ball (add (pos ball) (mult n overlap)))
         (mult (sub (vel ball) (mult n (2 * vDotN))) el),
       other, (count + 1)%Z)
    else (with_pos ball (add (pos ball) (mult n overlap)), other, count).
Proof.
  intros Ho Hp. unfold collidePair, overlapping, contactNormal in *.
  destruct (decide _); [|contradiction]. rewrite Hp. cbn [vel with_pos].
  destruct (decide _); reflexivity.
Qed.

(** After the full push-out the two centres are exactly the sum of the
    radii apart. *)
Lemma pushed_out_distance (ball other : Ball) :
  pos ball ≠ pos other →
  let overlap :=
    radius ball + radius other - sqrt (distSq (pos ball) (pos other)) in
  distSq (add (pos ball) (mult (contactNormal ball other) overlap)) (pos other)
  = (radius ball + radius other) * (radius ball + radius other).
Proof.
  intros Hne overlap. unfold overlap. clear overlap.
  pose proof (distSq_pos_distinct _ _ Hne) as Hpos.
  pose proof (sqrt_lt_R0 _ Hpos) as HD.
  pose proof (sqrt_sqrt _ (Rlt_le _ _ Hpos)) as HDD.
  unfold contactNormal.
  set (D := sqrt (distSq (pos ball) (pos other))) in *.
  set (m := radius ball + radius other).
  unfold distSq in *. cbn [x y add sub mult]. cbn zeta in HDD. cbv zeta.
  match goal with |- ?l = _ =>
    replace l with
      (((x (pos ball) - x (pos other)) * (x (pos ball) - x (pos other))
        + (y (pos ball) - y (pos other)) * (y (pos ball) - y (pos other)))
       * (m / D) * (m / D)) by (field; lra)
  end.
  rewrite <- HDD. field. lra.
Qed.

(** C9 (amended): with [enableBallCollisions] off, the ball-ball pass runs
    on the sub-steps where it is scheduled (the even ones, as [SUB_STEPS] is
    10) exactly when some body is pinned; in it an unpinned partner is
    skipped, and an overlapping pinned partner is resolved: the pinned body
    stays as it is, the moving body is pushed out along the contact normal
    by the whole overlap, so that the centres end the sum of the radii
    apart, and when it approaches, its velocity is reflected about the
    normal and scaled by the elasticity and the collision is counted. *)
Theorem pinned_bodies_are_obstacles
  (cfg : GameConfig) (el : R) (step b j : nat) (bs : list Ball) (count : Z)
  (ball other : Ball) :
  enableBallCollisions cfg = false →
  b ≠ j → bs !! b = Some ball → bs !! j = Some other →
  let n := contactNormal ball other in
  let r := ballBallIter cfg el b (bs, count) j in
  (ballBallEnabled cfg bs step = true
   ↔ (∃ o, o ∈ bs ∧ isPinned o = true) ∧ (step mod 2 = 0)%nat)
  ∧ (isPinned other = false → r = (bs, count))
  ∧ (isPinned other = true → overlapping ball other → pos ball ≠ pos other →
     ∃ ball',
       r.1 = <[b := ball']> bs
       ∧ pos ball'
         = add (pos ball)
             (mult n (radius ball + radius other
                      - sqrt (distSq (pos ball) (pos other))))
       ∧ distSq (pos ball') (pos other)
         = (radius ball + radius other) * (radius ball + radius other)
       ∧ (dot (vel ball) n < 0 →
            vel ball' = mult (sub (vel ball) (mult n (2 * dot (vel ball) n))) el
            ∧ r.2 = (count + 1)%Z)
       ∧ (¬ dot (vel ball) n < 0 → vel ball' = vel ball ∧ r.2 = count)).
Proof.
  intros Hoff Hbj Hb Hj n r. split; [|split].
  - unfold ballBallEnabled. rewrite Hoff. cbn [orb].
    rewrite andb_true_iff, existsb_isPinned, ballBallScheduled_even.
    reflexivity.
  - intros Hp. unfold r, ballBallIter.
    destruct (decide (b = j)); [contradiction|]. cbn [fst snd].
    rewrite Hb, Hj, Hoff, Hp. reflexivity.
  - intros Hp Ho Hne. unfold r, ballBallIter.
    destruct (decide (b = j)); [contradiction|]. cbn [fst snd].
    rewrite Hb, Hj, Hoff, Hp. cbn [negb andb].
    rewrite collidePair_pinned by assumption. cbv zeta. fold n.
    destruct (decide (dot (vel ball) n < 0)) as [Hv|Hv].
    + eexists. cbn [fst snd]. split.
      { apply list_insert_id. rewrite list_lookup_insert_ne by exact Hbj.
        exact Hj. }
      cbn [pos vel with_pos with_vel].
      split; [reflexivity|]. split; [apply pushed_out_distance, Hne|].
      split; [intros _; split; reflexivity|]. intros Hn. contradiction.
    + eexists. cbn [fst snd]. split.
      { apply list_insert_id. rewrite list_lookup_insert_ne by exact Hbj.
        exact Hj. }
      cbn [pos vel with_pos with_vel].
      split; [reflexivity|]. split; [apply pushed_out_distance, Hne|].
      split; [intros Hn; contradiction|]. intros _. split; reflexivity.
Qed.

Lemma ballBallScheduled_odd : ballBallScheduled 1 = false.
Proof.
  destruct (ballBallScheduled 1) eqn:E; [|reflexivity].
  apply ballBallScheduled_even in E. discriminate.
Qed.

(** C9, as stated, fails: in sub-step 1 a pinned body exists, the moving
    [leftBall] overlaps it and approaches it, and the ball-ball pass does
    not run: array and counter come back unchanged. *)
Lemma pinned_obstacle_skipped_on_odd_step :
  enableBallCollisions INITIAL_CONFIG = false
  ∧ pinnedBall ∈ [leftBall; pinnedBall] ∧ isPinned pinnedBall = true
  ∧ overlapping leftBall pinnedBall
  ∧ dot (vel leftBall) (contactNormal leftBall pinnedBall) < 0
  ∧ ballBallEnabled INITIAL_CONFIG [leftBall; pinnedBall] 1 = false
  ∧ ballBallPass INITIAL_CONFIG 1 1 0 ([leftBall; pinnedBall], 0%Z)
    = ([leftBall; pinnedBall], 0%Z).
Proof.
  assert (Hoff : ballBallEnabled INITIAL_CONFIG [leftBall; pinnedBall] 1 = false).
  { unfold ballBallEnabled. rewrite ballBallScheduled_odd. apply andb_false_r. }
  split; [reflexivity|]. split; [set_solver|]. split; [reflexivity|].
  split; [apply leftBall_rightBall_overlapping|]. split.
  - change (contactNormal leftBall pinnedBall)
      with (contactNormal leftBall rightBall).
    rewrite leftBall_rightBall_normal. numbers.
  - split; [exact Hoff|]. unfold ballBallPass. cbn [fst]. rewrite Hoff.
    reflexivity.
Qed.

Lemma pinned_bodies_are_obstacles_witness :
  let r := ballBallIter INITIAL_CONFIG 1 0 ([leftBall; pinnedBall], 0%Z) 1 in
  ∃ ball',
    r.1 = <[0%nat := ball']> [leftBall; pinnedBall]
    ∧ distSq (pos ball') (pos pinnedBall)
      = (radius leftBall + radius pinnedBall)
        * (radius leftBall + radius pinnedBall)
    ∧ vel ball'
      = mult (sub (vel leftBall)
                (mult (contactNormal leftBall pinnedBall)
                   (2 * dot (vel leftBall) (contactNormal leftBall pinnedBall))))
          1
    ∧ r.2 = (0 + 1)%Z.
Proof.
  destruct (pinned_bodies_are_obstacles INITIAL_CONFIG 1 0 0 1
              [leftBall; pinnedBall] 0 leftBall pinnedBall
              eq_refl (Nat.neq_0_succ 0) eq_refl eq_refl) as (_ & _ & H).
  destruct (H eq_refl leftBall_rightBall_overlapping
              leftBall_rightBall_distinct) as (ball' & E & _ & Hd & Hv & _).
  exists ball'. split; [exact E|]. split; [exact Hd|].
  apply Hv.
  change (contactNormal leftBall pinnedBall)
    with (contactNormal leftBall rightBall).
  rewrite leftBall_rightBall_normal. numbers.
Defined.

(** ** Hover: the first wall within the tolerance *)

Lemma wallIdOf_nonempty (layer i : nat) : wallIdOf layer i ≠ EmptyString.
Proof. unfold wallIdOf. destruct (pretty layer); discriminate. Qed.

Lemma pickHover_settled (hovered : option string) (cands : list (string * R)) :
  hoverSettled hovered →
  (∀ c, c ∈ cands → c.1 ≠ EmptyString) →
  hoverSettled (pickHover hovered cands).
Proof.
  intros Hs Hc w. unfold pickHover, firstWithin.
  destruct hovered as [v|]; [apply Hs|].
  destruct (find _ cands) as [c|] eqn:E; [|discriminate].
  intros [= <-]. apply Hc. apply find_some in E as [E _].
  apply list_elem_of_In, E.
Qed.

Lemma pickHover_app (hovered : option string) (l1 l2 : list (string * R)) :
  pickHover (pickHover hovered l1) l2 = pickHover hovered (l1 ++ l2).
Proof.
  unfold pickHover, firstWithin. destruct hovered as [v|]; [reflexivity|].
  induction l1 as [|c l1 IH]; [reflexivity|]. cbn [find app].
  destruct (bool_decide (c.2 < 20)); [reflexivity|exact IH].
Qed.

Lemma pickHover_nil (hovered : option string) : pickHover hovered [] = hovered.
Proof. destruct hovered; reflexivity. Qed.

Lemma hoverActive_on (env : Env) (hovered : option string) :
  isGodMode (config env) = true → paused env = true →
  hoverSettled hovered →
  hoverActive env hovered = bool_decide (hovered = None).
Proof.
  intros Hg Hp Hs. unfold hoverActive. rewrite Hg, Hp. cbn [andb].
  destruct hovered as [w|]; cbn [truthyString].
  - destruct (decide (w = EmptyString)) as [E|_];
      [exfalso; apply (Hs w); [reflexivity|exact E]|].
    rewrite bool_decide_eq_true_2 by (eexists; reflexivity).
    rewrite bool_decide_eq_false_2 by discriminate. reflexivity.
  - rewrite bool_decide_eq_false_2 by (intros [? ?]; discriminate).
    rewrite bool_decide_eq_true_2 by reflexivity. reflexivity.
Qed.

Lemma pickHover_one (hovered : option string) (w : string) (d : R) :
  pickHover hovered [(w, d)]
  = if bool_decide (hovered = None)
    then (if decide (d < 20) then Some w else hovered)
    else hovered.
Proof.
  destruct hovered as [v|].
  - rewrite bool_decide_eq_false_2 by discriminate. reflexivity.
  - rewrite bool_decide_eq_true_2 by reflexivity.
    unfold pickHover, firstWithin. cbn [find snd].
    destruct (decide (d < 20)).
    + rewrite bool_decide_eq_true_2 by assumption. reflexivity.
    + rewrite bool_decide_eq_false_2 by assumption. reflexivity.
Qed.

Section Hover.

Variable env : Env.
Variable mouse : Vector2.
Variable rot : R.
Hypothesis god : isGodMode (config env) = true.
Hypothesis isPaused : paused env = true.

Lemma hoverSide_pick (vertices : list Vector2) (layer i : nat)
  (hovered : option string) :
  hoverSettled hovered →
  hoverSide env mouse vertices layer hovered i
  = pickHover hovered (sideCandidate env mouse vertices layer i).
Proof.
  intros Hs. unfold hoverSide, sideCandidate.
  destruct (isAutoGap env i); [symmetry; apply pickHover_nil|].
  destruct (vertices !! i) as [p1|]; [|symmetry; apply pickHover_nil].
  destruct (vertices !! _) as [p2|]; [|symmetry; apply pickHover_nil].
  rewrite pickHover_one, hoverActive_on by assumption. reflexivity.
Qed.

Lemma sideCandidate_ids (vertices : list Vector2) (layer i : nat) :
  ∀ c, c ∈ sideCandidate env mouse vertices layer i → c.1 ≠ EmptyString.
Proof.
  intros c. unfold sideCandidate.
  destruct (isAutoGap env i); [intros H; inversion H|].
  destruct (vertices !! i); [|intros H; inversion H].
  destruct (vertices !! _); [|intros H; inversion H].
  intros H. apply list_elem_of_singleton in H. subst c.
  apply wallIdOf_nonempty.
Qed.

Lemma hoverSides_pick (vertices : list Vector2) (layer : nat)
  (idxs : list nat) (hovered : option string) :
  hoverSettled hovered →
  foldl (hoverSide env mouse vertices layer) hovered idxs
  = pickHover hovered
      (flat_map (sideCandidate env mouse vertices layer) idxs).
Proof.
  revert hovered. induction idxs as [|i idxs IH]; intros hovered Hs.
  - symmetry. apply pickHover_nil.
  - cbn [foldl flat_map]. rewrite hoverSide_pick by exact Hs.
    rewrite IH by (apply pickHover_settled;
                   [exact Hs|apply sideCandidate_ids]).
    apply pickHover_app.
Qed.

Lemma layerCandidates_ids (layer : nat) :
  ∀ c, c ∈ layerCandidates env mouse rot layer → c.1 ≠ EmptyString.
Proof.
  intros c. unfold layerCandidates.
  destruct (decide _); [intros H; inversion H|].
  destruct (isCircle (config env)).
  - intros H. apply list_elem_of_singleton in H. subst c.
    apply wallIdOf_nonempty.
  - intros H. apply list_elem_of_In, in_flat_map in H as (i & _ & H).
    apply (sideCandidate_ids (layerVertices env rot layer) layer i),
      list_elem_of_In, H.
Qed.

Lemma hoverLayer_pick (layer : nat) (hovered : option string) :
  hoverSettled hovered →
  hoverLayer env mouse rot hovered layer
  = pickHover hovered (layerCandidates env mouse rot layer).
Proof.
  intros Hs. unfold hoverLayer, layerCandidates.
  destruct (decide _); [symmetry; apply pickHover_nil|].
  destruct (isCircle (config env)).
  - unfold hoverCircle.
    rewrite pickHover_one, hoverActive_on by assumption. reflexivity.
  - apply hoverSides_pick, Hs.
Qed.

Lemma hoverLayers_pick (layers : list nat) (hovered : option string) :
  hoverSettled hovered →
  foldl (hoverLayer env mouse rot) hovered layers
  = pickHover hovered (flat_map (layerCandidates env mouse rot) layers).
Proof.
  revert hovered. induction layers as [|l layers IH]; intros hovered Hs.
  - symmetry. apply pickHover_nil.
  - cbn [foldl flat_map]. rewrite hoverLayer_pick by exact Hs.
    rewrite IH by (apply pickHover_settled;
                   [exact Hs|apply layerCandidates_ids]).
    apply pickHover_app.
Qed.

End Hover.

Lemma hoverLayers_off (env : Env) (mouse : Vector2) (rot : R)
  (layers : list nat) :
  isGodMode (config env) && paused env = false →
  foldl (hoverLayer env mouse rot) None layers = None.
Proof.
  intros Hoff.
  assert (Ha : hoverActive env None = false).
  { unfold hoverActive. rewrite Hoff. reflexivity. }
  induction layers as [|l layers IH]; [reflexivity|].
  cbn [foldl].
  assert (E : hoverLayer env mouse rot None l = None); [|rewrite E; exact IH].
  unfold hoverLayer. destruct (decide _); [reflexivity|].
  destruct (isCircle (config env)).
  - unfold hoverCircle. rewrite Ha. reflexivity.
  - generalize (seq 0 (sidesN env)). intros idxs.
    induction idxs as [|i idxs IHs]; [reflexivity|]. cbn [foldl].
    assert (E : hoverSide env mouse (layerVertices env rot l) l None i = None);
      [|rewrite E; exact IHs].
    unfold hoverSide. destruct (isAutoGap env i); [reflexivity|].
    destruct (_ !! i); [|reflexivity]. destruct (_ !! _); [|reflexivity].
    rewrite Ha. reflexivity.
Qed.

Lemma computeHover_first (env : Env) (st : State) :
  isGodMode (config env) = true → paused env = true →
  computeHover env st
  = firstWithin 20 (hoverCandidates env (mousePos st) (rotation st)).
Proof.
  intros Hg Hp. unfold computeHover, hoverCandidates.
  rewrite hoverLayers_pick by (assumption || intros w; discriminate).
  reflexivity.
Qed.

Lemma computeHover_off (env : Env) (st : State) :
  isGodMode (config env) && paused env = false → computeHover env st = None.
Proof. apply hoverLayers_off. Qed.

(** C8 (amended): every frame resets the hovered wall and recomputes it
    from the pointer and the rotation alone, whatever was hovered before.
    When god mode or paused is false, no wall is hovered after the frame.
    When both are true, the hovered wall, at most one, is the first wall in
    drawing order (layers from 0 upwards, sides by index) whose distance to
    the pointer is below the tolerance of 20: the first such wall wins, not
    the nearest one. *)
Theorem hover_is_first_wall_within_tolerance
  (random : nat → R) (env : Env) (st : State) :
  (isGodMode (config env) && paused env = false →
   hoveredWall (update random env st) = None)
  ∧ (isGodMode (config env) = true → paused env = true →
     hoveredWall (update random env st)
     = firstWithin 20 (hoverCandidates env (mousePos st) (rotation st))).
Proof.
  split.
  - intros Hoff. unfold update. cbn [hoveredWall with_hoveredWall].
    apply computeHover_off, Hoff.
  - intros Hg Hp. unfold update. cbn [hoveredWall with_hoveredWall].
    unfold physics. rewrite Hp. apply computeHover_first; assumption.
Qed.

Lemma ringEnv_maxRadius : maxRadius ringEnv = 450.
Proof.
  unfold maxRadius. cbn [innerWidth innerHeight ringEnv config baseScale].
  rewrite Rmin_left by lra. lra.
Qed.

Lemma ringEnv_candidates :
  hoverCandidates ringEnv (mousePos ringState) (rotation ringState)
  = [("0-0"%string, 9); ("1-0"%string, 1)].
Proof.
  assert (Hm : mag (sub (mousePos ringState) (center ringEnv)) = 441).
  { replace (sub (mousePos ringState) (center ringEnv))
      with {| x := 441; y := 0 |} by (apply Vector2_eq; simpl; lra).
    apply mag_axis_x. lra. }
  assert (H0 : layerRadiusOf ringEnv 0 = 450).
  { unfold layerRadiusOf. rewrite ringEnv_maxRadius. simpl. lra. }
  assert (H1 : layerRadiusOf ringEnv 1 = 440).
  { unfold layerRadiusOf. rewrite ringEnv_maxRadius. simpl. lra. }
  unfold hoverCandidates.
  change (seq 0 (layersN ringEnv)) with [0%nat; 1%nat].
  cbn [flat_map app]. unfold layerCandidates.
  rewrite Hm, H0, H1. cbn [isCircle config ringEnv].
  destruct (decide (450 <= 0)) as [?|_]; [lra|].
  destruct (decide (440 <= 0)) as [?|_]; [lra|].
  cbn [app].
  replace (Rabs (441 - 450)) with 9
    by (unfold Rabs; destruct (Rcase_abs _); lra).
  replace (Rabs (441 - 440)) with 1
    by (unfold Rabs; destruct (Rcase_abs _); lra).
  reflexivity.
Qed.

(** C8, as stated, fails: in paused god mode the pointer is within the
    tolerance of both rings, 9 from the outer one and 1 from the inner one,
    and after the frame the hovered wall is the outer ring, which is not the
    nearest. *)
Lemma hover_takes_first_not_nearest :
  isGodMode (config ringEnv) = true ∧ paused ringEnv = true
  ∧ hoverCandidates ringEnv (mousePos ringState) (rotation ringState)
    = [("0-0"%string, 9); ("1-0"%string, 1)]
  ∧ 1 < 9 < 20
  ∧ hoveredWall (update halfRandom ringEnv ringState) = Some "0-0"%string.
Proof.
  split; [reflexivity|]. split; [reflexivity|].
  split; [apply ringEnv_candidates|]. split; [lra|].
  unfold update. cbn [hoveredWall with_hoveredWall].
  change (physics halfRandom ringEnv ringState) with ringState.
  rewrite computeHover_first by reflexivity. rewrite ringEnv_candidates.
  unfold firstWithin. cbn [find snd].
  rewrite bool_decide_eq_true_2 by lra. reflexivity.
Qed.

Lemma hover_is_first_wall_within_tolerance_witness :
  hoveredWall (update halfRandom ringEnv ringState)
  = firstWithin 20
      (hoverCandidates ringEnv (mousePos ringState) (rotation ringState))
  ∧ hoveredWall (update halfRandom sampleEnv ringState) = None.
Proof.
  split.
  - apply (hover_is_first_wall_within_tolerance halfRandom ringEnv ringState);
      reflexivity.
  - apply (hover_is_first_wall_within_tolerance halfRandom sampleEnv ringState).
    reflexivity.
Defined.

(** ** Pinned bodies do not move *)

Lemma foldl_invariant {A B : Type} (P : A → Prop) (f : A → B → A)
  (l : list B) (a : A) :
  P a → (∀ a b, P a → P (f a b)) → P (foldl f a l).
Proof.
  intros Ha Hf. revert a Ha. induction l as [|b l IH]; intros a Ha.
  - exact Ha.
  - cbn [foldl]. apply IH, Hf, Ha.
Qed.

Lemma filter_insert_unpinned (bs : list Ball) (i : nat) (b b' : Ball) :
  bs !! i = Some b → isPinned b = false → isPinned b' = false →
  List.filter isPinned (<[i := b']> bs) = List.filter isPinned bs.
Proof.
  revert i. induction bs as [|a bs IH]; intros [|i] Hi Hb Hb';
    cbn in Hi; try discriminate.
  - injection Hi as ->.
    change (List.filter isPinned (b' :: bs) = List.filter isPinned (b :: bs)).
    cbn [List.filter]. rewrite Hb, Hb'. reflexivity.
  - change (List.filter isPinned (a :: <[i := b']> bs)
            = List.filter isPinned (a :: bs)).
    cbn [List.filter]. rewrite (IH i) by assumption. reflexivity.
Qed.

Lemma filter_delete_unpinned (bs : list Ball) (i : nat) (b : Ball) :
  bs !! i = Some b → isPinned b = false →
  List.filter isPinned (delete i bs) = List.filter isPinned bs.
Proof.
  revert i. induction bs as [|a bs IH]; intros [|i] Hi Hb;
    cbn in Hi; try discriminate.
  - injection Hi as ->.
    change (List.filter isPinned bs = List.filter isPinned (b :: bs)).
    cbn [List.filter]. rewrite Hb. reflexivity.
  - change (List.filter isPinned (a :: delete i bs)
            = List.filter isPinned (a :: bs)).
    cbn [List.filter]. rewrite (IH i) by assumption. reflexivity.
Qed.

Lemma filter_map_unpinned (f : Ball → Ball) (bs : list Ball) :
  (∀ b, isPinned (f b) = isPinned b) →
  (∀ b, isPinned b = true → f b = b) →
  List.filter isPinned (map f bs) = List.filter isPinned bs.
Proof.
  intros Hflag Hfix. induction bs as [|a bs IH]; [reflexivity|].
  cbn. rewrite Hflag, IH. destruct (isPinned a) eqn:E; [|reflexivity].
  rewrite Hfix by exact E. reflexivity.
Qed.

Lemma integrate_flag (cfg : GameConfig) (ball : Ball) :
  isPinned (integrate cfg ball) = isPinned ball.
Proof. reflexivity. Qed.

Lemma collidePair_flags (el : R) (ball other : Ball) (count : Z) :
  let r := collidePair el ball other count in
  isPinned r.1.1 = isPinned ball
  ∧ isPinned r.1.2 = isPinned other
  ∧ (isPinned other = true → r.1.2 = other).
Proof.
  unfold collidePair. destruct (decide _); [|cbn; auto].
  destruct (isPinned other) eqn:E; destruct (decide _); cbn; auto;
    repeat split; try exact E; intros; discriminate.
Qed.

Lemma ballBallIter_pinsKept (cfg : GameConfig) (el : R) (b j : nat)
  (pinned : list Ball) (acc : list Ball * Z) :
  pinsKept b pinned acc.1 → pinsKept b pinned (ballBallIter cfg el b acc j).1.
Proof.
  intros [(ball & Hb & Hu) Hf]. unfold ballBallIter.
  destruct (decide (b = j)) as [|Hbj]; [split; eauto|].
  rewrite Hb. destruct (acc.1 !! j) as [other|] eqn:Hj; [|split; eauto].
  destruct (negb (enableBallCollisions cfg) && negb (isPinned other));
    [split; eauto|].
  pose proof (collidePair_flags el ball other acc.2) as (F1 & F2 & F3).
  destruct (collidePair el ball other acc.2) as [[ball' other'] count'].
  cbn [fst snd] in *. rewrite Hu in F1.
  assert (Hj' : <[b := ball']> acc.1 !! j = Some other)
    by (rewrite list_lookup_insert_ne by exact Hbj; exact Hj).
  assert (Hf' : List.filter isPinned (<[b := ball']> acc.1) = pinned)
    by (rewrite (filter_insert_unpinned _ _ ball) by assumption; exact Hf).
  split.
  - exists ball'. split; [|exact F1].
    rewrite list_lookup_insert_ne by (intros E; apply Hbj; symmetry; exact E).
    apply list_lookup_insert_eq. apply lookup_lt_Some in Hb. exact Hb.
  - destruct (isPinned other) eqn:Ho.
    + rewrite (F3 eq_refl). rewrite list_insert_id by exact Hj'. exact Hf'.
    + rewrite (filter_insert_unpinned _ _ other) by assumption. exact Hf'.
Qed.

Lemma ballBallPass_pinsKept (cfg : GameConfig) (el : R) (step b : nat)
  (pinned : list Ball) (acc : list Ball * Z) :
  pinsKept b pinned acc.1 → pinsKept b pinned (ballBallPass cfg el step b acc).1.
Proof.
  intros H. unfold ballBallPass.
  destruct (ballBallEnabled cfg acc.1 step); [|exact H].
  apply (foldl_invariant (λ a, pinsKept b pinned a.1)); [exact H|].
  intros a j Ha. apply ballBallIter_pinsKept, Ha.
Qed.

Lemma circleLayer_flag (env : Env) (rot : R) (layer : nat) (acc : WallAcc) :
  isPinned (wa_ball (circleLayer env rot layer acc)) = isPinned (wa_ball acc).
Proof.
  unfold circleLayer. destruct (circleInGap _ _ _ _ _); [reflexivity|].
  destruct (decide _); [|reflexivity]. destruct (decide _); reflexivity.
Qed.

Lemma polygonWall_flag (env : Env) (wallId : string) (p1 p2 : Vector2)
  (acc : WallAcc) :
  isPinned (wa_ball (polygonWall env wallId p1 p2 acc))
  = isPinned (wa_ball acc).
Proof.
  unfold polygonWall. destruct (decide _); [|reflexivity].
  destruct (decide _); [reflexivity|]. destruct (decide _); reflexivity.
Qed.

Lemma polygonSide_flag (env : Env) (vertices : list Vector2) (layer i : nat)
  (acc : WallAcc) :
  isPinned (wa_ball (polygonSide env vertices layer acc i))
  = isPinned (wa_ball acc).
Proof.
  unfold polygonSide. destruct (_ || _); [reflexivity|].
  destruct (vertices !! i); [|reflexivity].
  destruct (vertices !! _); [|reflexivity]. apply polygonWall_flag.
Qed.

Lemma wallLayer_flag (env : Env) (rot : R) (layer : nat) (acc : WallAcc) :
  isPinned (wa_ball (wallLayer env rot acc layer)) = isPinned (wa_ball acc).
Proof.
  unfold wallLayer. destruct (decide _); [reflexivity|].
  destruct (isCircle (config env)); [apply circleLayer_flag|].
  apply (foldl_invariant
           (λ a, isPinned (wa_ball a) = isPinned (wa_ball acc)));
    [reflexivity|].
  intros a i Ha. rewrite polygonSide_flag. exact Ha.
Qed.

Lemma wallPass_flag (env : Env) (rot : R) (acc : WallAcc) :
  isPinned (wa_ball (wallPass env rot acc)) = isPinned (wa_ball acc).
Proof.
  unfold wallPass.
  apply (foldl_invariant
           (λ a, isPinned (wa_ball a) = isPinned (wa_ball acc)));
    [reflexivity|].
  intros a i Ha. rewrite wallLayer_flag. exact Ha.
Qed.

Section EngineKeepsPins.

Variable random : nat → R.

Lemma respawn_flag (env : Env) (d : nat) (ball : Ball) :
  isPinned (respawn random env d ball).1 = isPinned ball.
Proof.
  unfold respawn. destruct (randomSpawn (config env)); [reflexivity|].
  destruct (micControlEnabled (config env)); reflexivity.
Qed.

Lemma boundary_keeps_pins (env : Env) (b : nat) (ball old : Ball) (st : State) :
  balls st !! b = Some old → isPinned old = false → isPinned ball = false →
  List.filter isPinned (balls (boundary random env b ball st))
  = List.filter isPinned (balls st).
Proof.
  intros Hb Ho Hu. unfold boundary. destruct (decide _); [|reflexivity].
  destruct (isReductionMode (config env)).
  - cbn [balls with_balls]. apply (filter_delete_unpinned _ _ old); assumption.
  - pose proof (respawn_flag env (randomDraws st) ball) as Hf.
    destruct (respawn random env (randomDraws st) ball) as [ball' d].
    cbn [fst] in Hf. cbn [balls with_balls with_randomDraws].
    apply (filter_insert_unpinned _ _ old); congruence.
Qed.

Lemma processBall_keeps_pins (env : Env) (step : nat) (st : State) (b : nat) :
  List.filter isPinned (balls (processBall random env step st b))
  = List.filter isPinned (balls st).
Proof.
  unfold processBall.
  destruct (balls st !! b) as [ball|] eqn:Hb; [|reflexivity].
  destruct (isPinned ball) eqn:Hu; [reflexivity|].
  assert (Hk : pinsKept b (List.filter isPinned (balls st))
                 (<[b := integrate (config env) ball]> (balls st),
                  collisionCount st).1).
  { split.
    - exists (integrate (config env) ball). split; [|exact Hu].
      apply list_lookup_insert_eq. apply lookup_lt_Some in Hb. exact Hb.
    - apply (filter_insert_unpinned _ _ ball); assumption. }
  apply (ballBallPass_pinsKept (config env) (currentElasticity env) step) in Hk.
  destruct (ballBallPass _ _ _ _ _) as [bs count].
  destruct Hk as [(ball2 & Hb2 & Hu2) Hf]. cbn [fst] in *.
  rewrite Hb2.
  set (acc := wallPass env (rotation st) _).
  assert (Ha : isPinned (wa_ball acc) = false).
  { unfold acc. rewrite wallPass_flag. exact Hu2. }
  rewrite (boundary_keeps_pins env b (wa_ball acc) (wa_ball acc)).
  - cbn [balls with_balls with_manualGaps with_collisionCount].
    rewrite (filter_insert_unpinned _ _ ball2) by assumption. exact Hf.
  - cbn [balls with_balls with_manualGaps with_collisionCount].
    apply list_lookup_insert_eq. apply lookup_lt_Some in Hb2. exact Hb2.
  - exact Ha.
  - exact Ha.
Qed.

Lemma subStep_keeps_pins (env : Env) (st : State) (step : nat) :
  List.filter isPinned (balls (subStep random env st step))
  = List.filter isPinned (balls st).
Proof.
  unfold subStep.
  apply (foldl_invariant
           (λ s, List.filter isPinned (balls s)
                 = List.filter isPinned (balls st))); [reflexivity|].
  intros s b Hs. rewrite processBall_keeps_pins. exact Hs.
Qed.

Lemma updateTrail_flag (ball : Ball) :
  isPinned (updateTrail ball) = isPinned ball.
Proof. unfold updateTrail. destruct (_ && _); reflexivity. Qed.

Lemma updateTrail_pinned (ball : Ball) :
  isPinned ball = true → updateTrail ball = ball.
Proof.
  intros H. unfold updateTrail. rewrite H, andb_false_r. reflexivity.
Qed.

Lemma physics_keeps_pins (env : Env) (st : State) :
  List.filter isPinned (balls (physics random env st))
  = List.filter isPinned (balls st).
Proof.
  unfold physics. destruct (paused env); [reflexivity|].
  cbn [balls with_balls].
  rewrite filter_map_unpinned
    by (apply updateTrail_flag || apply updateTrail_pinned).
  apply (foldl_invariant
           (λ s, List.filter isPinned (balls s)
                 = List.filter isPinned (balls st))); [reflexivity|].
  intros s step Hs. rewrite subStep_keeps_pins. exact Hs.
Qed.

Lemma update_keeps_pins (env : Env) (st : State) :
  List.filter isPinned (balls (update random env st))
  = List.filter isPinned (balls st).
Proof. unfold update. cbn [balls with_hoveredWall]. apply physics_keeps_pins. Qed.

Lemma update_paused (env : Env) (st : State) :
  paused env = true → balls (update random env st) = balls st.
Proof.
  intros Hp. unfold update, physics. rewrite Hp. reflexivity.
Qed.

End EngineKeepsPins.

(** *** The handlers *)

Lemma dragMove_flag (d : DragState) (mouse : Vector2) (ball : Ball) :
  isPinned (dragMove d mouse ball) = isPinned ball.
Proof.
  unfold dragMove. destruct (isPinned ball) eqn:E; [exact E|].
  destruct d; exact E.
Qed.

Lemma dragMove_pinned (d : DragState) (mouse : Vector2) (ball : Ball) :
  isPinned ball = true → dragMove d mouse ball = ball.
Proof. intros H. unfold dragMove. rewrite H. reflexivity. Qed.

Lemma filter_updateFirst (f : Ball → bool) (g : Ball → Ball) (bs : list Ball) :
  (∀ b, isPinned (g b) = isPinned b) →
  (∀ b, isPinned b = true → g b = b) →
  List.filter isPinned (updateFirst f g bs) = List.filter isPinned bs.
Proof.
  intros Hflag Hfix. induction bs as [|a bs IH]; [reflexivity|].
  cbn [updateFirst]. destruct (f a).
  - cbn [List.filter]. rewrite Hflag.
    destruct (isPinned a) eqn:E; [|reflexivity].
    rewrite Hfix by exact E. reflexivity.
  - cbn [List.filter]. rewrite IH. reflexivity.
Qed.

Lemma handlePointerMove_keeps_pins (env : Env) (e : PointerEvent) (st : State) :
  List.filter isPinned (balls (handlePointerMove env e st))
  = List.filter isPinned (balls st).
Proof.
  unfold handlePointerMove. destruct (canvasRect env) as [rect|]; [|reflexivity].
  set (st1 := with_mousePos st _).
  set (st2 := match longPressTimer st1 with true => _ | false => _ end).
  assert (Hb : balls st2 = balls st).
  { unfold st2. destruct (longPressTimer st1); [|reflexivity].
    destruct (longPressStartPos st1); [|reflexivity].
    destruct (decide _); reflexivity. }
  destruct (dragState st2) as [d|]; [|rewrite Hb; reflexivity].
  cbn [balls with_balls]. rewrite Hb.
  apply filter_updateFirst; [apply dragMove_flag|apply dragMove_pinned].
Qed.

Lemma togglePin_pinStep (p : Vector2) (bs : list Ball) :
  Forall2 pinStep bs (togglePin p bs).1.
Proof.
  induction bs as [|ball bs IH]; [constructor|].
  cbn [togglePin]. destruct (decide _).
  - cbn [fst]. constructor.
    + unfold pinStep. destruct (isPinned ball) eqn:E.
      * right; right. split; [reflexivity|].
        cbn [isPinned with_isPinned negb]. reflexivity.
      * right; left. split; [reflexivity|].
        cbn [isPinned with_isPinned negb]. reflexivity.
    + clear IH. induction bs as [|? ? IHbs]; constructor;
        [left; reflexivity|exact IHbs].
  - destruct (togglePin p bs) as [rest hit]. cbn [fst] in *.
    constructor; [left; reflexivity|exact IH].
Qed.

Lemma pinStep_rest (b b' : Ball) :
  pinStep b b' →
  (isPinned b = true → vel b = {| x := 0; y := 0 |}) →
  (isPinned b' = true → vel b' = {| x := 0; y := 0 |})
  ∧ (isPinned b = true → vel b' = {| x := 0; y := 0 |}).
Proof.
  intros [->|[[Hu ->]|[Hp ->]]] Hr.
  - split; exact Hr.
  - split; intros _; reflexivity.
  - split; intros H; [discriminate|apply Hr, Hp].
Qed.

Lemma pinStep_keeps_rest (bs bs' : list Ball) :
  Forall2 pinStep bs bs' → pinnedAtRest bs → pinnedAtRest bs'.
Proof.
  unfold pinnedAtRest. induction 1 as [|b b' bs bs' Hs _ IH]; intros Hr.
  - constructor.
  - inversion Hr; subst. constructor; [|apply IH; assumption].
    apply (pinStep_rest b b'); assumption.
Qed.

Lemma pinnedAtRest_filter (bs : list Ball) :
  pinnedAtRest bs
  ↔ Forall (λ b, vel b = {| x := 0; y := 0 |}) (List.filter isPinned bs).
Proof.
  unfold pinnedAtRest. induction bs as [|a bs IH]; cbn [List.filter].
  - split; constructor.
  - rewrite Forall_cons. destruct (isPinned a) eqn:E.
    + rewrite Forall_cons, IH. split; intros [H1 H2]; split; auto.
    + rewrite IH. split; [intros [_ H]; exact H|].
      intros H. split; [intros; discriminate|exact H].
Qed.

Lemma pinnedAtRest_view (st : State) :
  pinnedAtRest (balls st)
  ↔ Forall (λ v, v.2 = {| x := 0; y := 0 |}) (pinnedBodies st).
Proof.
  rewrite pinnedAtRest_filter. unfold pinnedBodies.
  rewrite Forall_map. reflexivity.
Qed.

Lemma pinnedBodies_of_filter (st st' : State) :
  List.filter isPinned (balls st') = List.filter isPinned (balls st) →
  pinnedBodies st' = pinnedBodies st.
Proof. unfold pinnedBodies. intros ->. reflexivity. Qed.

Lemma sameBody_pinned_view (bs bs' : list Ball) :
  Forall2 sameBody bs bs' →
  map (λ b, (id b, pos b, vel b)) (List.filter isPinned bs')
  = map (λ b, (id b, pos b, vel b)) (List.filter isPinned bs).
Proof.
  induction 1 as [|b b' bs bs' (Hi & Hp & Hv & Hf) _ IH]; [reflexivity|].
  cbn [List.filter]. rewrite Hf. destruct (isPinned b); [|exact IH].
  cbn [map]. rewrite Hi, Hp, Hv, IH. reflexivity.
Qed.

Section SessionKeepsPins.

Variable random : nat → R.

Lemma handleDoubleClick_keeps_pins (env : Env) (e : PointerEvent) (now : R)
  (st : State) :
  List.filter isPinned (balls (handleDoubleClick random env e now st))
  = List.filter isPinned (balls st).
Proof.
  unfold handleDoubleClick. destruct (canvasRect env); [|reflexivity].
  destruct (randomSpawn (config env));
    cbn [balls with_balls with_randomDraws];
    rewrite List.filter_app; cbn [List.filter isPinned];
    apply app_nil_r.
Qed.

Lemma resizeBalls_fold (env : Env) (bs : list Ball) (acc : list Ball * nat) :
  ∃ l,
    (foldl (λ (acc : list Ball * nat) (ball : Ball),
              (acc.1 ++ [with_radius ball
                           (ballSize (config env) + (random acc.2 * 2))],
               S acc.2)) acc bs).1 = acc.1 ++ l
    ∧ Forall2 sameBody bs l.
Proof.
  revert acc. induction bs as [|b bs IH]; intros acc.
  - exists []. split; [symmetry; apply app_nil_r|constructor].
  - cbn [foldl]. destruct (IH (acc.1 ++ [with_radius b
                                 (ballSize (config env) + (random acc.2 * 2))],
                               S acc.2)) as (l & El & Hl).
    exists (with_radius b (ballSize (config env) + (random acc.2 * 2)) :: l).
    split.
    + rewrite El. cbn [fst]. rewrite <- app_assoc. reflexivity.
    + constructor; [repeat split|exact Hl].
Qed.

Lemma resizeBalls_keeps_pinned (env : Env) (st : State) :
  pinnedBodies (resizeBalls random env st) = pinnedBodies st.
Proof.
  unfold resizeBalls. destruct (randomSpawn (config env)); [reflexivity|].
  destruct (resizeBalls_fold env (balls st) ([], randomDraws st))
    as (l & El & Hl).
  destruct (foldl _ _ _) as [bs d]. cbn [fst app] in El. subst bs.
  unfold pinnedBodies. cbn [balls with_balls with_randomDraws].
  apply sameBody_pinned_view, Hl.
Qed.

Lemma spawnBall_unpinned (env : Env) (d i : nat) :
  isPinned (spawnBall random env d i).1 = false.
Proof.
  unfold spawnBall. destruct (randomSpawn (config env)); [reflexivity|].
  destruct (micControlEnabled (config env)); reflexivity.
Qed.

Lemma filter_all_unpinned (bs : list Ball) :
  Forall (λ b, isPinned b = false) bs → List.filter isPinned bs = [].
Proof.
  induction 1 as [|b bs Hb _ IH]; [reflexivity|].
  cbn [List.filter]. rewrite Hb. exact IH.
Qed.

Lemma initBalls_unpinned (env : Env) (st : State) :
  List.filter isPinned (balls (initBalls random env st)) = [].
Proof.
  unfold initBalls.
  assert (H : Forall (λ b, isPinned b = false)
                (foldl (λ (acc : list Ball * nat) (i : nat),
                          let '(ball, d) := spawnBall random env acc.2 i in
                          (acc.1 ++ [ball], d))
                   ([], randomDraws st)
                   (seq 0 (Z.to_nat (ballCount (config env))))).1).
  { apply (foldl_invariant
             (λ a : list Ball * nat, Forall (λ b, isPinned b = false) a.1));
      [constructor|].
    intros a i Ha. pose proof (spawnBall_unpinned env a.2 i) as Hu.
    destruct (spawnBall random env a.2 i) as [ball d]. cbn [fst] in *.
    apply Forall_app. split; [exact Ha|]. constructor; [exact Hu|constructor]. }
  destruct (foldl _ _ _) as [newBalls d]. cbn [fst] in H.
  cbn [balls with_balls with_manualGaps with_randomDraws with_collisionCount].
  apply filter_all_unpinned, H.
Qed.

Lemma longPressFire_pinStep (st : State) :
  Forall2 pinStep (balls st) (balls (longPressFire st)).
Proof.
  unfold longPressFire.
  assert (Hid : Forall2 pinStep (balls st) (balls st)).
  { induction (balls st); constructor; [left; reflexivity|assumption]. }
  destruct (longPressTimer st); [|exact Hid].
  pose proof (togglePin_pinStep (mousePos st) (balls st)) as H.
  destruct (togglePin (mousePos st) (balls st)) as [bs success].
  cbn [fst] in H. destruct success; exact H.
Qed.

Lemma handleContextMenu_pinStep (env : Env) (e : PointerEvent) (st : State) :
  Forall2 pinStep (balls st) (balls (handleContextMenu env e st)).
Proof.
  unfold handleContextMenu.
  assert (Hid : Forall2 pinStep (balls st) (balls st)).
  { induction (balls st); constructor; [left; reflexivity|assumption]. }
  destruct (negb _); [exact Hid|].
  destruct (canvasRect env); [|exact Hid].
  cbn [balls with_balls]. apply togglePin_pinStep.
Qed.

Lemma dispatch_keeps_pinned (env : Env) (ev : Event) (st : State) :
  keepsPins ev →
  pinnedBodies (dispatch random env ev st) = pinnedBodies st.
Proof.
  destruct ev; cbn [keepsPins dispatch]; intros H; try contradiction.
  - apply pinnedBodies_of_filter, update_keeps_pins.
  - unfold pinnedBodies. rewrite handlePointerDown_balls. reflexivity.
  - apply pinnedBodies_of_filter, handlePointerMove_keeps_pins.
  - reflexivity.
  - apply pinnedBodies_of_filter, handleDoubleClick_keeps_pins.
  - apply resizeBalls_keeps_pinned.
Qed.

Lemma dispatch_keeps_rest (env : Env) (ev : Event) (st : State) :
  pinnedAtRest (balls st) → pinnedAtRest (balls (dispatch random env ev st)).
Proof.
  intros Hr.
  assert (Hk : keepsPins ev → pinnedAtRest (balls (dispatch random env ev st))).
  { intros Hk. apply pinnedAtRest_view.
    rewrite dispatch_keeps_pinned by exact Hk. apply pinnedAtRest_view, Hr. }
  destruct ev; try (apply Hk; exact I).
  - apply (pinStep_keeps_rest (balls st));
      [apply handleContextMenu_pinStep|exact Hr].
  - apply (pinStep_keeps_rest (balls st));
      [apply longPressFire_pinStep|exact Hr].
  - apply pinnedAtRest_filter. cbn [dispatch].
    rewrite initBalls_unpinned. constructor.
Qed.

Lemma reachable_at_rest (st : State) :
  reachable random st → pinnedAtRest (balls st).
Proof.
  induction 1 as [|env ev st _ IH]; [constructor|].
  apply dispatch_keeps_rest, IH.
Qed.

End SessionKeepsPins.

Lemma dist_sq (p q : Vector2) : dist p q * dist p q = distSq p q.
Proof. unfold dist. rewrite mag_sq. unfold distSq. reflexivity. Qed.

Lemma dist_nonneg (p q : Vector2) : 0 <= dist p q.
Proof. apply mag_nonneg. Qed.

Lemma dist_sqrt (p q : Vector2) : dist p q = sqrt (distSq p q).
Proof. reflexivity. Qed.

Lemma dist_lt_sq (p q : Vector2) (r : R) :
  dist p q < r → distSq p q < r * r.
Proof.
  intros H. pose proof (dist_nonneg p q). rewrite <- dist_sq. nra.
Qed.

Lemma dist_self (p : Vector2) : dist p p = 0.
Proof.
  unfold dist. apply mag_zero_iff. cbn [x y sub]. split; ring.
Qed.

Lemma togglePin_miss (p : Vector2) (bs : list Ball) :
  Forall (λ b, ¬ inPinReach p b) bs → togglePin p bs = (bs, false).
Proof.
  induction 1 as [|b bs Hb _ IH]; [reflexivity|].
  cbn [togglePin]. destruct (decide _) as [H|_]; [contradiction|].
  rewrite IH. reflexivity.
Qed.

(** [togglePin] flips the first body in reach and no other. *)
Lemma togglePin_first (p : Vector2) (bs : list Ball) (k : nat) (ball : Ball) :
  bs !! k = Some ball → inPinReach p ball →
  (∀ i b, (i < k)%nat → bs !! i = Some b → ¬ inPinReach p b) →
  togglePin p bs
  = (<[k := if isPinned ball then with_isPinned ball false
            else with_vel (with_isPinned ball true) {| x := 0; y := 0 |}]> bs,
     true).
Proof.
  revert k. induction bs as [|a bs IH]; intros k Hk Hin Hfirst;
    [rewrite lookup_nil in Hk; discriminate|].
  destruct k as [|k].
  - cbn in Hk. injection Hk as ->. cbn [togglePin].
    destruct (decide _) as [_|N]; [|contradiction].
    cbn [isPinned with_isPinned]. destruct (isPinned ball); reflexivity.
  - cbn in Hk. cbn [togglePin].
    destruct (decide _) as [H|_];
      [exfalso; apply (Hfirst 0%nat a); [lia|reflexivity|exact H]|].
    rewrite (IH k Hk Hin).
    + reflexivity.
    + intros i b Hi Hb. apply (Hfirst (S i) b); [lia|exact Hb].
Qed.

Lemma togglePin_first_at_rest (p : Vector2) (bs : list Ball) (k : nat)
  (ball : Ball) :
  pinnedAtRest bs →
  bs !! k = Some ball → inPinReach p ball →
  (∀ i b, (i < k)%nat → bs !! i = Some b → ¬ inPinReach p b) →
  togglePin p bs
  = (<[k := with_vel (with_isPinned ball (negb (isPinned ball)))
               {| x := 0; y := 0 |}]> bs, true).
Proof.
  intros Hrest Hk Hin Hfirst.
  rewrite (togglePin_first p bs k ball Hk Hin Hfirst).
  unfold pinnedAtRest in Hrest.
  pose proof (Forall_lookup_1 _ _ _ _ Hrest Hk) as Hv. cbn beta in Hv.
  destruct (isPinned ball); [|reflexivity].
  do 2 f_equal. apply Ball_eq; try reflexivity.
  cbn [vel with_vel with_isPinned]. apply Hv. reflexivity.
Qed.

Lemma handleContextMenu_toggles (env : Env) (e : PointerEvent) (st : State)
  (rect : Vector2) :
  isGodMode (config env) = true → canvasRect env = Some rect →
  balls (handleContextMenu env e st)
  = (togglePin (eventPos rect e) (balls st)).1.
Proof.
  intros Hg Hr. unfold handleContextMenu. rewrite Hg, Hr. reflexivity.
Qed.

Lemma longPressFire_toggles (st : State) :
  longPressTimer st = true →
  balls (longPressFire st) = (togglePin (mousePos st) (balls st)).1.
Proof.
  intros Ht. unfold longPressFire. rewrite Ht.
  destruct (togglePin (mousePos st) (balls st)) as [bs []]; reflexivity.
Qed.

(** C4: in every state the component reaches, [togglePin] flips the pin
    flag of the first body within reach of the point and sets its velocity
    to zero, keeping everything else of it and every other body: a body
    that gets pinned is stopped at once, and a body that gets unpinned has
    velocity zero, because every pinned body is at rest; with no body in
    reach nothing changes.  The context-menu click in god mode and the
    long-press timeout are that [togglePin].  Every event other than a pin
    toggle and the restart leaves the pinned bodies with their position and
    velocity: the physics frame (integration, ball-ball and wall
    collisions, respawn) and the drag move keep the pinned bodies as they
    are; the restart replaces all bodies by unpinned ones.  While paused a
    frame changes no body, so an unpinned body keeps velocity zero until
    integration resumes. *)
Theorem pinned_bodies_stay_put
  (random : nat → R) (env : Env) (ev : Event) (e : PointerEvent)
  (p : Vector2) (st : State) :
  reachable random st →
  Forall2 pinStep (balls st) (togglePin p (balls st)).1
  ∧ Forall2 (λ b b', isPinned b = true → vel b' = {| x := 0; y := 0 |})
      (balls st) (togglePin p (balls st)).1
  ∧ (∀ k ball,
       balls st !! k = Some ball → inPinReach p ball →
       (∀ i b, (i < k)%nat → balls st !! i = Some b → ¬ inPinReach p b) →
       togglePin p (balls st)
       = (<[k := with_vel (with_isPinned ball (negb (isPinned ball)))
                    {| x := 0; y := 0 |}]> (balls st), true))
  ∧ (Forall (λ b, ¬ inPinReach p b) (balls st) →
     togglePin p (balls st) = (balls st, false))
  ∧ (∀ rect, isGodMode (config env) = true → canvasRect env = Some rect →
       balls (dispatch random env (ContextMenu e) st)
       = (togglePin (eventPos rect e) (balls st)).1)
  ∧ (longPressTimer st = true →
     balls (dispatch random env LongPress st)
     = (togglePin (mousePos st) (balls st)).1)
  ∧ (keepsPins ev →
     pinnedBodies (dispatch random env ev st) = pinnedBodies st)
  ∧ List.filter isPinned (balls (update random env st))
    = List.filter isPinned (balls st)
  ∧ List.filter isPinned (balls (handlePointerMove env e st))
    = List.filter isPinned (balls st)
  ∧ (paused env = true → balls (update random env st) = balls st)
  ∧ List.filter isPinned (balls (dispatch random env Restart st)) = []
  ∧ reachable random (dispatch random env ev st).
Proof.
  intros Hreach.
  pose proof (reachable_at_rest random st Hreach) as Hrest.
  split; [apply togglePin_pinStep|]. split.
  { pose proof (togglePin_pinStep p (balls st)) as Hs.
    unfold pinnedAtRest in Hrest. revert Hrest.
    induction Hs as [|b b' bs bs' Hb _ IH]; intros Hrest; [constructor|].
    inversion Hrest; subst. constructor; [|apply IH; assumption].
    apply (pinStep_rest b b'); assumption. }
  split; [intros k ball; apply togglePin_first_at_rest; exact Hrest|].
  split; [apply togglePin_miss|].
  split; [intros rect; apply handleContextMenu_toggles|].
  split; [apply longPressFire_toggles|].
  split; [apply dispatch_keeps_pinned|].
  split; [apply update_keeps_pins|].
  split; [apply handlePointerMove_keeps_pins|].
  split; [apply update_paused|].
  split; [apply initBalls_unpinned|].
  constructor. exact Hreach.
Qed.

Lemma pinnedSession_reachable : reachable halfRandom pinnedSession.
Proof. unfold pinnedSession. repeat constructor. Qed.

Lemma twoBallSession_reachable : reachable quarterRandom twoBallSession.
Proof. unfold twoBallSession. repeat constructor. Qed.

(** [twoBallSession] holds the pinned body at rest and a moving one. *)
Lemma twoBallSession_view :
  map (λ b, (pos b, vel b, radius b, isPinned b)) (balls twoBallSession)
  = [({| x := 10; y := 10 |}, {| x := 0; y := 0 |}, 6.5, true);
     ({| x := 200; y := 200 |}, {| x := -3.75; y := -3.75 |}, 6.5, false)].
Proof.
  unfold twoBallSession, dispatch, handleDoubleClick, handleContextMenu.
  cbn [canvasRect godEnv config randomSpawn isGodMode negb balls initialState
       with_balls with_randomDraws app togglePin].
  destruct (decide _) as [_|N].
  - cbn [fst app map pos vel radius isPinned with_vel with_isPinned negb
         eventPos clientX clientY mainPress farPress x y ballSize].
    unfold quarterRandom, eventPos.
    cbn [clientX clientY mainPress farPress x y].
    replace (10 - 0) with 10 by lra. replace (200 - 0) with 200 by lra.
    replace (6 + 0.25 * 2) with 6.5 by lra.
    replace ((0.25 - 0.5) * 15) with (-3.75) by lra. reflexivity.
  - exfalso. apply N. unfold dist.
    replace (sub _ _) with {| x := 0; y := 0 |}
      by (apply Vector2_eq; simpl; lra).
    rewrite mag_axis_x by lra. unfold quarterRandom. simpl. lra.
Qed.

Lemma pinned_bodies_stay_put_witness :
  ∃ resting moving,
    balls twoBallSession = [resting; moving]
    ∧ isPinned resting = true
    ∧ vel moving = {| x := -3.75; y := -3.75 |} ∧ isPinned moving = false
    ∧ togglePin {| x := 200; y := 200 |} (balls twoBallSession)
      = ([resting;
          with_vel (with_isPinned moving true) {| x := 0; y := 0 |}], true)
    ∧ pinnedBodies (dispatch quarterRandom godEnv (PointerMove mainPress)
                      twoBallSession)
      = pinnedBodies twoBallSession
    ∧ balls (update quarterRandom godEnv twoBallSession)
      = balls twoBallSession.
Proof.
  pose proof twoBallSession_view as Hview.
  destruct (pinned_bodies_stay_put quarterRandom godEnv (PointerMove mainPress)
              mainPress {| x := 200; y := 200 |} twoBallSession
              twoBallSession_reachable)
    as (_ & _ & Hpin & _ & _ & _ & Hk & _ & _ & Hp & _).
  destruct (balls twoBallSession) as [|resting [|moving [|]]];
    try discriminate Hview.
  cbn [map] in Hview.
  injection Hview as Hp1 Hv1 Hr1 Hf1 Hp2 Hv2 Hr2 Hf2.
  exists resting, moving.
  split; [reflexivity|]. split; [exact Hf1|]. split; [exact Hv2|].
  split; [exact Hf2|]. split; [|split; [apply Hk; exact I|apply Hp; reflexivity]].
  rewrite (Hpin 1%nat moving eq_refl).
  - rewrite Hf2. reflexivity.
  - unfold inPinReach. rewrite Hp2, Hr2, dist_self. lra.
  - intros i b Hi Hb. assert (i = 0)%nat as -> by lia.
    cbn in Hb. injection Hb as <-. unfold inPinReach.
    rewrite Hp1, Hr1. intros H. apply dist_lt_sq in H.
    unfold distSq in H. cbn [x y] in H. lra.
Defined.

(** [pinnedSession] does hold one pinned body, at rest where it was
    spawned. *)
Lemma pinnedSession_pinned :
  map (λ b, (pos b, vel b, isPinned b)) (balls pinnedSession)
  = [({| x := 10; y := 10 |}, {| x := 0; y := 0 |}, true)].
Proof.
  unfold pinnedSession, dispatch, handleDoubleClick, handleContextMenu.
  cbn [canvasRect godEnv config randomSpawn isGodMode negb balls initialState
       with_balls with_randomDraws app togglePin].
  destruct (decide _) as [_|N].
  - cbn [fst map pos vel isPinned with_vel with_isPinned negb eventPos
         clientX clientY mainPress x y].
    do 3 f_equal. apply Vector2_eq; simpl; lra.
  - exfalso. apply N. unfold dist.
    replace (sub _ _) with {| x := 0; y := 0 |}
      by (apply Vector2_eq; simpl; lra).
    rewrite mag_axis_x by lra. unfold halfRandom. simpl. lra.
Qed.

(** * Further properties of the engine *)

(** ** utils/math.ts *)

(** X1: [rotatePoint] keeps the distance to the centre, rotations about one
    centre compose by adding their angles, the angle 0 moves nothing, and
    rotating back by the opposite angle returns the point. *)
Theorem rotatePoint_isometry_compose (p c : Vector2) (a b : R) :
  dist (rotatePoint p c a) c = dist p c
  ∧ rotatePoint (rotatePoint p c a) c b = rotatePoint p c (a + b)
  ∧ rotatePoint p c 0 = p
  ∧ rotatePoint (rotatePoint p c a) c (- a) = p.
Proof.
  assert (Hcomp : ∀ u v, rotatePoint (rotatePoint p c u) c v
                         = rotatePoint p c (u + v)).
  { intros u v. unfold rotatePoint. cbn [x y].
    rewrite cos_plus, sin_plus. apply Vector2_eq; cbn [x y]; ring. }
  assert (Hzero : rotatePoint p c 0 = p).
  { unfold rotatePoint. rewrite cos_0, sin_0.
    apply Vector2_eq; cbn [x y]; ring. }
  split; [|split; [apply Hcomp|split; [exact Hzero|]]].
  - unfold dist, mag, rotatePoint. f_equal. cbn [x y sub].
    pose proof (sin2_cos2 a) as H. unfold Rsqr in H.
    transitivity (((x p - x c) * (x p - x c) + (y p - y c) * (y p - y c))
                  * (sin a * sin a + cos a * cos a)); [ring|].
    rewrite H. ring.
  - rewrite Hcomp. replace (a + - a) with 0 by ring. exact Hzero.
Qed.

(** X2: the distance that [distToSegment] returns is the least distance
    from [p] to a point of the segment: no point [a + s (b - a)] with [s]
    between 0 and 1 is closer to [p]. *)
Theorem distToSegment_is_minimum (p a b : Vector2) (s : R) :
  0 <= s <= 1 →
  sh_dist (distToSegment p a b) <= dist p (add a (mult (sub b a) s)).
Proof.
  intros Hs. unfold distToSegment.
  destruct (decide (dot (sub b a) (sub b a) = 0)) as [E|N]; cbn [sh_dist].
  - apply dot_self_zero in E. destruct E as [Ex Ey]. cbn [x y sub] in Ex, Ey.
    right. unfold dist. f_equal. apply Vector2_eq; cbn [x y sub add mult].
    + rewrite Ex. ring.
    + rewrite Ey. ring.
  - set (L := dot (sub b a) (sub b a)) in *.
    set (q := dot (sub p a) (sub b a) / L).
    assert (HL : 0 < L).
    { unfold L, dot in *. pose proof (sumsq_nonneg (x (sub b a)) (y (sub b a))).
      lra. }
    assert (Hq : q * L = dot (sub p a) (sub b a)) by (unfold q; field; lra).
    set (t := Rmax 0 (Rmin 1 q)).
    assert (Ht : (t = q ∧ 0 <= q <= 1) ∨ (t = 0 ∧ q <= 0) ∨ (t = 1 ∧ 1 <= q)).
    { unfold t, Rmax, Rmin.
      destruct (Rle_dec 1 q); destruct (Rle_dec 0 _); lra. }
    rewrite !dist_sqrt. apply sqrt_le_1_alt.
    unfold distSq. cbn [x y sub add mult]. cbv zeta.
    unfold L, dot in *. cbn [x y sub] in *.
    set (ux := x b - x a) in *. set (uy := y b - y a) in *.
    set (wx := x p - x a) in *. set (wy := y p - y a) in *.
    replace (x p) with (x a + wx) by (unfold wx; ring).
    replace (y p) with (y a + wy) by (unfold wy; ring).
    clearbody t q ux uy wx wy.
    assert (Hd : (x a + wx - (x a + ux * s)) * (x a + wx - (x a + ux * s))
                 + (y a + wy - (y a + uy * s)) * (y a + wy - (y a + uy * s))
                 - ((x a + wx - (x a + ux * t)) * (x a + wx - (x a + ux * t))
                    + (y a + wy - (y a + uy * t)) * (y a + wy - (y a + uy * t)))
                 = (ux * ux + uy * uy) * (s - t) * (s + t - 2 * q)).
    { transitivity ((ux * ux + uy * uy) * (s * s - t * t)
                    - 2 * (wx * ux + wy * uy) * (s - t)); [ring|].
      rewrite <- Hq. ring. }
    assert (Hp : 0 <= (ux * ux + uy * uy) * (s - t) * (s + t - 2 * q)).
    { pose proof (sumsq_nonneg ux uy) as Hu.
      destruct Ht as [[Et Hr]|[[Et Hr]|[Et Hr]]]; rewrite Et.
      - replace ((ux * ux + uy * uy) * (s - q) * (s + q - 2 * q))
          with ((ux * ux + uy * uy) * ((s - q) * (s - q))) by ring.
        apply Rmult_le_pos; [exact Hu|]. apply (Rle_0_sqr (s - q)).
      - replace ((ux * ux + uy * uy) * (s - 0) * (s + 0 - 2 * q))
          with ((ux * ux + uy * uy) * (s * (s - 2 * q))) by ring.
        apply Rmult_le_pos; [exact Hu|]. apply Rmult_le_pos; lra.
      - replace ((ux * ux + uy * uy) * (s - 1) * (s + 1 - 2 * q))
          with ((ux * ux + uy * uy) * ((1 - s) * (2 * q - 1 - s))) by ring.
        apply Rmult_le_pos; [exact Hu|]. apply Rmult_le_pos; lra. }
    lra.
Qed.

Lemma distToSegment_is_minimum_witness :
  sh_dist (distToSegment (pos floorBall) floorLeft floorRight)
  <= dist (pos floorBall)
       (add floorLeft (mult (sub floorRight floorLeft) (1 / 4))).
Proof.
  apply (distToSegment_is_minimum (pos floorBall) floorLeft floorRight (1 / 4)).
  lra.
Defined.

(** X3: for radii whose sum is not negative, the squared test of the
    ball-ball pass is the distance test: two balls overlap exactly when
    their centres are closer than the sum of the radii; and the test is
    symmetric in the two balls. *)
Theorem overlap_test_is_distance_test (ball other : Ball) :
  0 <= radius ball + radius other →
  (overlapping ball other
   ↔ dist (pos ball) (pos other) < radius ball + radius other)
  ∧ (overlapping ball other ↔ overlapping other ball).
Proof.
  intros Hr. split.
  - unfold overlapping. rewrite <- dist_sq.
    pose proof (dist_nonneg (pos ball) (pos other)) as Hd.
    split; intros H; nra.
  - unfold overlapping, distSq. cbv zeta.
    replace ((x (pos other) - x (pos ball)) * (x (pos other) - x (pos ball))
             + (y (pos other) - y (pos ball)) * (y (pos other) - y (pos ball)))
      with ((x (pos ball) - x (pos other)) * (x (pos ball) - x (pos other))
            + (y (pos ball) - y (pos other)) * (y (pos ball) - y (pos other)))
      by ring.
    replace ((radius other + radius ball) * (radius other + radius ball))
      with ((radius ball + radius other) * (radius ball + radius other))
      by ring.
    reflexivity.
Qed.

Lemma overlap_test_is_distance_test_witness :
  (overlapping leftBall rightBall
   ↔ dist (pos leftBall) (pos rightBall) < radius leftBall + radius rightBall)
  ∧ (overlapping leftBall rightBall ↔ overlapping rightBall leftBall).
Proof.
  apply (overlap_test_is_distance_test leftBall rightBall).
  cbn [radius leftBall rightBall sampleBall]. lra.
Defined.

(** ** Collision resolution *)

Lemma mag_eq_of_sq (v w : Vector2) (k : R) :
  0 <= k →
  x v * x v + y v * y v = k * k * (x w * x w + y w * y w) →
  mag v = k * mag w.
Proof.
  intros Hk H. unfold mag at 1. rewrite H.
  rewrite sqrt_mult_alt by nra. rewrite sqrt_square by exact Hk. reflexivity.
Qed.

(** Reflection about a unit normal, then scaling by [e]. *)
Lemma reflect_mag (v n : Vector2) (e : R) :
  dot n n = 1 →
  mag (mult (sub v (mult n (2 * dot v n))) e) = Rabs e * mag v.
Proof.
  intros Hn. apply mag_eq_of_sq; [apply Rabs_pos|].
  replace (Rabs e * Rabs e) with (e * e)
    by (rewrite <- Rabs_mult; symmetry; apply Rabs_right; nra).
  unfold dot in *. cbn [x y sub mult].
  set (d := x v * x n + y v * y n). 
  transitivity (e * e * (x v * x v + y v * y v
                         - 4 * d * d + 4 * d * d * (x n * x n + y n * y n)));
    [unfold d; ring|].
  rewrite Hn. ring.
Qed.

Lemma reflect_normal (v n : Vector2) (e : R) :
  dot n n = 1 →
  dot (mult (sub v (mult n (2 * dot v n))) e) n = - e * dot v n.
Proof.
  intros Hn. unfold dot in *. cbn [x y sub mult].
  set (d := x v * x n + y v * y n).
  transitivity (e * (d - 2 * d * (x n * x n + y n * y n)));
    [unfold d; ring|].
  rewrite Hn. ring.
Qed.

Lemma contactNormal_unit (ball other : Ball) :
  pos ball ≠ pos other →
  dot (contactNormal ball other) (contactNormal ball other) = 1.
Proof.
  intros Hne.
  pose proof (distSq_pos_distinct _ _ Hne) as Hpos.
  pose proof (sqrt_lt_R0 _ Hpos) as HD.
  pose proof (sqrt_sqrt _ (Rlt_le _ _ Hpos)) as HDD.
  unfold contactNormal, dot. cbn [x y sub mult].
  set (D := sqrt (distSq (pos ball) (pos other))) in *.
  unfold distSq in HDD. cbv zeta in HDD. clearbody D.
  transitivity (((x (pos ball) - x (pos other)) * (x (pos ball) - x (pos other))
                 + (y (pos ball) - y (pos other)) * (y (pos ball) - y (pos other)))
                / (D * D)); [field; lra|].
  rewrite <- HDD. field. lra.
Qed.

(** After the half-and-half push of a dynamic pair the two centres are
    the sum of the radii apart. *)
Lemma pushed_apart_distance (ball other : Ball) :
  pos ball ≠ pos other →
  let overlap :=
    radius ball + radius other - sqrt (distSq (pos ball) (pos other)) in
  let push := mult (contactNormal ball other) (overlap * 0.5) in
  distSq (add (pos ball) push) (sub (pos other) push)
  = (radius ball + radius other) * (radius ball + radius other).
Proof.
  intros Hne overlap push. unfold push, overlap. clear push overlap.
  pose proof (distSq_pos_distinct _ _ Hne) as Hpos.
  pose proof (sqrt_lt_R0 _ Hpos) as HD.
  pose proof (sqrt_sqrt _ (Rlt_le _ _ Hpos)) as HDD.
  unfold contactNormal.
  set (D := sqrt (distSq (pos ball) (pos other))) in *.
  set (m := radius ball + radius other).
  unfold distSq in *. cbn [x y add sub mult]. cbv zeta in HDD. cbv zeta.
  clearbody D m.
  match goal with |- ?l = _ =>
    replace l with
      (((x (pos ball) - x (pos other)) * (x (pos ball) - x (pos other))
        + (y (pos ball) - y (pos other)) * (y (pos ball) - y (pos other)))
       * (m / D) * (m / D)) by (decimals; field; lra)
  end.
  rewrite <- HDD. field. lra.
Qed.

Lemma collidePair_separates (el : R) (ball other : Ball) (count : Z) :
  pos ball ≠ pos other →
  ¬ overlapping (collidePair el ball other count).1.1
                (collidePair el ball other count).1.2.
Proof.
  intros Hne.
  destruct (Rlt_dec (distSq (pos ball) (pos other))
              ((radius ball + radius other) * (radius ball + radius other)))
    as [Ho|Ho]; [|rewrite collidePair_apart by exact Ho; exact Ho].
  change (overlapping ball other) in Ho.
  destruct (isPinned other) eqn:Hp.
  - rewrite collidePair_pinned by assumption. cbv zeta.
    pose proof (pushed_out_distance ball other Hne) as Hd. cbv zeta in Hd.
    destruct (decide _); unfold overlapping;
      cbn [fst snd pos radius with_pos with_vel]; rewrite Hd; lra.
  - rewrite collidePair_dynamic by assumption. cbv zeta.
    pose proof (pushed_apart_distance ball other Hne) as Hd. cbv zeta in Hd.
    destruct (decide _); unfold overlapping;
      cbn [fst snd pos radius with_pos with_vel]; rewrite Hd; lra.
Qed.

(** X4: whenever the two centres differ, [collidePair] leaves the pair
    not overlapping, so resolving the pair it returns once more changes
    nothing: positions, velocities and the collision counter stay. *)
Theorem collidePair_separates_and_settles
  (el : R) (ball other : Ball) (count : Z) :
  pos ball ≠ pos other →
  let r := collidePair el ball other count in
  ¬ overlapping r.1.1 r.1.2
  ∧ collidePair el r.1.1 r.1.2 r.2 = r.
Proof.
  intros Hne r.
  pose proof (collidePair_separates el ball other count Hne) as Hs.
  split; [exact Hs|]. unfold r.
  rewrite collidePair_apart by exact Hs.
  destruct (collidePair el ball other count) as [[b' o'] c']. reflexivity.
Qed.

Lemma collidePair_separates_and_settles_witness :
  let r := collidePair 1 leftBall rightBall 0 in
  ¬ overlapping r.1.1 r.1.2
  ∧ collidePair 1 r.1.1 r.1.2 r.2 = r.
Proof.
  apply (collidePair_separates_and_settles 1 leftBall rightBall 0).
  apply leftBall_rightBall_distinct.
Defined.

(** X5: a dynamic collision (overlap, unpinned partner, distinct centres)
    keeps the midpoint of the two centres, and it keeps the sum of the two
    velocities when the balls separate and scales that sum by 0.99 when
    they approach; radii and pin flags stay.  With coincident centres the
    contact normal is a division by zero, and nothing is stated. *)
Theorem dynamic_collision_keeps_midpoint_and_momentum
  (el : R) (ball other : Ball) (count : Z) :
  overlapping ball other → isPinned other = false →
  pos ball ≠ pos other →
  let r := collidePair el ball other count in
  let sepVel := dot (sub (vel ball) (vel other)) (contactNormal ball other) in
  add (pos r.1.1) (pos r.1.2) = add (pos ball) (pos other)
  ∧ add (vel r.1.1) (vel r.1.2)
    = mult (add (vel ball) (vel other))
        (if decide (sepVel < 0) then 0.99 else 1)
  ∧ radius r.1.1 = radius ball ∧ radius r.1.2 = radius other
  ∧ isPinned r.1.1 = isPinned ball ∧ isPinned r.1.2 = isPinned other.
Proof.
  intros Ho Hp _ r sepVel. unfold r, sepVel.
  rewrite collidePair_dynamic by assumption. cbv zeta.
  destruct (decide _); cbn [fst snd pos vel radius isPinned with_pos with_vel];
    (split; [apply Vector2_eq; cbn [x y add sub mult]; ring|]);
    (split; [apply Vector2_eq; cbn [x y add sub mult]; ring|]);
    repeat split.
Qed.

Lemma dynamic_collision_keeps_midpoint_and_momentum_witness :
  let r := collidePair 1 leftBall rightBall 0 in
  let sepVel :=
    dot (sub (vel leftBall) (vel rightBall))
        (contactNormal leftBall rightBall) in
  add (pos r.1.1) (pos r.1.2) = add (pos leftBall) (pos rightBall)
  ∧ add (vel r.1.1) (vel r.1.2)
    = mult (add (vel leftBall) (vel rightBall))
        (if decide (sepVel < 0) then 0.99 else 1)
  ∧ radius r.1.1 = radius leftBall ∧ radius r.1.2 = radius rightBall
  ∧ isPinned r.1.1 = isPinned leftBall ∧ isPinned r.1.2 = isPinned rightBall.
Proof.
  apply (dynamic_collision_keeps_midpoint_and_momentum 1 leftBall rightBall 0).
  - apply leftBall_rightBall_overlapping.
  - reflexivity.
  - apply leftBall_rightBall_distinct.
Defined.

(** X6: a moving ball that approaches an overlapping pinned ball with a
    different centre bounces: the pinned ball is untouched, the component of
    the velocity along the contact normal is reversed and scaled by the
    elasticity, and the speed is the old speed times the absolute value of
    the elasticity. *)
Theorem pinned_bounce_reverses_normal_velocity
  (el : R) (ball other : Ball) (count : Z) :
  overlapping ball other → isPinned other = true → pos ball ≠ pos other →
  dot (vel ball) (contactNormal ball other) < 0 →
  let r := collidePair el ball other count in
  r.1.2 = other
  ∧ dot (vel r.1.1) (contactNormal ball other)
    = - el * dot (vel ball) (contactNormal ball other)
  ∧ mag (vel r.1.1) = Rabs el * mag (vel ball).
Proof.
  intros Ho Hp Hne Hv r. unfold r.
  rewrite collidePair_pinned by assumption. cbv zeta.
  destruct (decide _) as [_|N]; [|contradiction].
  cbn [fst snd vel with_vel with_pos].
  pose proof (contactNormal_unit ball other Hne) as Hn.
  split; [reflexivity|]. split.
  - apply reflect_normal, Hn.
  - apply reflect_mag, Hn.
Qed.

Lemma leftBall_pinnedBall_approach :
  dot (vel leftBall) (contactNormal leftBall pinnedBall) < 0.
Proof.
  change (contactNormal leftBall pinnedBall)
    with (contactNormal leftBall rightBall).
  rewrite leftBall_rightBall_normal. numbers.
Qed.

Lemma pinned_bounce_reverses_normal_velocity_witness :
  let r := collidePair 1 leftBall pinnedBall 0 in
  r.1.2 = pinnedBall
  ∧ dot (vel r.1.1) (contactNormal leftBall pinnedBall)
    = - 1 * dot (vel leftBall) (contactNormal leftBall pinnedBall)
  ∧ mag (vel r.1.1) = Rabs 1 * mag (vel leftBall).
Proof.
  apply (pinned_bounce_reverses_normal_velocity 1 leftBall pinnedBall 0).
  - apply leftBall_rightBall_overlapping.
  - reflexivity.
  - apply leftBall_rightBall_distinct.
  - apply leftBall_pinnedBall_approach.
Defined.

(** ** Wall hits *)

Lemma dot_self_mag (v : Vector2) : dot v v = mag v * mag v.
Proof. rewrite mag_sq. reflexivity. Qed.

Lemma mag_sub_comm (p q : Vector2) : mag (sub p q) = mag (sub q p).
Proof. unfold mag. f_equal. cbn [x y sub]. ring. Qed.

Lemma dot_neg_self (v : Vector2) : dot (mult v (-1)) (mult v (-1)) = dot v v.
Proof. unfold dot. cbn [x y mult]. ring. Qed.

Lemma normalize_dot_unit (v : Vector2) :
  mag v ≠ 0 → dot (normalize v) (normalize v) = 1.
Proof.
  intros H. rewrite dot_self_mag, normalize_unit by exact H. ring.
Qed.

Lemma normalize_zero (v : Vector2) :
  mag v = 0 → normalize v = {| x := 0; y := 0 |}.
Proof.
  intros H. unfold normalize. destruct (decide _); [reflexivity|contradiction].
Qed.

(** A ball that moves against the circle normal is not at the centre, and
    the normal is a unit vector. *)
Lemma circleHit_off_centre (env : Env) (rot : R) (layer : nat) (acc : WallAcc) :
  circleHit env rot layer acc →
  mag (sub (pos (wa_ball acc)) (center env)) ≠ 0
  ∧ dot (circleNormal env layer (wa_ball acc))
        (circleNormal env layer (wa_ball acc)) = 1.
Proof.
  intros (_ & _ & Hv).
  assert (Hm : mag (sub (center env) (pos (wa_ball acc))) ≠ 0).
  { intros E. unfold circleNormal in Hv. rewrite (normalize_zero _ E) in Hv.
    destruct (decide _); unfold dot in Hv; cbn [x y mult] in Hv; lra. }
  split; [rewrite mag_sub_comm; exact Hm|].
  unfold circleNormal. destruct (decide _).
  - rewrite dot_neg_self. apply normalize_dot_unit, Hm.
  - apply normalize_dot_unit, Hm.
Qed.

Lemma circleLayer_hit (env : Env) (rot : R) (layer : nat) (acc : WallAcc) :
  circleHit env rot layer acc →
  let ball := wa_ball acc in
  let n := circleNormal env layer ball in
  let distToEdge :=
    Rabs (mag (sub (pos ball) (center env)) - layerRadiusOf env layer) in
  circleLayer env rot layer acc
  = {| wa_ball :=
         with_pos
           (with_vel ball
              (add (mult (sub (vel ball) (mult n (2 * dot (vel ball) n)))
                      (currentElasticity env))
                 (mult {| x := - y n; y := x n |}
                    (rotationSpeed (config env) * layerRadiusOf env layer
                     * 0.05))))
           (add (pos ball) (mult n (radius ball - distToEdge)));
       wa_gaps := breakWall (config env) (wallIdOf layer 0) (wa_gaps acc);
       wa_count := recordWallCollision (config env) (wa_count acc) |}.
Proof.
  intros (Hg & Hd & Hv). cbv zeta. unfold circleLayer. rewrite Hg.
  destruct (decide _); [|contradiction].
  destruct (decide _); [reflexivity|contradiction].
Qed.

(** X7: a resolved hit on a circular wall reverses the velocity component
    along the wall normal and scales it by the elasticity; the spin that the
    rotating wall adds is tangential, [rotationSpeed * layerRadius * 0.05],
    and with a wall at rest the speed after the hit is the speed before
    times the absolute value of the elasticity. *)
Theorem circle_hit_reverses_normal_velocity
  (env : Env) (rot : R) (layer : nat) (acc : WallAcc) :
  circleHit env rot layer acc →
  let ball := wa_ball acc in
  let n := circleNormal env layer ball in
  let ball' := wa_ball (circleLayer env rot layer acc) in
  dot (vel ball') n = - currentElasticity env * dot (vel ball) n
  ∧ dot (vel ball') {| x := - y n; y := x n |}
    = currentElasticity env * dot (vel ball) {| x := - y n; y := x n |}
      + rotationSpeed (config env) * layerRadiusOf env layer * 0.05
  ∧ (rotationSpeed (config env) = 0 →
     mag (vel ball') = Rabs (currentElasticity env) * mag (vel ball)).
Proof.
  intros Hhit ball n ball'.
  pose proof (circleHit_off_centre env rot layer acc Hhit) as [_ Hn].
  fold ball in Hn. fold n in Hn.
  unfold ball'. rewrite circleLayer_hit by exact Hhit. cbv zeta.
  fold ball. fold n. cbn [wa_ball vel with_pos with_vel].
  set (el := currentElasticity env).
  set (spin := rotationSpeed (config env) * layerRadiusOf env layer * 0.05).
  split; [|split].
  - pose proof (reflect_normal (vel ball) n el Hn) as Hr.
    unfold dot in *. cbn [x y add sub mult] in *. clearbody spin el. lra.
  - unfold dot in *. cbn [x y add sub mult] in *.
    set (d := x (vel ball) * x n + y (vel ball) * y n).
    transitivity (el * (x (vel ball) * - y n + y (vel ball) * x n)
                  + spin * (x n * x n + y n * y n)); [ring|].
    rewrite Hn. ring.
  - intros Hrs. unfold spin. rewrite Hrs.
    replace (add (mult (sub (vel ball) (mult n (2 * dot (vel ball) n))) el)
               (mult {| x := - y n; y := x n |}
                  (0 * layerRadiusOf env layer * 0.05)))
      with (mult (sub (vel ball) (mult n (2 * dot (vel ball) n))) el)
      by (apply Vector2_eq; cbn [x y add sub mult]; ring).
    apply reflect_mag, Hn.
Qed.

Lemma circle_hit_reverses_normal_velocity_witness :
  let n := circleNormal sampleEnv 0 rimBall in
  let ball' := wa_ball (circleLayer sampleEnv 0 0 rimAcc) in
  dot (vel ball') n = - currentElasticity sampleEnv * dot (vel rimBall) n
  ∧ dot (vel ball') {| x := - y n; y := x n |}
    = currentElasticity sampleEnv * dot (vel rimBall) {| x := - y n; y := x n |}
      + rotationSpeed (config sampleEnv) * layerRadiusOf sampleEnv 0 * 0.05.
Proof.
  destruct (circle_hit_reverses_normal_velocity sampleEnv 0 0 rimAcc
              rimBall_hits) as (H1 & H2 & _).
  split; [exact H1|exact H2].
Defined.

(** X8: after a resolved hit on a circular wall that is at least as large
    as the ball, the ball is pushed back until it just touches the ring:
    its centre ends exactly one radius away from the wall. *)
Theorem circle_hit_leaves_ball_tangent
  (env : Env) (rot : R) (layer : nat) (acc : WallAcc) :
  circleHit env rot layer acc →
  radius (wa_ball acc) <= layerRadiusOf env layer →
  let ball' := wa_ball (circleLayer env rot layer acc) in
  Rabs (mag (sub (pos ball') (center env)) - layerRadiusOf env layer)
  = radius (wa_ball acc).
Proof.
  intros Hhit Hsmall ball'.
  pose proof (circleHit_off_centre env rot layer acc Hhit) as [Hm _].
  pose proof Hhit as (_ & Hd & _).
  unfold ball'. rewrite circleLayer_hit by exact Hhit. cbv zeta.
  cbn [wa_ball pos with_pos with_vel].
  set (ball := wa_ball acc) in *. set (c := center env) in *.
  set (Rw := layerRadiusOf env layer) in *.
  set (w := sub (pos ball) c) in *.
  pose proof (mag_nonneg w) as Hw.
  set (dC := mag w) in *.
  assert (HdC : 0 < dC) by lra.
  unfold circleNormal. fold c. fold w. fold dC. fold Rw.
  assert (Hnz : mag (sub c (pos ball)) ≠ 0)
    by (rewrite mag_sub_comm; fold w; fold dC; lra).
  rewrite (normalize_scale _ Hnz). rewrite (mag_sub_comm c (pos ball)).
  fold w. fold dC.
  destruct (decide (dC > Rw)) as [Hout|Hin].
  - assert (Eabs : Rabs (dC - Rw) = dC - Rw) by (apply Rabs_right; lra).
    rewrite Eabs in *.
    replace (sub (add (pos ball)
                    (mult (mult (mult (sub c (pos ball)) (/ dC)) (-1))
                       (radius ball - (dC - Rw)))) c)
      with (mult w (1 + (radius ball - (dC - Rw)) / dC))
      by (unfold w; apply Vector2_eq; cbn [x y add sub mult]; field; lra).
    rewrite mag_mult. fold dC.
    assert (Hk : 0 <= 1 + (radius ball - (dC - Rw)) / dC).
    { apply Rplus_le_le_0_compat; [lra|].
      apply Rmult_le_pos; [lra|]. left. apply Rinv_0_lt_compat, HdC. }
    rewrite (Rabs_right _ (Rle_ge _ _ Hk)).
    replace ((1 + (radius ball - (dC - Rw)) / dC) * dC - Rw)
      with (radius ball) by (field; lra).
    apply Rabs_right. lra.
  - assert (Eabs : Rabs (dC - Rw) = Rw - dC).
    { rewrite Rabs_left1 by lra. ring. }
    rewrite Eabs in *.
    replace (sub (add (pos ball)
                    (mult (mult (sub c (pos ball)) (/ dC))
                       (radius ball - (Rw - dC)))) c)
      with (mult w (1 - (radius ball - (Rw - dC)) / dC))
      by (unfold w; apply Vector2_eq; cbn [x y add sub mult]; field; lra).
    rewrite mag_mult. fold dC.
    assert (Hk : 0 <= 1 - (radius ball - (Rw - dC)) / dC).
    { replace (1 - (radius ball - (Rw - dC)) / dC)
        with ((Rw - radius ball) / dC) by (field; lra).
      apply Rmult_le_pos; [lra|]. left. apply Rinv_0_lt_compat, HdC. }
    rewrite (Rabs_right _ (Rle_ge _ _ Hk)).
    replace ((1 - (radius ball - (Rw - dC)) / dC) * dC - Rw)
      with (- radius ball) by (field; lra).
    rewrite Rabs_Ropp. apply Rabs_right. lra.
Qed.

Lemma circle_hit_leaves_ball_tangent_witness :
  Rabs (mag (sub (pos (wa_ball (circleLayer sampleEnv 0 0 rimAcc)))
               (center sampleEnv)) - layerRadiusOf sampleEnv 0)
  = radius (wa_ball rimAcc).
Proof.
  apply (circle_hit_leaves_ball_tangent sampleEnv 0 0 rimAcc).
  - apply rimBall_hits.
  - rewrite sampleEnv_layer0. cbn [radius wa_ball rimAcc rimBall sampleBall].
    lra.
Defined.

(** The vector from the closest point to [p] is the returned normal times
    the returned distance, on every segment of positive length. *)
Lemma distToSegment_offset (p a b : Vector2) :
  a ≠ b →
  sub p (sh_closest (distToSegment p a b))
  = mult (sh_normal (distToSegment p a b)) (sh_dist (distToSegment p a b)).
Proof.
  intros Hab. pose proof (segment_length_nonzero a b Hab) as N.
  unfold distToSegment.
  destruct (decide (dot (sub b a) (sub b a) = 0)); [contradiction|].
  cbn [sh_closest sh_normal sh_dist]. unfold dist.
  set (v := sub p _).
  destruct (decide (x (normalize v) = 0 ∧ y (normalize v) = 0)) as [Z|NZ].
  - apply normalize_zero_iff in Z. rewrite Z.
    apply mag_zero_iff in Z as [Zx Zy].
    apply Vector2_eq; cbn [x y mult]; lra.
  - assert (Hm : mag v ≠ 0) by (intros E; apply NZ, normalize_zero_iff, E).
    rewrite (normalize_scale _ Hm).
    apply Vector2_eq; cbn [x y mult]; field; exact Hm.
Qed.

Lemma polygonWall_hit (env : Env) (wallId : string) (p1 p2 : Vector2)
  (acc : WallAcc) :
  polygonHit (wa_ball acc) p1 p2 →
  let ball := wa_ball acc in
  let hit := distToSegment (pos ball) p1 p2 in
  let n := sh_normal hit in
  polygonWall env wallId p1 p2 acc
  = {| wa_ball :=
         with_pos
           (with_vel ball
              (add (mult (sub (vel ball) (mult n (2 * dot (vel ball) n)))
                      (currentElasticity env))
                 (mult (normalize (sub p2 p1))
                    (rotationSpeed (config env) * 40))))
           (add (pos ball) (mult n (radius ball - sh_dist hit)));
       wa_gaps := breakWall (config env) wallId (wa_gaps acc);
       wa_count := recordWallCollision (config env) (wa_count acc) |}.
Proof.
  intros [Hd Hv]. cbv zeta. unfold polygonWall.
  destruct (decide _); [|contradiction].
  destruct (decide _); [reflexivity|contradiction].
Qed.

Lemma pushed_to_radius (p a b : Vector2) (r : R) :
  a ≠ b → 0 <= r →
  let hit := distToSegment p a b in
  dist (add p (mult (sh_normal hit) (r - sh_dist hit))) (sh_closest hit) = r.
Proof.
  intros Hab Hr hit. unfold dist.
  pose proof (distToSegment_offset p a b Hab) as Ho. fold hit in Ho.
  replace (sub (add p (mult (sh_normal hit) (r - sh_dist hit)))
             (sh_closest hit))
    with (mult (sh_normal hit) r).
  - rewrite mag_mult. unfold hit. rewrite distToSegment_normal_unit.
    rewrite Rabs_right by lra. ring.
  - apply (f_equal x) in Ho as Hx. apply (f_equal y) in Ho as Hy.
    cbn [x y sub mult] in Hx, Hy.
    apply Vector2_eq; cbn [x y add sub mult]; lra.
Qed.

(** X9: a resolved hit on a polygon side of positive length pushes the ball
    out along the returned normal until its centre is exactly one radius
    from the contact point, and with a wall at rest the speed after the hit
    is the speed before times the absolute value of the elasticity. *)
Theorem polygon_hit_pushes_to_radius
  (env : Env) (wallId : string) (p1 p2 : Vector2) (acc : WallAcc) :
  polygonHit (wa_ball acc) p1 p2 → p1 ≠ p2 →
  let ball := wa_ball acc in
  let ball' := wa_ball (polygonWall env wallId p1 p2 acc) in
  dist (pos ball') (sh_closest (distToSegment (pos ball) p1 p2)) = radius ball
  ∧ (rotationSpeed (config env) = 0 →
     mag (vel ball') = Rabs (currentElasticity env) * mag (vel ball)).
Proof.
  intros Hhit Hne ball ball'. unfold ball'.
  rewrite polygonWall_hit by exact Hhit. cbv zeta.
  cbn [wa_ball pos vel with_pos with_vel]. fold ball.
  destruct Hhit as [Hd _]. fold ball in Hd.
  assert (Hr : 0 <= radius ball).
  { pose proof (mag_nonneg (sub (pos ball)
                  (sh_closest (distToSegment (pos ball) p1 p2)))) as H0.
    assert (0 <= sh_dist (distToSegment (pos ball) p1 p2)); [|lra].
    unfold distToSegment. destruct (decide _); cbn [sh_dist]; apply mag_nonneg. }
  split.
  - apply (pushed_to_radius (pos ball) p1 p2 (radius ball) Hne Hr).
  - intros Hrs. rewrite Hrs.
    match goal with |- mag (add ?u (mult ?t (0 * 40))) = _ =>
      replace (add u (mult t (0 * 40))) with u
        by (apply Vector2_eq; cbn [x y add mult]; ring)
    end.
    apply reflect_mag. rewrite dot_self_mag, distToSegment_normal_unit. ring.
Qed.

Lemma floor_distinct : floorLeft ≠ floorRight.
Proof. intros E. apply (f_equal x) in E. simpl in E. lra. Qed.

Lemma polygon_hit_pushes_to_radius_witness :
  dist (pos (wa_ball (polygonWall sampleEnv "0-0" floorLeft floorRight floorAcc)))
       (sh_closest (distToSegment (pos floorBall) floorLeft floorRight))
  = radius floorBall.
Proof.
  apply (polygon_hit_pushes_to_radius sampleEnv "0-0" floorLeft floorRight
           floorAcc floorBall_hits floor_distinct).
Defined.

(** X10: a ball that overlaps a polygon side of positive length while
    moving away from it is not bounced: its velocity, the gap set and the
    collision counter stay.  Only when it is deeper than half its radius is
    it moved, out to exactly one radius from the contact point. *)
Theorem polygon_overlap_moving_away_only_nudges
  (env : Env) (wallId : string) (p1 p2 : Vector2) (acc : WallAcc) :
  p1 ≠ p2 → 0 <= radius (wa_ball acc) →
  ¬ dot (vel (wa_ball acc))
        (sh_normal (distToSegment (pos (wa_ball acc)) p1 p2)) < 0 →
  let ball := wa_ball acc in
  let hit := distToSegment (pos ball) p1 p2 in
  let acc' := polygonWall env wallId p1 p2 acc in
  vel (wa_ball acc') = vel ball
  ∧ wa_gaps acc' = wa_gaps acc ∧ wa_count acc' = wa_count acc
  ∧ (sh_dist hit < radius ball * 0.5 →
     dist (pos (wa_ball acc')) (sh_closest hit) = radius ball)
  ∧ (¬ sh_dist hit < radius ball * 0.5 → acc' = acc).
Proof.
  intros Hne Hr Hv ball hit acc'. unfold acc', polygonWall.
  fold ball. fold hit.
  destruct (decide (sh_dist hit < radius ball)) as [Hd|Hd].
  - destruct (decide (dot (vel ball) (sh_normal hit) < 0)); [contradiction|].
    destruct (decide (sh_dist hit < radius ball * 0.5)) as [Hh|Hh].
    + cbn [wa_ball wa_gaps wa_count vel pos with_pos].
      repeat split; try reflexivity.
      * intros _. apply (pushed_to_radius (pos ball) p1 p2 (radius ball) Hne Hr).
      * intros Hn. contradiction.
    + repeat split; try reflexivity. intros Hn. contradiction.
  - repeat split; try reflexivity. intros Hh. exfalso. apply Hd.
    fold ball in Hr. lra.
Qed.

Lemma polygon_overlap_moving_away_only_nudges_witness :
  let acc :=
    {| wa_ball := with_vel floorBall {| x := 0; y := 1 |};
       wa_gaps := ∅; wa_count := 0 |} in
  let acc' := polygonWall sampleEnv "0-0" floorLeft floorRight acc in
  vel (wa_ball acc') = {| x := 0; y := 1 |}
  ∧ wa_gaps acc' = ∅ ∧ wa_count acc' = 0%Z.
Proof.
  destruct (polygon_overlap_moving_away_only_nudges sampleEnv "0-0"
              floorLeft floorRight
              {| wa_ball := with_vel floorBall {| x := 0; y := 1 |};
                 wa_gaps := ∅; wa_count := 0 |} floor_distinct)
    as (Hv & Hg & Hc & _).
  - cbn [wa_ball radius with_vel floorBall sampleBall]. lra.
  - change (pos (wa_ball {| wa_ball := with_vel floorBall {| x := 0; y := 1 |};
                            wa_gaps := ∅; wa_count := 0 |}))
      with (pos floorBall).
    rewrite floorBall_segment. unfold dot.
    cbn [wa_ball vel with_vel sh_normal x y]. lra.
  - split; [exact Hv|]. split; [exact Hg|exact Hc].
Defined.

(** X11: with destructible walls, a resolved hit on a side that is not a
    gap puts the side's id into the manual gap set, and from then on the
    side loop skips that side for every ball, as long as the id stays in
    the set. *)
Theorem struck_destructible_side_is_gone
  (env : Env) (vertices : list Vector2) (layer i : nat) (p1 p2 : Vector2)
  (acc : WallAcc) :
  isDestructible (config env) = true →
  isAutoGap env i = false → wallIdOf layer i ∉ wa_gaps acc →
  vertices !! i = Some p1 →
  vertices !! ((i + 1) mod sidesN env)%nat = Some p2 →
  polygonHit (wa_ball acc) p1 p2 →
  let acc' := polygonSide env vertices layer acc i in
  wallIdOf layer i ∈ wa_gaps acc'
  ∧ ∀ later : WallAcc,
      wallIdOf layer i ∈ wa_gaps later →
      polygonSide env vertices layer later i = later.
Proof.
  intros Hdes Hauto Hgap H1 H2 Hhit acc'. split.
  - unfold acc', polygonSide. rewrite Hauto, H1, H2.
    rewrite bool_decide_eq_false_2 by exact Hgap. cbn [orb].
    rewrite polygonWall_hit by exact Hhit. cbv zeta. cbn [wa_gaps].
    unfold breakWall. rewrite Hdes. set_solver.
  - intros later Hin. unfold polygonSide.
    rewrite bool_decide_eq_true_2 by exact Hin.
    rewrite orb_true_r. reflexivity.
Qed.

Lemma struck_destructible_side_is_gone_witness :
  let acc' := polygonSide destructEnv [floorLeft; floorRight] 0 floorAcc 0 in
  wallIdOf 0 0 ∈ wa_gaps acc'
  ∧ ∀ later : WallAcc,
      wallIdOf 0 0 ∈ wa_gaps later →
      polygonSide destructEnv [floorLeft; floorRight] 0 later 0 = later.
Proof.
  apply (struck_destructible_side_is_gone destructEnv [floorLeft; floorRight]
           0 0 floorLeft floorRight floorAcc).
  - reflexivity.
  - reflexivity.
  - cbn [wa_gaps floorAcc]. set_solver.
  - reflexivity.
  - reflexivity.
  - apply floorBall_hits.
Defined.

(** ** What a frame keeps *)

Lemma collidePair_count_mono (el : R) (ball other : Ball) (count : Z) :
  (count <= (collidePair el ball other count).2)%Z.
Proof.
  unfold collidePair. destruct (decide _); [|cbn; lia].
  destruct (isPinned other); destruct (decide _); cbn; lia.
Qed.

Lemma collidePair_keeps (el : R) (ball other : Ball) (count : Z) :
  let r := collidePair el ball other count in
  trail r.1.1 = trail ball ∧ trail r.1.2 = trail other
  ∧ radius r.1.1 = radius ball ∧ radius r.1.2 = radius other
  ∧ id r.1.1 = id ball ∧ id r.1.2 = id other.
Proof.
  unfold collidePair. destruct (decide _); [|cbn; auto 10].
  destruct (isPinned other); destruct (decide _); cbn; auto 10.
Qed.

Lemma ballBallIter_keeps (cfg : GameConfig) (el : R) (b j : nat)
  (acc : list Ball * Z) :
  let r := ballBallIter cfg el b acc j in
  (acc.2 <= r.2)%Z ∧ length r.1 = length acc.1
  ∧ (Forall trailBounded acc.1 → Forall trailBounded r.1).
Proof.
  unfold ballBallIter. destruct (decide (b = j)); [cbn; auto with lia|].
  destruct (acc.1 !! b) as [ball|] eqn:Hb; [|cbn; auto with lia].
  destruct (acc.1 !! j) as [other|] eqn:Hj; [|cbn; auto with lia].
  destruct (_ && _); [cbn; auto with lia|].
  pose proof (collidePair_count_mono el ball other acc.2) as Hc.
  pose proof (collidePair_keeps el ball other acc.2) as (T1 & T2 & _).
  destruct (collidePair el ball other acc.2) as [[ball' other'] count'].
  cbn [fst snd] in *. split; [exact Hc|]. split.
  - rewrite !length_insert. reflexivity.
  - intros HF. apply Forall_insert; [apply Forall_insert|].
    + exact HF.
    + unfold trailBounded. rewrite T1.
      apply (Forall_lookup_1 _ _ _ _ HF Hb).
    + unfold trailBounded. rewrite T2.
      apply (Forall_lookup_1 _ _ _ _ HF Hj).
Qed.

Lemma ballBallPass_keeps (cfg : GameConfig) (el : R) (step b : nat)
  (acc : list Ball * Z) :
  let r := ballBallPass cfg el step b acc in
  (acc.2 <= r.2)%Z ∧ length r.1 = length acc.1
  ∧ (Forall trailBounded acc.1 → Forall trailBounded r.1).
Proof.
  unfold ballBallPass.
  destruct (ballBallEnabled cfg acc.1 step); [|cbn; auto with lia].
  apply (foldl_invariant
           (λ r : list Ball * Z,
              (acc.2 <= r.2)%Z ∧ length r.1 = length acc.1
              ∧ (Forall trailBounded acc.1 → Forall trailBounded r.1))).
  - auto with lia.
  - intros a j (Hc & Hl & Ht).
    pose proof (ballBallIter_keeps cfg el b j a) as (Hc' & Hl' & Ht').
    split; [lia|]. split; [congruence|]. auto.
Qed.

Lemma wallKeeps_refl (cfg : GameConfig) (acc : WallAcc) : wallKeeps cfg acc acc.
Proof. unfold wallKeeps. repeat split; try reflexivity; lia. Qed.

Lemma wallKeeps_trans (cfg : GameConfig) (a b c : WallAcc) :
  wallKeeps cfg a b → wallKeeps cfg b c → wallKeeps cfg a c.
Proof.
  intros (C1 & G1 & D1 & T1 & R1) (C2 & G2 & D2 & T2 & R2).
  unfold wallKeeps. split; [lia|]. split; [etrans; eassumption|].
  split; [intros Hd; rewrite D2, D1 by exact Hd; reflexivity|].
  split; congruence.
Qed.

Lemma wall_hit_keeps (cfg : GameConfig) (wallId : string) (acc : WallAcc)
  (ball' : Ball) :
  trail ball' = trail (wa_ball acc) → radius ball' = radius (wa_ball acc) →
  wallKeeps cfg acc
    {| wa_ball := ball'; wa_gaps := breakWall cfg wallId (wa_gaps acc);
       wa_count := recordWallCollision cfg (wa_count acc) |}.
Proof.
  intros Ht Hr. unfold wallKeeps, breakWall, recordWallCollision.
  cbn [wa_ball wa_gaps wa_count].
  split; [destruct (countsWallHits cfg); lia|].
  split; [destruct (isDestructible cfg); set_solver|].
  split; [intros ->; reflexivity|]. split; assumption.
Qed.

Lemma circleLayer_keeps (env : Env) (rot : R) (layer : nat) (acc : WallAcc) :
  wallKeeps (config env) acc (circleLayer env rot layer acc).
Proof.
  unfold circleLayer.
  destruct (circleInGap _ _ _ _ _); [apply wallKeeps_refl|].
  destruct (decide _); [|apply wallKeeps_refl].
  destruct (decide _); [|apply wallKeeps_refl].
  apply wall_hit_keeps; reflexivity.
Qed.

Lemma polygonWall_keeps (env : Env) (wallId : string) (p1 p2 : Vector2)
  (acc : WallAcc) :
  wallKeeps (config env) acc (polygonWall env wallId p1 p2 acc).
Proof.
  unfold polygonWall. destruct (decide _); [|apply wallKeeps_refl].
  destruct (decide _); [apply wall_hit_keeps; reflexivity|].
  destruct (decide _); [|apply wallKeeps_refl].
  unfold wallKeeps. cbn [wa_ball wa_gaps wa_count].
  repeat split; try reflexivity; lia.
Qed.

Lemma polygonSide_keeps (env : Env) (vertices : list Vector2) (layer i : nat)
  (acc : WallAcc) :
  wallKeeps (config env) acc (polygonSide env vertices layer acc i).
Proof.
  unfold polygonSide. destruct (_ || _); [apply wallKeeps_refl|].
  destruct (vertices !! i); [|apply wallKeeps_refl].
  destruct (vertices !! _); [|apply wallKeeps_refl].
  apply polygonWall_keeps.
Qed.

Lemma wallLayer_keeps (env : Env) (rot : R) (layer : nat) (acc : WallAcc) :
  wallKeeps (config env) acc (wallLayer env rot acc layer).
Proof.
  unfold wallLayer. destruct (decide _); [apply wallKeeps_refl|].
  destruct (isCircle (config env)); [apply circleLayer_keeps|].
  apply (foldl_invariant (wallKeeps (config env) acc));
    [apply wallKeeps_refl|].
  intros a i Ha. eapply wallKeeps_trans; [exact Ha|apply polygonSide_keeps].
Qed.

Lemma wallPass_keeps (env : Env) (rot : R) (acc : WallAcc) :
  wallKeeps (config env) acc (wallPass env rot acc).
Proof.
  unfold wallPass.
  apply (foldl_invariant (wallKeeps (config env) acc));
    [apply wallKeeps_refl|].
  intros a i Ha. eapply wallKeeps_trans; [exact Ha|apply wallLayer_keeps].
Qed.

Lemma frameKeeps_refl (env : Env) (st : State) : frameKeeps env st st.
Proof. unfold frameKeeps. repeat split; try reflexivity; lia. Qed.

Lemma frameKeeps_trans (env : Env) (a b c : State) :
  frameKeeps env a b → frameKeeps env b c → frameKeeps env a c.
Proof.
  intros (C1 & G1 & D1 & L1 & N1 & E1 & F1 & H1 & I1)
         (C2 & G2 & D2 & L2 & N2 & E2 & F2 & H2 & I2).
  unfold frameKeeps. split; [lia|]. split; [etrans; eassumption|].
  split; [intros Hd; rewrite D2, D1 by exact Hd; reflexivity|].
  split; [lia|].
  split; [intros Hr; rewrite N2, N1 by exact Hr; reflexivity|].
  repeat split; congruence.
Qed.

Lemma length_delete_le {A : Type} (l : list A) (i : nat) :
  (length (delete i l) ≤ length l)%nat.
Proof.
  destruct (l !! i) as [a|] eqn:E.
  - rewrite length_delete by (eexists; exact E). lia.
  - apply lookup_ge_None in E. revert i E.
    induction l as [|a l IH]; intros [|i] E; cbn [length] in *;
      try reflexivity; try lia.
    change (delete (S i) (a :: l)) with (a :: delete i l). cbn [length].
    specialize (IH i). lia.
Qed.

Lemma rotation_with_balls (s : State) (bs : list Ball) :
  rotation (with_balls s bs) = rotation s.
Proof. reflexivity. Qed.

Section FrameKeeps.

Variable random : nat → R.

Lemma respawn_trail (env : Env) (d : nat) (ball : Ball) :
  trail (respawn random env d ball).1 = [].
Proof.
  unfold respawn. destruct (randomSpawn (config env)); [reflexivity|].
  destruct (micControlEnabled (config env)); reflexivity.
Qed.

Lemma boundary_keeps (env : Env) (b : nat) (ball : Ball) (st : State) :
  frameKeeps env st (boundary random env b ball st)
  ∧ rotation (boundary random env b ball st) = rotation st
  ∧ (Forall trailBounded (balls st) →
     Forall trailBounded (balls (boundary random env b ball st))).
Proof.
  unfold boundary. destruct (decide _);
    [|split; [apply frameKeeps_refl|split; [reflexivity|auto]]].
  destruct (isReductionMode (config env)) eqn:Hred.
  - split; [|split; [reflexivity|]].
    + unfold frameKeeps. cbn [balls with_balls collisionCount manualGaps
                              dragState mousePos longPressTimer
                              longPressStartPos].
      split; [lia|]. split; [reflexivity|]. split; [reflexivity|].
      split; [apply length_delete_le|]. split; [congruence|].
      repeat split.
    + cbn [balls with_balls]. apply Forall_delete.
  - pose proof (respawn_trail env (randomDraws st) ball) as Ht.
    destruct (respawn random env (randomDraws st) ball) as [ball' d].
    cbn [fst] in Ht. split; [|split; [reflexivity|]].
    + unfold frameKeeps.
      cbn [balls with_balls with_randomDraws collisionCount manualGaps
           dragState mousePos longPressTimer longPressStartPos].
      rewrite length_insert.
      split; [lia|]. split; [reflexivity|]. split; [reflexivity|].
      split; [lia|]. repeat split.
    + cbn [balls with_balls with_randomDraws]. intros HF.
      apply Forall_insert; [exact HF|].
      unfold trailBounded. rewrite Ht. cbn. lia.
Qed.

Lemma processBall_keeps (env : Env) (step : nat) (st : State) (b : nat) :
  frameKeeps env st (processBall random env step st b)
  ∧ rotation (processBall random env step st b) = rotation st
  ∧ (Forall trailBounded (balls st) →
     Forall trailBounded (balls (processBall random env step st b))).
Proof.
  assert (Hid : frameKeeps env st st ∧ rotation st = rotation st
                ∧ (Forall trailBounded (balls st) →
                   Forall trailBounded (balls st)))
    by (split; [apply frameKeeps_refl|split; [reflexivity|auto]]).
  unfold processBall.
  destruct (balls st !! b) as [ball|] eqn:Hb; [|exact Hid].
  destruct (isPinned ball); [exact Hid|].
  pose proof (ballBallPass_keeps (config env) (currentElasticity env) step b
                (<[b := integrate (config env) ball]> (balls st),
                 collisionCount st)) as (Hc & Hl & Ht).
  destruct (ballBallPass _ _ _ _ _) as [bs count]. cbn [fst snd] in *.
  rewrite length_insert in Hl.
  destruct (bs !! b) as [ball2|] eqn:Hb2; [|exact Hid].
  set (acc0 := {| wa_ball := ball2; wa_gaps := manualGaps st;
                  wa_count := count |}).
  pose proof (wallPass_keeps env (rotation st) acc0) as (Wc & Wg & Wd & Wt & _).
  set (acc := wallPass env (rotation st) acc0) in *.
  cbn [wa_ball wa_gaps wa_count acc0] in Wc, Wg, Wd, Wt.
  set (st1 := with_collisionCount _ _).
  pose proof (boundary_keeps env b (wa_ball acc) st1) as (Bk & Br & Bt).
  assert (Hk1 : frameKeeps env st st1).
  { unfold frameKeeps, st1.
    cbn [balls with_balls with_manualGaps with_collisionCount collisionCount
         manualGaps dragState mousePos longPressTimer longPressStartPos].
    rewrite length_insert, Hl.
    split; [lia|]. split; [exact Wg|]. split; [exact Wd|].
    split; [lia|]. repeat split. }
  split; [eapply frameKeeps_trans; [exact Hk1|exact Bk]|].
  split; [rewrite Br; reflexivity|].
  intros HF. apply Bt. unfold st1.
  cbn [balls with_balls with_manualGaps with_collisionCount].
  apply Forall_insert.
  - apply Ht. apply Forall_insert; [exact HF|].
    unfold trailBounded. change (trail (integrate (config env) ball))
      with (trail ball).
    apply (Forall_lookup_1 _ _ _ _ HF Hb).
  - unfold trailBounded. rewrite Wt.
    assert (HF2 : Forall trailBounded bs).
    { apply Ht. apply Forall_insert; [exact HF|].
      change (trailBounded (integrate (config env) ball))
        with (trailBounded ball).
      apply (Forall_lookup_1 _ _ _ _ HF Hb). }
    apply (Forall_lookup_1 _ _ _ _ HF2 Hb2).
Qed.

Lemma subStep_keeps (env : Env) (st : State) (step : nat) :
  frameKeeps env st (subStep random env st step)
  ∧ rotation (subStep random env st step)
    = rotation st + rotationSpeed (config env) / SUB_STEPS
  ∧ (Forall trailBounded (balls st) →
     Forall trailBounded (balls (subStep random env st step))).
Proof.
  unfold subStep.
  set (st0 := with_rotation st _).
  apply (foldl_invariant
           (λ s, frameKeeps env st s
                 ∧ rotation s = rotation st + rotationSpeed (config env) / SUB_STEPS
                 ∧ (Forall trailBounded (balls st) →
                    Forall trailBounded (balls s)))).
  - split; [|split; [reflexivity|auto]].
    unfold frameKeeps, st0. cbn. repeat split; try reflexivity; lia.
  - intros s b (Hk & Hr & Ht).
    pose proof (processBall_keeps env step s b) as (Pk & Pr & Pt).
    split; [eapply frameKeeps_trans; eassumption|].
    split; [rewrite Pr; exact Hr|auto].
Qed.

Lemma subSteps_keep (env : Env) (st : State) (steps : list nat) :
  let st' := foldl (subStep random env) st steps in
  frameKeeps env st st'
  ∧ rotation st'
    = rotation st
      + INR (length steps) * (rotationSpeed (config env) / SUB_STEPS)
  ∧ (Forall trailBounded (balls st) → Forall trailBounded (balls st')).
Proof.
  revert st. induction steps as [|step steps IH]; intros st; cbn [foldl length].
  - split; [apply frameKeeps_refl|]. split; [cbn; ring|auto].
  - pose proof (subStep_keeps env st step) as (Sk & Sr & St).
    pose proof (IH (subStep random env st step)) as (Ik & Ir & It).
    cbv zeta in *.
    split; [eapply frameKeeps_trans; eassumption|].
    split; [|auto].
    rewrite Ir, Sr, S_INR. ring.
Qed.

Lemma updateTrail_bounded (ball : Ball) :
  trailBounded ball → trailBounded (updateTrail ball).
Proof.
  unfold trailBounded, updateTrail. intros H.
  destruct (_ && _); [|exact H]. cbn [trail with_trail].
  destruct (decide _) as [G|G].
  - rewrite length_app in *. cbn [length] in *.
    destruct (trail ball ++ [pos ball]) eqn:E; cbn [tail length];
      [lia|].
    apply (f_equal length) in E. rewrite length_app in E.
    cbn [length] in E. lia.
  - lia.
Qed.

Lemma physics_keeps (env : Env) (st : State) :
  frameKeeps env st (physics random env st)
  ∧ (Forall trailBounded (balls st) →
     Forall trailBounded (balls (physics random env st))).
Proof.
  unfold physics. destruct (paused env);
    [split; [apply frameKeeps_refl|auto]|].
  pose proof (subSteps_keep env st (seq 0 SUB_STEPS_nat)) as (Hk & _ & Ht).
  cbv zeta in *. set (st' := foldl _ _ _) in *.
  split.
  - eapply frameKeeps_trans; [exact Hk|].
    unfold frameKeeps. cbn [balls with_balls collisionCount manualGaps
                            dragState mousePos longPressTimer
                            longPressStartPos].
    rewrite length_map. repeat split; try reflexivity; lia.
  - intros HF. cbn [balls with_balls]. apply Forall_map.
    eapply Forall_impl; [apply Ht, HF|].
    intros b Hb. apply updateTrail_bounded, Hb.
Qed.

Lemma subSteps_rotation (env : Env) (st : State) (steps : list nat) :
  rotation (foldl (subStep random env) st steps)
  = rotation st
    + INR (length steps) * (rotationSpeed (config env) / SUB_STEPS).
Proof. apply (subSteps_keep env st steps). Qed.

Lemma physics_rotation (env : Env) (st : State) :
  rotation (physics random env st)
  = if paused env then rotation st
    else rotation st + rotationSpeed (config env).
Proof.
  unfold physics. destruct (paused env); [reflexivity|].
  rewrite rotation_with_balls.
  rewrite (subSteps_rotation env st (seq 0 SUB_STEPS_nat)), length_seq.
  fold SUB_STEPS. rewrite SUB_STEPS_value. field.
Qed.

End FrameKeeps.

(** *** The handlers and the counter, the trails *)

Lemma handlePointerDown_count (env : Env) (e : PointerEvent) (st : State) :
  collisionCount (handlePointerDown env e st) = collisionCount st.
Proof.
  unfold handlePointerDown.
  destruct (_ || _); [reflexivity|]. destruct (negb _); [reflexivity|].
  destruct (canvasRect env); [|reflexivity].
  cbn [balls with_longPressTimer with_longPressStartPos with_mousePos].
  destruct (find _ _); [reflexivity|]. destruct (find _ _); [reflexivity|].
  destruct (truthyString _); reflexivity.
Qed.

Lemma handlePointerMove_count (env : Env) (e : PointerEvent) (st : State) :
  collisionCount (handlePointerMove env e st) = collisionCount st.
Proof.
  unfold handlePointerMove. destruct (canvasRect env); [|reflexivity].
  cbn [longPressTimer longPressStartPos with_mousePos].
  destruct (longPressTimer st); [destruct (longPressStartPos st);
    [destruct (decide _)|]|];
  cbn [dragState with_mousePos with_longPressTimer];
  destruct (dragState st); reflexivity.
Qed.

Lemma updateFirst_Forall (P : Ball → Prop) (f : Ball → bool) (g : Ball → Ball)
  (bs : list Ball) :
  (∀ b, P b → P (g b)) → Forall P bs → Forall P (updateFirst f g bs).
Proof.
  intros Hg. induction 1 as [|a bs Ha Hbs IH]; [constructor|].
  cbn [updateFirst]. destruct (f a); constructor; auto.
Qed.

Lemma dragMove_bounded (d : DragState) (mouse : Vector2) (ball : Ball) :
  trailBounded ball → trailBounded (dragMove d mouse ball).
Proof.
  unfold trailBounded, dragMove. intros H.
  destruct (isPinned ball); [exact H|].
  destruct d; cbn [trail with_trail with_pos with_vel length]; lia.
Qed.

Lemma handlePointerMove_bounded (env : Env) (e : PointerEvent) (st : State) :
  Forall trailBounded (balls st) →
  Forall trailBounded (balls (handlePointerMove env e st)).
Proof.
  intros HF. unfold handlePointerMove.
  destruct (canvasRect env) as [rect|]; [|exact HF].
  set (st1 := with_mousePos st _).
  set (st2 := match longPressTimer st1 with true => _ | false => _ end).
  assert (Hb : balls st2 = balls st).
  { unfold st2. destruct (longPressTimer st1); [|reflexivity].
    destruct (longPressStartPos st1); [|reflexivity].
    destruct (decide _); reflexivity. }
  destruct (dragState st2) as [d|]; [|rewrite Hb; exact HF].
  cbn [balls with_balls]. rewrite Hb.
  apply updateFirst_Forall; [apply dragMove_bounded|exact HF].
Qed.

Lemma pinStep_bounded (bs bs' : list Ball) :
  Forall2 pinStep bs bs' → Forall trailBounded bs → Forall trailBounded bs'.
Proof.
  induction 1 as [|b b' bs bs' Hs _ IH]; intros HF; [constructor|].
  inversion HF; subst. constructor; [|apply IH; assumption].
  destruct Hs as [->|[[_ ->]|[_ ->]]]; assumption.
Qed.

Section SessionKeeps.

Variable random : nat → R.

Lemma spawnBall_trail (env : Env) (d i : nat) :
  trail (spawnBall random env d i).1 = [].
Proof.
  unfold spawnBall. destruct (randomSpawn (config env)); [reflexivity|].
  destruct (micControlEnabled (config env)); reflexivity.
Qed.

Lemma initBalls_bounded (env : Env) (st : State) :
  Forall trailBounded (balls (initBalls random env st)).
Proof.
  unfold initBalls.
  assert (H : Forall trailBounded
                (foldl (λ (acc : list Ball * nat) (i : nat),
                          let '(ball, d) := spawnBall random env acc.2 i in
                          (acc.1 ++ [ball], d))
                   ([], randomDraws st)
                   (seq 0 (Z.to_nat (ballCount (config env))))).1).
  { apply (foldl_invariant
             (λ a : list Ball * nat, Forall trailBounded a.1));
      [constructor|].
    intros a i Ha. pose proof (spawnBall_trail env a.2 i) as Ht.
    destruct (spawnBall random env a.2 i) as [ball d]. cbn [fst] in *.
    apply Forall_app. split; [exact Ha|].
    constructor; [|constructor]. unfold trailBounded. rewrite Ht. cbn. lia. }
  destruct (foldl _ _ _) as [newBalls d]. exact H.
Qed.

Lemma resizeBalls_bounded (env : Env) (st : State) :
  Forall trailBounded (balls st) →
  Forall trailBounded (balls (resizeBalls random env st)).
Proof.
  intros HF. unfold resizeBalls.
  destruct (randomSpawn (config env)); [exact HF|].
  assert (H : ∀ bs acc,
             Forall trailBounded bs → Forall trailBounded acc.1 →
             Forall trailBounded
               (foldl (λ (acc : list Ball * nat) (ball : Ball),
                         (acc.1 ++ [with_radius ball
                                      (ballSize (config env)
                                       + (random acc.2 * 2))],
                          S acc.2)) acc bs).1).
  { induction bs as [|b bs IH]; intros acc Hbs Hacc; [exact Hacc|].
    inversion Hbs; subst. cbn [foldl]. apply IH; [assumption|].
    cbn [fst]. apply Forall_app. split; [exact Hacc|].
    constructor; [assumption|constructor]. }
  specialize (H (balls st) ([], randomDraws st) HF (Forall_nil_2 _)).
  destruct (foldl _ _ _) as [bs d]. exact H.
Qed.

Lemma handleDoubleClick_bounded (env : Env) (e : PointerEvent) (now : R)
  (st : State) :
  Forall trailBounded (balls st) →
  Forall trailBounded (balls (handleDoubleClick random env e now st)).
Proof.
  intros HF. unfold handleDoubleClick.
  destruct (canvasRect env); [|exact HF].
  destruct (randomSpawn (config env));
    cbn [balls with_balls with_randomDraws];
    (apply Forall_app; split; [exact HF|]);
    (constructor; [unfold trailBounded; cbn; lia|constructor]).
Qed.

Lemma dispatch_bounded (env : Env) (ev : Event) (st : State) :
  Forall trailBounded (balls st) →
  Forall trailBounded (balls (dispatch random env ev st)).
Proof.
  intros HF. destruct ev; cbn [dispatch].
  - unfold update. cbn [balls with_hoveredWall].
    apply physics_keeps, HF.
  - rewrite handlePointerDown_balls. exact HF.
  - apply handlePointerMove_bounded, HF.
  - exact HF.
  - apply (pinStep_bounded (balls st));
      [apply handleContextMenu_pinStep|exact HF].
  - apply handleDoubleClick_bounded, HF.
  - apply (pinStep_bounded (balls st));
      [apply longPressFire_pinStep|exact HF].
  - apply initBalls_bounded.
  - apply resizeBalls_bounded, HF.
Qed.

Lemma dispatch_count (env : Env) (ev : Event) (st : State) :
  ev ≠ Restart →
  (collisionCount st <= collisionCount (dispatch random env ev st))%Z.
Proof.
  intros Hne. destruct ev; cbn [dispatch]; try contradiction.
  - unfold update. cbn [collisionCount with_hoveredWall].
    apply physics_keeps.
  - rewrite handlePointerDown_count. lia.
  - rewrite handlePointerMove_count. lia.
  - cbn. lia.
  - unfold handleContextMenu. destruct (negb _); [lia|].
    destruct (canvasRect env); cbn; lia.
  - unfold handleDoubleClick. destruct (canvasRect env); [|lia].
    destruct (randomSpawn (config env)); cbn; lia.
  - unfold longPressFire. destruct (longPressTimer st); [|lia].
    destruct (togglePin _ _) as [bs []]; cbn; lia.
  - unfold resizeBalls. destruct (randomSpawn (config env)); [lia|].
    destruct (foldl _ _ _); cbn; lia.
Qed.

End SessionKeeps.

(** X12: the collision counter never decreases: every event other than the
    restart leaves it as it is or raises it, a frame included, and the
    restart sets it to 0. *)
Theorem collision_counter_is_monotone
  (random : nat → R) (env : Env) (ev : Event) (st : State) :
  (ev ≠ Restart →
   (collisionCount st <= collisionCount (dispatch random env ev st))%Z)
  ∧ collisionCount (dispatch random env Restart st) = 0%Z.
Proof.
  split; [apply dispatch_count|].
  cbn [dispatch]. unfold initBalls. destruct (foldl _ _ _). reflexivity.
Qed.

Lemma collision_counter_is_monotone_witness :
  (collisionCount pinnedSession
   <= collisionCount (dispatch halfRandom sampleEnv Frame pinnedSession))%Z.
Proof.
  apply (collision_counter_is_monotone halfRandom sampleEnv Frame pinnedSession).
  discriminate.
Defined.

(** X13: a frame never removes a wall id from the manual gap set, and
    unless walls are destructible it leaves the set as it is. *)
Theorem frame_only_adds_gaps (random : nat → R) (env : Env) (st : State) :
  manualGaps st ⊆ manualGaps (update random env st)
  ∧ (isDestructible (config env) = false →
     manualGaps (update random env st) = manualGaps st).
Proof.
  pose proof (physics_keeps random env st) as [(_ & Hg & Hd & _) _].
  unfold update. cbn [manualGaps with_hoveredWall]. split; assumption.
Qed.

Lemma frame_only_adds_gaps_witness :
  manualGaps (update halfRandom sampleEnv pinnedSession)
  = manualGaps pinnedSession.
Proof.
  apply (frame_only_adds_gaps halfRandom sampleEnv pinnedSession).
  reflexivity.
Defined.

(** X14: a frame never adds a ball, and outside reduction mode it keeps
    the number of balls: an escaped ball is respawned in its slot. *)
Theorem frame_keeps_ball_count (random : nat → R) (env : Env) (st : State) :
  (length (balls (update random env st)) ≤ length (balls st))%nat
  ∧ (isReductionMode (config env) = false →
     length (balls (update random env st)) = length (balls st)).
Proof.
  pose proof (physics_keeps random env st) as [(_ & _ & _ & Hl & Hn & _) _].
  unfold update. cbn [balls with_hoveredWall]. split; assumption.
Qed.

Lemma frame_keeps_ball_count_witness :
  length (balls (update halfRandom sampleEnv pinnedSession))
  = length (balls pinnedSession).
Proof.
  apply (frame_keeps_ball_count halfRandom sampleEnv pinnedSession).
  reflexivity.
Defined.

(** X15: a frame that is not paused advances the rotation by exactly
    [rotationSpeed], in ten sub-steps of a tenth each; a paused frame
    leaves the rotation alone; and a frame never touches the drag state,
    the pointer position or the long-press timer. *)
Theorem frame_advances_rotation (random : nat → R) (env : Env) (st : State) :
  rotation (update random env st)
  = (if paused env then rotation st
     else rotation st + rotationSpeed (config env))
  ∧ dragState (update random env st) = dragState st
  ∧ mousePos (update random env st) = mousePos st
  ∧ longPressTimer (update random env st) = longPressTimer st
  ∧ longPressStartPos (update random env st) = longPressStartPos st.
Proof.
  pose proof (physics_keeps random env st)
    as [(_ & _ & _ & _ & _ & H1 & H2 & H3 & H4) _].
  unfold update.
  cbn [rotation dragState mousePos longPressTimer longPressStartPos
       with_hoveredWall].
  split; [apply physics_rotation|]. repeat split; assumption.
Qed.

(** X16: in every state the component reaches, every trail holds at most
    15 points. *)
Theorem trails_stay_bounded (random : nat → R) (st : State) :
  reachable random st → Forall trailBounded (balls st).
Proof.
  induction 1 as [|env ev st _ IH]; [constructor|].
  apply dispatch_bounded, IH.
Qed.

Lemma trails_stay_bounded_witness :
  Forall trailBounded
    (balls (dispatch halfRandom sampleEnv Frame pinnedSession)).
Proof.
  apply (trails_stay_bounded halfRandom).
  constructor. apply pinnedSession_reachable.
Defined.

(** ** Pointer interaction *)

Lemma togglePin_hit_flag (p : Vector2) (bs : list Ball) :
  (togglePin p bs).2 = false ↔ Forall (λ b, ¬ inPinReach p b) bs.
Proof.
  split.
  - induction bs as [|b bs IH]; [constructor|].
    cbn [togglePin]. destruct (decide _) as [H|H]; [discriminate|].
    destruct (togglePin p bs) as [rest hit]. cbn [snd] in *.
    intros ->. constructor; [exact H|apply IH; reflexivity].
  - intros H. rewrite togglePin_miss by exact H. reflexivity.
Qed.

Lemma togglePin_length (p : Vector2) (bs : list Ball) :
  length (togglePin p bs).1 = length bs.
Proof.
  pose proof (togglePin_pinStep p bs) as H.
  symmetry. apply (Forall2_length _ _ _ H).
Qed.

(** X17: [togglePin] reports a miss exactly when no ball is within
    [radius + 15] of the point, and then changes nothing; it never changes
    the number of balls; and a second [togglePin] at the same point hits
    the same ball and restores every pin flag, with ids, positions and radii
    as they were. *)
Theorem togglePin_twice_restores_flags (p : Vector2) (bs : list Ball) :
  let r1 := togglePin p bs in
  let r2 := togglePin p r1.1 in
  ((r1.2 = false ↔ Forall (λ b, ¬ inPinReach p b) bs)
   ∧ (r1.2 = false → r1.1 = bs))
  ∧ length r1.1 = length bs
  ∧ r2.2 = r1.2
  ∧ map pinView r2.1 = map pinView bs.
Proof.
  cbv zeta. split; [split; [apply togglePin_hit_flag|]|].
  { intros H. apply togglePin_hit_flag in H.
    rewrite togglePin_miss by exact H. reflexivity. }
  split; [apply togglePin_length|].
  induction bs as [|b bs [IH1 IH2]]; [split; reflexivity|].
  cbn [togglePin]. destruct (decide (dist p (pos b) < radius b + 15)) as [H|H].
  - cbn [fst snd].
    set (b1 := if isPinned (with_isPinned b (negb (isPinned b)))
               then with_vel (with_isPinned b (negb (isPinned b)))
                      {| x := 0; y := 0 |}
               else with_isPinned b (negb (isPinned b))).
    assert (Hb1 : pos b1 = pos b ∧ radius b1 = radius b ∧ id b1 = id b
                  ∧ isPinned b1 = negb (isPinned b)).
    { unfold b1. destruct (isPinned b); cbn; auto. }
    destruct Hb1 as (Hp & Hr & Hi & Hf).
    cbn [togglePin]. rewrite Hp, Hr.
    destruct (decide (dist p (pos b) < radius b + 15)); [|contradiction].
    cbn [fst snd map]. split; [reflexivity|]. f_equal.
    unfold pinView. rewrite Hf. destruct (isPinned b); cbn;
      rewrite ?Hi, ?Hp, ?Hr; reflexivity.
  - destruct (togglePin p bs) as [rest hit] eqn:E. cbn [fst snd] in *.
    cbn [togglePin].
    destruct (decide (dist p (pos b) < radius b + 15)); [contradiction|].
    destruct (togglePin p rest) as [rest2 hit2]. cbn [fst snd map] in *.
    split; [exact IH1|]. f_equal. exact IH2.
Qed.

Lemma togglePin_twice_restores_flags_witness :
  (togglePin {| x := 500; y := 500 |} [leftBall; pinnedBall]).1
  = [leftBall; pinnedBall].
Proof.
  apply (togglePin_twice_restores_flags {| x := 500; y := 500 |}
           [leftBall; pinnedBall]).
  apply togglePin_hit_flag.
  constructor; [|constructor; [|constructor]];
    unfold inPinReach; cbn [pos radius leftBall pinnedBall sampleBall];
    intros H; apply dist_lt_sq in H; unfold distSq in H; cbn [x y] in H; lra.
Defined.

(** X18: a velocity drag of an unpinned ball leaves the ball where it is
    and sets the velocity so that the velocity handle, drawn at
    [pos + 10 vel], sits exactly under the pointer; a press at that point
    grabs the same handle again. *)
Theorem velocity_drag_puts_handle_under_pointer
  (i : R) (mouse : Vector2) (ball : Ball) :
  isPinned ball = false →
  let b' := dragMove (DragVelocity i) mouse ball in
  pos b' = pos ball
  ∧ add (pos b') (mult (vel b') 10) = mouse
  ∧ hitsVelocityHandle mouse b' = true.
Proof.
  intros Hu b'. unfold b', dragMove. rewrite Hu.
  cbn [pos vel with_vel].
  assert (Hh : add (pos ball) (mult (mult (sub mouse (pos ball)) 0.1) 10)
               = mouse).
  { apply Vector2_eq; cbn [x y add sub mult]; lra. }
  split; [reflexivity|]. split; [exact Hh|].
  unfold hitsVelocityHandle. cbn [pos vel with_vel]. rewrite Hh.
  apply bool_decide_eq_true_2. unfold dist.
  replace (sub mouse mouse) with {| x := 0; y := 0 |}
    by (apply Vector2_eq; cbn [x y sub]; ring).
  rewrite mag_axis_x by lra. lra.
Qed.

Lemma velocity_drag_puts_handle_under_pointer_witness :
  let b' := dragMove (DragVelocity 0) {| x := 130; y := 100 |} restBall in
  pos b' = pos restBall
  ∧ add (pos b') (mult (vel b') 10) = {| x := 130; y := 100 |}
  ∧ hitsVelocityHandle {| x := 130; y := 100 |} b' = true.
Proof.
  apply (velocity_drag_puts_handle_under_pointer 0
           {| x := 130; y := 100 |} restBall).
  reflexivity.
Defined.

Lemma handlePointerDown_accepted
  (env : Env) (e : PointerEvent) (rect : Vector2) (st : State) :
  acceptedPress env e rect →
  let mouse := eventPos rect e in
  let st1 :=
    with_longPressTimer
      (with_longPressStartPos (with_mousePos st mouse) (Some mouse)) true in
  handlePointerDown env e st
  = match find (hitsVelocityHandle mouse) (balls st) with
    | Some ball => with_dragState st1 (Some (DragVelocity (id ball)))
    | None =>
        match find (hitsBall mouse) (balls st) with
        | Some ball =>
            with_dragState st1 (Some (DragBall (id ball) (sub (pos ball) mouse)))
        | None =>
            match truthyString (hoveredWall st) with
            | Some wallId =>
                with_manualGaps st1 (toggleGap wallId (manualGaps st))
            | None => st1
            end
        end
    end.
Proof.
  intros (Hg & Hp & Hb & Hr). cbv zeta. unfold handlePointerDown.
  rewrite Hg, Hp, Hb, Hr. reflexivity.
Qed.

Lemma handlePointerDown_timer
  (env : Env) (e : PointerEvent) (rect : Vector2) (st : State) :
  acceptedPress env e rect →
  longPressTimer (handlePointerDown env e st) = true
  ∧ longPressStartPos (handlePointerDown env e st) = Some (eventPos rect e)
  ∧ mousePos (handlePointerDown env e st) = eventPos rect e.
Proof.
  intros Ha. rewrite (handlePointerDown_accepted env e rect st Ha). cbv zeta.
  destruct (find _ _); [repeat split|].
  destruct (find _ _); [repeat split|].
  destruct (truthyString _); repeat split.
Qed.

Lemma updateFirst_found (f : Ball → bool) (g : Ball → Ball) (bs : list Ball)
  (ball : Ball) :
  find f bs = Some ball →
  ∃ k, bs !! k = Some ball ∧ updateFirst f g bs = <[k := g ball]> bs.
Proof.
  induction bs as [|a bs IH]; [discriminate|].
  cbn [find updateFirst]. destruct (f a).
  - intros [= ->]. exists 0%nat. split; reflexivity.
  - intros H. destruct (IH H) as (k & Hk & E).
    exists (S k). split; [exact Hk|]. rewrite E. reflexivity.
Qed.

(** X19: a press on an unpinned ball followed by a pointer move drags
    that ball without a jump: the ball moves by exactly the displacement of
    the pointer, keeps its velocity and loses its trail, and no other ball
    changes.  The ball must be the first of the array with its id. *)
Theorem ball_drag_follows_pointer
  (env : Env) (e e' : PointerEvent) (rect : Vector2) (st : State)
  (ball : Ball) :
  acceptedPress env e rect →
  find (hitsVelocityHandle (eventPos rect e)) (balls st) = None →
  find (hitsBall (eventPos rect e)) (balls st) = Some ball →
  find (λ b, bool_decide (id b = id ball)) (balls st) = Some ball →
  isPinned ball = false →
  let st2 := handlePointerMove env e' (handlePointerDown env e st) in
  ∃ k ball',
    balls st !! k = Some ball
    ∧ balls st2 = <[k := ball']> (balls st)
    ∧ pos ball'
      = add (pos ball) (sub (eventPos rect e') (eventPos rect e))
    ∧ vel ball' = vel ball ∧ trail ball' = [] ∧ radius ball' = radius ball.
Proof.
  intros Ha Hv Hb Hid Hu st2.
  pose proof (handlePointerDown_timer env e rect st Ha) as (Ht & Hs & _).
  pose proof (handlePointerDown_balls env e st) as Hbs.
  assert (Hd : dragState (handlePointerDown env e st)
               = Some (DragBall (id ball) (sub (pos ball) (eventPos rect e)))).
  { rewrite (handlePointerDown_accepted env e rect st Ha). cbv zeta.
    rewrite Hv, Hb. reflexivity. }
  destruct Ha as (_ & _ & _ & Hr).
  unfold st2, handlePointerMove. rewrite Hr.
  set (st1 := handlePointerDown env e st) in *.
  cbn [longPressTimer longPressStartPos with_mousePos].
  rewrite Ht, Hs.
  assert (E : ∀ s, balls s = balls st →
                   dragState s = Some (DragBall (id ball)
                                         (sub (pos ball) (eventPos rect e))) →
              ∃ k ball',
                balls st !! k = Some ball
                ∧ balls (match dragState s with
                         | Some d =>
                             with_balls s
                               (updateFirst (λ b, bool_decide (id b = dragId d))
                                  (dragMove d (eventPos rect e')) (balls s))
                         | None => s
                         end) = <[k := ball']> (balls st)
                ∧ pos ball'
                  = add (pos ball) (sub (eventPos rect e') (eventPos rect e))
                ∧ vel ball' = vel ball ∧ trail ball' = []
                ∧ radius ball' = radius ball).
  { intros s Hsb Hsd. rewrite Hsd. cbn [dragId balls with_balls]. rewrite Hsb.
    destruct (updateFirst_found _
                (dragMove (DragBall (id ball) (sub (pos ball) (eventPos rect e)))
                   (eventPos rect e')) _ _ Hid) as (k & Hk & Eu).
    exists k. eexists. split; [exact Hk|]. split; [exact Eu|].
    unfold dragMove. rewrite Hu. cbn [pos vel trail radius with_pos with_trail].
    split; [apply Vector2_eq; cbn [x y add sub]; ring|]. repeat split. }
  destruct (decide _); apply E; cbn; assumption.
Qed.

Lemma godEnv_accepts (e : PointerEvent) :
  button e = 0%Z → acceptedPress godEnv e {| x := 0; y := 0 |}.
Proof. intros Hb. repeat split. exact Hb. Qed.

Lemma rollingBall_pressed :
  find (hitsVelocityHandle (eventPos {| x := 0; y := 0 |} ballPress))
    (balls dragSession) = None
  ∧ find (hitsBall (eventPos {| x := 0; y := 0 |} ballPress))
      (balls dragSession) = Some rollingBall.
Proof.
  cbn [balls dragSession find]. split.
  - unfold hitsVelocityHandle, dist.
    replace (sub (eventPos {| x := 0; y := 0 |} ballPress)
               (add (pos rollingBall) (mult (vel rollingBall) 10)))
      with {| x := -47; y := 0 |} by (apply Vector2_eq; simpl; lra).
    rewrite mag_axis_x_neg by lra.
    rewrite bool_decide_eq_false_2 by lra. reflexivity.
  - unfold hitsBall, dist.
    replace (sub (eventPos {| x := 0; y := 0 |} ballPress) (pos rollingBall))
      with {| x := 3; y := 0 |} by (apply Vector2_eq; simpl; lra).
    rewrite mag_axis_x by lra.
    rewrite bool_decide_eq_true_2
      by (cbn [radius rollingBall sampleBall]; lra).
    reflexivity.
Qed.

Lemma ball_drag_follows_pointer_witness :
  let st2 :=
    handlePointerMove godEnv ballPressMoved
      (handlePointerDown godEnv ballPress dragSession) in
  ∃ k ball',
    balls dragSession !! k = Some rollingBall
    ∧ balls st2 = <[k := ball']> (balls dragSession)
    ∧ pos ball'
      = add (pos rollingBall)
          (sub (eventPos {| x := 0; y := 0 |} ballPressMoved)
               (eventPos {| x := 0; y := 0 |} ballPress))
    ∧ vel ball' = vel rollingBall ∧ trail ball' = []
    ∧ radius ball' = radius rollingBall.
Proof.
  apply (ball_drag_follows_pointer godEnv ballPress ballPressMoved
           {| x := 0; y := 0 |} dragSession rollingBall).
  - apply godEnv_accepts. reflexivity.
  - apply rollingBall_pressed.
  - apply rollingBall_pressed.
  - cbn [balls dragSession find].
    rewrite bool_decide_eq_true_2 by reflexivity. reflexivity.
  - reflexivity.
Defined.

(** X20: after an accepted press the long-press timer is pending.  A
    pointer move farther than 10 from the press point cancels it, a nearer
    move keeps it; a release cancels it; and once cancelled, the timeout
    callback does nothing. *)
Theorem long_press_cancelled_by_movement
  (env : Env) (e e' : PointerEvent) (rect : Vector2) (st : State) :
  acceptedPress env e rect →
  let st1 := handlePointerDown env e st in
  let st2 := handlePointerMove env e' st1 in
  longPressTimer st1 = true
  ∧ longPressTimer st2
    = negb (bool_decide (dist (eventPos rect e') (eventPos rect e) > 10))
  ∧ longPressTimer (handlePointerUp st1) = false
  ∧ longPressFire (handlePointerUp st1) = handlePointerUp st1
  ∧ (dist (eventPos rect e') (eventPos rect e) > 10 →
     longPressFire st2 = st2).
Proof.
  intros Ha st1 st2.
  pose proof (handlePointerDown_timer env e rect st Ha) as (Ht & Hs & _).
  fold st1 in Ht, Hs.
  assert (Hr : canvasRect env = Some rect) by apply Ha.
  assert (H2 : longPressTimer st2
               = negb (bool_decide
                         (dist (eventPos rect e') (eventPos rect e) > 10))).
  { unfold st2, handlePointerMove. rewrite Hr.
    cbn [longPressTimer longPressStartPos with_mousePos]. rewrite Ht, Hs.
    destruct (decide (dist (eventPos rect e') (eventPos rect e) > 10)) as [G|G].
    - rewrite bool_decide_eq_true_2 by exact G.
      cbn [dragState with_longPressTimer with_mousePos].
      destruct (dragState st1); reflexivity.
    - rewrite bool_decide_eq_false_2 by exact G.
      cbn [dragState with_mousePos].
      destruct (dragState st1); cbn; exact Ht. }
  split; [exact Ht|]. split; [exact H2|]. split; [reflexivity|].
  split; [reflexivity|].
  intros G. unfold longPressFire. rewrite H2.
  rewrite bool_decide_eq_true_2 by exact G. reflexivity.
Qed.

Lemma long_press_cancelled_by_movement_witness :
  let st1 := handlePointerDown godEnv ballPress dragSession in
  let st2 := handlePointerMove godEnv ballPressMoved st1 in
  longPressTimer st1 = true ∧ longPressFire st2 = st2.
Proof.
  destruct (long_press_cancelled_by_movement godEnv ballPress ballPressMoved
              {| x := 0; y := 0 |} dragSession
              (godEnv_accepts ballPress eq_refl)) as (H1 & _ & _ & _ & H5).
  split; [exact H1|]. apply H5. unfold dist.
  replace (sub (eventPos {| x := 0; y := 0 |} ballPressMoved)
             (eventPos {| x := 0; y := 0 |} ballPress))
    with {| x := 30; y := 0 |} by (apply Vector2_eq; simpl; lra).
  rewrite mag_axis_x by lra. lra.
Defined.

Lemma truthyString_some (o : option string) (w : string) :
  truthyString o = Some w → o = Some w ∧ w ≠ EmptyString.
Proof.
  unfold truthyString. destruct o as [s|]; [|discriminate].
  destruct (decide (s = EmptyString)); [discriminate|].
  intros [= <-]. split; [reflexivity|assumption].
Qed.

(** X21: [handlePointerDown] is gated and ordered.  Outside paused god
    mode, with another button or without a canvas it changes nothing.  A
    press on a velocity handle starts a velocity drag and a press on a ball
    starts a ball drag, and neither touches the gap set: whenever the gap
    set changes, the press met no handle and no ball and a wall was
    hovered.  The balls, the rotation and the collision counter never
    change. *)
Theorem pointer_down_gate_and_priority
  (env : Env) (e : PointerEvent) (st : State) :
  (isGodMode (config env) && paused env = false ∨ button e ≠ 0%Z
   ∨ canvasRect env = None →
   handlePointerDown env e st = st)
  ∧ (∀ rect ball,
       acceptedPress env e rect →
       find (hitsVelocityHandle (eventPos rect e)) (balls st) = Some ball →
       dragState (handlePointerDown env e st) = Some (DragVelocity (id ball))
       ∧ manualGaps (handlePointerDown env e st) = manualGaps st)
  ∧ (manualGaps (handlePointerDown env e st) ≠ manualGaps st →
     ∃ w, wallPress env e st w)
  ∧ balls (handlePointerDown env e st) = balls st
  ∧ rotation (handlePointerDown env e st) = rotation st
  ∧ collisionCount (handlePointerDown env e st) = collisionCount st.
Proof.
  split; [|split; [|split; [|split; [|split]]]].
  - unfold handlePointerDown. intros [H|[H|H]].
    + destruct (isGodMode (config env)), (paused env);
        try discriminate; reflexivity.
    + destruct (_ || _); [reflexivity|].
      assert (Hb : (button e =? 0)%Z = false) by (apply Z.eqb_neq, H).
      rewrite Hb. reflexivity.
    + rewrite H. destruct (_ || _); [reflexivity|].
      destruct (negb _); reflexivity.
  - intros rect ball Ha Hv.
    rewrite (handlePointerDown_accepted env e rect st Ha). cbv zeta.
    rewrite Hv. split; reflexivity.
  - unfold handlePointerDown.
    destruct (isGodMode (config env)) eqn:Hg; [|intros H; contradiction].
    destruct (paused env) eqn:Hp; [|intros H; contradiction].
    cbn [negb orb].
    destruct (button e =? 0)%Z eqn:Hb; [|intros H; contradiction].
    cbn [negb].
    destruct (canvasRect env) as [rect|] eqn:Hr; [|intros H; contradiction].
    cbn [balls with_longPressTimer with_longPressStartPos with_mousePos].
    destruct (find (hitsVelocityHandle _) _) eqn:Hv;
      [intros H; contradiction|].
    destruct (find (hitsBall _) _) eqn:Hh; [intros H; contradiction|].
    cbn [hoveredWall with_longPressTimer with_longPressStartPos with_mousePos].
    destruct (truthyString (hoveredWall st)) as [w|] eqn:Hw;
      [|intros H; contradiction].
    intros _. exists w. apply truthyString_some in Hw as [Hw Hne].
    unfold wallPress. rewrite Hg, Hp, Hr.
    split; [reflexivity|]. split; [reflexivity|].
    split; [apply Z.eqb_eq, Hb|].
    split; [exists rect; auto|]. split; assumption.
  - apply handlePointerDown_balls.
  - unfold handlePointerDown.
    destruct (_ || _); [reflexivity|]. destruct (negb _); [reflexivity|].
    destruct (canvasRect env); [|reflexivity].
    cbn [balls with_longPressTimer with_longPressStartPos with_mousePos].
    destruct (find _ _); [reflexivity|]. destruct (find _ _); [reflexivity|].
    destruct (truthyString _); reflexivity.
  - apply handlePointerDown_count.
Qed.

Lemma pointer_down_gate_and_priority_witness :
  handlePointerDown sampleEnv mainPress hoverState = hoverState.
Proof.
  apply (pointer_down_gate_and_priority sampleEnv mainPress hoverState).
  left. reflexivity.
Defined.

(** ** Wall ids *)

Lemma pretty_N_char_not_dash (n : N) : pretty_N_char n ≠ "-"%char.
Proof. unfold pretty_N_char. repeat case_match; discriminate. Qed.

Lemma pretty_N_go_dashFree (n : N) (s : string) :
  dashFree s → dashFree (pretty_N_go n s).
Proof.
  revert s. induction (N.lt_wf_0 n) as [n _ IH]; intros s Hs.
  assert (n = 0 ∨ 0 < n)%N as [->|Hn] by lia.
  - rewrite pretty_N_go_0. exact Hs.
  - rewrite pretty_N_go_step by exact Hn. apply IH.
    + apply N.div_lt; [exact Hn|reflexivity].
    + split; [apply pretty_N_char_not_dash|exact Hs].
Qed.

Lemma pretty_nat_dashFree (n : nat) : dashFree (pretty n).
Proof.
  unfold pretty, pretty_nat, pretty, pretty_N.
  destruct (decide (N.of_nat n = 0%N)).
  - cbn. split; [discriminate|exact I].
  - apply pretty_N_go_dashFree. exact I.
Qed.

Lemma dash_split (s1 s2 t1 t2 : string) :
  dashFree s1 → dashFree s2 →
  (s1 +:+ String "-" t1 = s2 +:+ String "-" t2)%string →
  s1 = s2 ∧ t1 = t2.
Proof.
  revert s2. induction s1 as [|c s1 IH]; intros [|c' s2] H1 H2 E;
    cbn in E, H1, H2.
  - injection E as ->. split; reflexivity.
  - injection E as Ec _. destruct H2 as [H2 _]. congruence.
  - injection E as Ec _. destruct H1 as [H1 _]. congruence.
  - injection E as -> E. destruct H1 as [_ H1]. destruct H2 as [_ H2].
    destruct (IH s2 H1 H2 E) as [-> ->]. split; reflexivity.
Qed.

(** X22: the wall id [`${layer}-${i}`] names one wall only: two ids are
    equal exactly when layer and side index are, and no id is the empty
    string, which the handlers would treat as no wall. *)
Theorem wallIdOf_names_one_wall (layer1 i1 layer2 i2 : nat) :
  (wallIdOf layer1 i1 = wallIdOf layer2 i2 ↔ layer1 = layer2 ∧ i1 = i2)
  ∧ wallIdOf layer1 i1 ≠ EmptyString.
Proof.
  split; [|apply wallIdOf_nonempty]. split.
  - unfold wallIdOf. intros E.
    apply dash_split in E as [E1 E2]; try apply pretty_nat_dashFree.
    split; [apply (inj pretty), E1|apply (inj pretty), E2].
  - intros [-> ->]. reflexivity.
Qed.

(** ** The hovered wall is a drawn wall *)

Lemma firstWithin_some (tol : R) (cands : list (string * R)) (w : string) :
  firstWithin tol cands = Some w → ∃ d, (w, d) ∈ cands ∧ d < tol.
Proof.
  unfold firstWithin. destruct (find _ cands) as [[w' d]|] eqn:E;
    [|discriminate].
  intros [= <-]. apply find_some in E as [Hin Hd]. exists d.
  split; [apply list_elem_of_In, Hin|].
  cbn [snd] in Hd. apply bool_decide_eq_true_1 in Hd. exact Hd.
Qed.

(** X23: whatever a frame leaves hovered is a wall that the frame drew:
    god mode and paused hold, the id is that of a layer below the layer
    count with positive radius, side 0 of a circular layer or a side of a
    polygon that is not an auto-gap, and the pointer is closer than 20 to
    it. *)
Theorem hovered_wall_is_a_drawn_wall
  (random : nat → R) (env : Env) (st : State) (w : string) :
  hoveredWall (update random env st) = Some w →
  isGodMode (config env) = true ∧ paused env = true
  ∧ ∃ layer i d,
      w = wallIdOf layer i ∧ (layer < layersN env)%nat
      ∧ 0 < layerRadiusOf env layer
      ∧ (w, d) ∈ hoverCandidates env (mousePos st) (rotation st) ∧ d < 20
      ∧ (if isCircle (config env) then i = 0%nat
         else (i < sidesN env)%nat ∧ isAutoGap env i = false).
Proof.
  intros Hw.
  destruct (isGodMode (config env) && paused env) eqn:Hgp.
  - apply andb_true_iff in Hgp as [Hg Hp]. split; [exact Hg|].
    split; [exact Hp|].
    unfold update in Hw. cbn [hoveredWall with_hoveredWall] in Hw.
    unfold physics in Hw. rewrite Hp in Hw.
    rewrite computeHover_first in Hw by assumption.
    apply firstWithin_some in Hw as (d & Hin & Hd).
    pose proof Hin as Hin0.
    unfold hoverCandidates in Hin.
    apply list_elem_of_In, in_flat_map in Hin as (layer & Hl & Hin).
    apply in_seq in Hl. unfold layerCandidates in Hin.
    destruct (decide (layerRadiusOf env layer <= 0)) as [|Hpos];
      [destruct Hin|].
    destruct (isCircle (config env)).
    + destruct Hin as [[= Ew Ed]|[]].
      exists layer, 0%nat, d.
      repeat split; try assumption; try (symmetry; assumption); lia || lra.
    + apply in_flat_map in Hin as (i & Hi & Hin). apply in_seq in Hi.
      unfold sideCandidate in Hin.
      destruct (isAutoGap env i) eqn:Hauto; [destruct Hin|].
      destruct (_ !! i); [|destruct Hin].
      destruct (_ !! _); [|destruct Hin].
      destruct Hin as [[= Ew Ed]|[]].
      exists layer, i, d.
      repeat split; try assumption; try (symmetry; assumption); lia || lra.
  - unfold update in Hw. cbn [hoveredWall with_hoveredWall] in Hw.
    rewrite computeHover_off in Hw by exact Hgp. discriminate.
Qed.

Lemma ringEnv_hovers_outer :
  hoveredWall (update halfRandom ringEnv ringState) = Some "0-0"%string.
Proof.
  unfold update. cbn [hoveredWall with_hoveredWall].
  change (physics halfRandom ringEnv ringState) with ringState.
  rewrite computeHover_first by reflexivity. rewrite ringEnv_candidates.
  unfold firstWithin. cbn [find snd].
  rewrite bool_decide_eq_true_2 by lra. reflexivity.
Qed.

Lemma hovered_wall_is_a_drawn_wall_witness :
  isGodMode (config ringEnv) = true ∧ paused ringEnv = true
  ∧ ∃ layer i d,
      "0-0"%string = wallIdOf layer i ∧ (layer < layersN ringEnv)%nat
      ∧ 0 < layerRadiusOf ringEnv layer
      ∧ ("0-0"%string, d)
        ∈ hoverCandidates ringEnv (mousePos ringState) (rotation ringState)
      ∧ d < 20
      ∧ (if isCircle (config ringEnv) then i = 0%nat
         else (i < sidesN ringEnv)%nat ∧ isAutoGap ringEnv i = false).
Proof.
  apply (hovered_wall_is_a_drawn_wall halfRandom ringEnv ringState "0-0").
  apply ringEnv_hovers_outer.
Defined.

(** ** Boundary geometry *)

Lemma sidesN_at_least_3 (env : Env) : (3 ≤ sidesN env)%nat.
Proof. unfold sidesN, sides. lia. Qed.

Lemma layerVertices_length (env : Env) (rot : R) (layer : nat) :
  length (layerVertices env rot layer) = sidesN env.
Proof. unfold layerVertices. rewrite length_map, length_seq. reflexivity. Qed.

(** X24: a polygon layer has as many vertices as sides, at least three
    whatever [polygonSides] says, so the two vertex lookups of every side
    succeed; and every vertex lies on the circle of the layer's radius
    around the centre. *)
Theorem layerVertices_on_circle (env : Env) (rot : R) (layer : nat) :
  let vs := layerVertices env rot layer in
  length vs = sidesN env ∧ (3 ≤ sidesN env)%nat
  ∧ (∀ i, (i < sidesN env)%nat →
       is_Some (vs !! i) ∧ is_Some (vs !! ((i + 1) mod sidesN env)%nat))
  ∧ Forall (λ v, dist v (center env) = Rabs (layerRadiusOf env layer)) vs.
Proof.
  cbv zeta. pose proof (sidesN_at_least_3 env) as H3.
  split; [apply layerVertices_length|]. split; [exact H3|]. split.
  - intros i Hi. split; apply lookup_lt_is_Some;
      rewrite layerVertices_length; [exact Hi|].
    apply Nat.mod_upper_bound. lia.
  - unfold layerVertices. apply Forall_map, Forall_forall. intros i _.
    cbn beta. unfold dist.
    set (th := rot + INR i * angleStep env).
    set (Rl := layerRadiusOf env layer).
    replace (sub {| x := x (center env) + cos th * Rl;
                    y := y (center env) + sin th * Rl |} (center env))
      with (mult {| x := cos th; y := sin th |} Rl)
      by (apply Vector2_eq; cbn [x y sub mult]; ring).
    rewrite mag_mult.
    assert (Hu : mag {| x := cos th; y := sin th |} = 1).
    { unfold mag. cbn [x y]. pose proof (sin2_cos2 th) as H.
      unfold Rsqr in H. replace (cos th * cos th + sin th * sin th) with 1 by lra.
      apply sqrt_1. }
    rewrite Hu. ring.
Qed.

Lemma layerVertices_on_circle_witness :
  is_Some (layerVertices sampleEnv 0 0 !! 5%nat)
  ∧ is_Some (layerVertices sampleEnv 0 0 !! ((5 + 1) mod sidesN sampleEnv)%nat).
Proof.
  apply (layerVertices_on_circle sampleEnv 0 0).
  change (sidesN sampleEnv) with 6%nat. lia.
Defined.

Lemma filter_below (k n : nat) :
  List.filter (λ i, bool_decide (i < k)%nat) (seq 0 n) = seq 0 (min k n).
Proof.
  induction n as [|n IH]; [rewrite Nat.min_0_r; reflexivity|].
  rewrite seq_S, List.filter_app, IH. cbn [List.filter plus].
  destruct (decide (n < k)%nat) as [H|H].
  - rewrite bool_decide_eq_true_2 by exact H.
    rewrite (Nat.min_r k n) by lia.
    replace (min k (S n)) with (S n) by lia.
    rewrite seq_S. reflexivity.
  - rewrite bool_decide_eq_false_2 by exact H.
    rewrite app_nil_r. f_equal. lia.
Qed.

(** X25: with a gap count that is not negative, the sides of a polygon
    that are not auto-gaps are the first [sides - gapCount] ones, in order:
    the auto-gaps are the trailing sides, and none is left when the gap
    count reaches the number of sides. *)
Theorem auto_gaps_are_the_trailing_sides (env : Env) :
  (0 <= gapCount (config env))%Z →
  List.filter (λ i, negb (isAutoGap env i)) (seq 0 (sidesN env))
  = seq 0 (Z.to_nat (sides env - gapCount (config env))).
Proof.
  intros Hg.
  transitivity
    (List.filter
       (λ i, bool_decide
               (i < Z.to_nat (sides env - gapCount (config env)))%nat)
       (seq 0 (sidesN env))).
  - apply filter_ext. intros i. unfold isAutoGap.
    destruct (decide (Z.of_nat i >= sides env - gapCount (config env))%Z)
      as [H|H].
    + rewrite bool_decide_eq_true_2 by exact H.
      rewrite bool_decide_eq_false_2 by lia. reflexivity.
    + rewrite bool_decide_eq_false_2 by exact H.
      rewrite bool_decide_eq_true_2 by lia. reflexivity.
  - rewrite filter_below. f_equal. unfold sidesN. lia.
Qed.

Lemma auto_gaps_are_the_trailing_sides_witness :
  List.filter (λ i, negb (isAutoGap gappedEnv i)) (seq 0 (sidesN gappedEnv))
  = seq 0 (Z.to_nat (sides gappedEnv - gapCount (config gappedEnv))).
Proof.
  apply (auto_gaps_are_the_trailing_sides gappedEnv).
  cbn. lia.
Defined.

(** ** Spawning: [initBalls], the respawn, the radius effect *)

Lemma mag_le_abs_sum (v : Vector2) : mag v <= Rabs (x v) + Rabs (y v).
Proof.
  pose proof (mag_nonneg v) as Hm. pose proof (mag_sq v) as Hs.
  pose proof (Rabs_pos (x v)) as Hx. pose proof (Rabs_pos (y v)) as Hy.
  assert (Hxx : Rabs (x v) * Rabs (x v) = x v * x v)
    by (unfold Rabs; destruct (Rcase_abs _); ring).
  assert (Hyy : Rabs (y v) * Rabs (y v) = y v * y v)
    by (unfold Rabs; destruct (Rcase_abs _); ring).
  destruct (Rle_dec (mag v) (Rabs (x v) + Rabs (y v))) as [H|H]; [exact H|].
  exfalso. nra.
Qed.

Lemma mag_cos_sin (th r : R) :
  mag {| x := cos th * r; y := sin th * r |} = Rabs r.
Proof.
  replace {| x := cos th * r; y := sin th * r |}
    with (mult {| x := cos th; y := sin th |} r) by reflexivity.
  rewrite mag_mult.
  assert (Hu : mag {| x := cos th; y := sin th |} = 1).
  { unfold mag. cbn [x y]. pose proof (sin2_cos2 th) as H.
    unfold Rsqr in H. replace (cos th * cos th + sin th * sin th) with 1 by lra.
    apply sqrt_1. }
  rewrite Hu. ring.
Qed.

Lemma sumBytes_range (data : list Z) :
  Forall isByte data →
  (0 <= sumBytes data <= 255 * Z.of_nat (length data))%Z.
Proof.
  unfold sumBytes. intros H.
  assert (G : ∀ a, (a <= foldl Z.add a data
                    <= a + 255 * Z.of_nat (length data))%Z).
  { induction H as [|z data Hz _ IH]; intros a; cbn [foldl length]; [lia|].
    specialize (IH (a + z)%Z). unfold isByte in Hz. lia. }
  specialize (G 0%Z). lia.
Qed.

Lemma average_nonneg (data : list Z) :
  data ≠ [] → Forall isByte data →
  0 < INR (length data) ∧ 0 <= IZR (sumBytes data) / INR (length data).
Proof.
  intros Hne HF. pose proof (sumBytes_range data HF) as [H0 _].
  assert (Hlen : 0 < INR (length data)).
  { destruct data; [contradiction|]. apply lt_0_INR. cbn [length]. lia. }
  split; [exact Hlen|].
  apply Rmult_le_pos; [apply IZR_le; exact H0|].
  left. apply Rinv_0_lt_compat. exact Hlen.
Qed.

Lemma micVolume_range (data : list Z) :
  data ≠ [] → Forall isByte data → 0 <= micVolume data <= 1.
Proof.
  intros Hne HF. unfold micVolume. cbv zeta.
  destruct (average_nonneg data Hne HF) as [_ Ha].
  split; [|apply Rmin_l].
  apply Rmin_glb; [lra|]. lra.
Qed.

Section SpawnFacts.

Variable random : nat → R.
Hypothesis random_unit : unitRandom random.

Lemma spawnBall_fresh (env : Env) (d i : nat) :
  freshBall (config env) i (spawnBall random env d i).1.
Proof.
  unfold spawnBall, freshBall.
  destruct (randomSpawn (config env)).
  - cbn [fst id isPinned trail radius].
    pose proof (random_unit (d + 4)%nat). repeat split; lra.
  - destruct (micControlEnabled (config env));
      cbn [fst id isPinned trail radius].
    + pose proof (random_unit (d + 2)%nat). repeat split; lra.
    + pose proof (random_unit (d + 4)%nat). repeat split; lra.
Qed.

Lemma spawnLoop_fresh (env : Env) (n s : nat) (acc : list Ball * nat) :
  length acc.1 = s →
  (∀ i ball, acc.1 !! i = Some ball → freshBall (config env) i ball) →
  let r :=
    foldl (λ (acc : list Ball * nat) (i : nat),
             let '(ball, d) := spawnBall random env acc.2 i in
             (acc.1 ++ [ball], d))
      acc (seq s n) in
  length r.1 = (s + n)%nat
  ∧ ∀ i ball, r.1 !! i = Some ball → freshBall (config env) i ball.
Proof.
  revert s acc. induction n as [|n IH]; intros s acc Hl Hf r; subst r;
    cbn [seq foldl].
  - split; [lia|exact Hf].
  - pose proof (spawnBall_fresh env acc.2 s) as Hs.
    destruct (spawnBall random env acc.2 s) as [ball d]. cbn [fst] in Hs.
    specialize (IH (S s) (acc.1 ++ [ball], d)). cbv zeta in IH.
    destruct IH as [IH1 IH2].
    + cbn [fst]. rewrite length_app. cbn [length]. lia.
    + cbn [fst]. intros i b Hi. destruct (decide (i < s)%nat) as [Hlt|Hge].
      * rewrite lookup_app_l in Hi by lia. apply Hf, Hi.
      * rewrite lookup_app_r in Hi by lia. rewrite Hl in Hi.
        destruct (i - s)%nat eqn:Ei; cbn in Hi; [|discriminate].
        injection Hi as <-. replace i with s by lia. exact Hs.
    + split; [rewrite IH1; lia|exact IH2].
Qed.

Lemma respawn_inside (env : Env) (d : nat) (ball : Ball) :
  0 <= innerWidth env → 0 <= innerHeight env →
  0 <= baseScale (config env) <= 1.5 →
  let ball' := (respawn random env d ball).1 in
  trail ball' = [] ∧ id ball' = id ball ∧ radius ball' = radius ball
  ∧ isPinned ball' = isPinned ball
  ∧ mag (sub (pos ball') (center env)) <= outerBound env.
Proof.
  intros Hw Hh Hs ball'. subst ball'. unfold respawn, outerBound.
  set (m := Rmin (innerWidth env) (innerHeight env)).
  set (M := Rmax (innerWidth env) (innerHeight env)).
  assert (Hm : 0 <= m <= M).
  { unfold m, M. split; [apply Rmin_glb; assumption|].
    etrans; [apply Rmin_l|apply Rmax_l]. }
  assert (Hmb : 0 <= m * baseScale (config env) <= m * 1.5) by nra.
  destruct (randomSpawn (config env)).
  - cbn [fst trail id radius isPinned pos with_trail with_color with_pos].
    do 4 (split; [reflexivity|]).
    set (a := random d * PI * 2).
    set (r := random (d + 1) * (m * 0.4 * baseScale (config env))).
    replace (sub {| x := x (center env) + cos a * r;
                    y := y (center env) + sin a * r |} (center env))
      with {| x := cos a * r; y := sin a * r |}
      by (apply Vector2_eq; cbn [x y sub]; ring).
    rewrite mag_cos_sin. pose proof (random_unit (d + 1)%nat) as Hr.
    assert (Hr0 : 0 <= r <= m * 0.4 * baseScale (config env))
      by (unfold r; nra).
    rewrite Rabs_right by lra. lra.
  - destruct (micControlEnabled (config env));
      cbn [fst trail id radius isPinned pos with_trail with_vel with_pos];
      do 4 (split; [reflexivity|]).
    + etrans; [apply mag_le_abs_sum|]. cbn [x y sub].
      pose proof (random_unit d) as Hr.
      replace (x (center env) + (random d - 0.5) * 100 - x (center env))
        with ((random d - 0.5) * 100) by ring.
      replace (y (center env) + maxRadius env - 20 - y (center env))
        with (maxRadius env - 20) by ring.
      assert (Hx : Rabs ((random d - 0.5) * 100) <= 50)
        by (apply Rabs_le; lra).
      assert (Hy : Rabs (maxRadius env - 20) <= 20 + m * 0.675).
      { unfold maxRadius. fold m. apply Rabs_le. nra. }
      lra.
    + replace (sub {| x := x (center env); y := y (center env) |}
                 (center env))
        with {| x := 0; y := 0 |}
        by (apply Vector2_eq; cbn [x y sub]; ring).
      rewrite mag_axis_x by lra. lra.
Qed.

Lemma resizeLoop_resized (env : Env) (bs : list Ball)
  (acc : list Ball * nat) (done : list Ball) :
  Forall2 (resized (config env)) done acc.1 →
  Forall2 (resized (config env)) (done ++ bs)
    (foldl (λ (acc : list Ball * nat) (ball : Ball),
              (acc.1 ++ [with_radius ball
                           (ballSize (config env) + (random acc.2 * 2))],
               S acc.2)) acc bs).1.
Proof.
  revert acc done. induction bs as [|b bs IH]; intros acc done H;
    cbn [foldl].
  - rewrite app_nil_r. exact H.
  - replace (done ++ b :: bs) with ((done ++ [b]) ++ bs)
      by (rewrite <- app_assoc; reflexivity).
    apply IH. cbn [fst]. apply Forall2_app; [exact H|].
    constructor; [|constructor]. unfold resized.
    cbn [radius with_radius]. split; [reflexivity|].
    pose proof (random_unit acc.2). lra.
Qed.

End SpawnFacts.

(** X26: [initBalls] leaves exactly [ballCount] balls (none for a count
    below 1); ball number [i] has id [i], is unpinned, has an empty trail
    and a radius in [ballSize, ballSize + 2), or in [3, 18) in chaos mode;
    the collision counter is 0 and the manual gaps are cleared, while the
    rotation and the drag state stay as they were. *)
Theorem initBalls_spawns_fresh_balls
  (random : nat → R) (env : Env) (st : State) :
  unitRandom random →
  let st' := initBalls random env st in
  length (balls st') = Z.to_nat (ballCount (config env))
  ∧ (∀ i ball, balls st' !! i = Some ball → freshBall (config env) i ball)
  ∧ collisionCount st' = 0%Z ∧ manualGaps st' = ∅
  ∧ rotation st' = rotation st ∧ dragState st' = dragState st.
Proof.
  intros Hr st'. subst st'. unfold initBalls.
  pose proof (spawnLoop_fresh random Hr env
                (Z.to_nat (ballCount (config env))) 0
                ([], randomDraws st) eq_refl) as H.
  cbv zeta in H. destruct H as [H1 H2].
  { intros i b Hi. cbn [fst] in Hi. rewrite lookup_nil in Hi. discriminate. }
  destruct (foldl _ _ _) as [newBalls d]. cbn [fst] in H1, H2.
  cbn [balls collisionCount manualGaps rotation dragState with_balls
       with_collisionCount with_manualGaps with_randomDraws].
  split; [exact H1|]. split; [exact H2|]. repeat split; reflexivity.
Qed.

Lemma initBalls_spawns_fresh_balls_witness :
  let st' := initBalls halfRandom sampleEnv pinnedSession in
  length (balls st') = Z.to_nat (ballCount (config sampleEnv))
  ∧ (∀ i ball,
       balls st' !! i = Some ball → freshBall (config sampleEnv) i ball)
  ∧ collisionCount st' = 0%Z ∧ manualGaps st' = ∅
  ∧ rotation st' = rotation pinnedSession
  ∧ dragState st' = dragState pinnedSession.
Proof.
  apply (initBalls_spawns_fresh_balls halfRandom sampleEnv pinnedSession).
  intros n. unfold halfRandom. lra.
Defined.

(** X27: outside reduction mode, in a window of non-negative size with a
    scale between 0 and 1.5, a ball found beyond the outer bound is
    replaced in its slot by the same ball (id, radius, pin flag) with an
    empty trail at a position within the bound, so the same check on the
    respawned ball changes nothing. *)
Theorem respawned_ball_is_inside
  (random : nat → R) (env : Env) (b : nat) (ball : Ball) (st : State) :
  unitRandom random →
  0 <= innerWidth env → 0 <= innerHeight env →
  0 <= baseScale (config env) <= 1.5 →
  isReductionMode (config env) = false →
  (b < length (balls st))%nat →
  mag (sub (pos ball) (center env)) > outerBound env →
  ∃ ball',
    balls (boundary random env b ball st) !! b = Some ball'
    ∧ trail ball' = [] ∧ id ball' = id ball ∧ radius ball' = radius ball
    ∧ isPinned ball' = isPinned ball
    ∧ mag (sub (pos ball') (center env)) <= outerBound env
    ∧ boundary random env b ball' (boundary random env b ball st)
      = boundary random env b ball st.
Proof.
  intros Hr Hw Hh Hs Hred Hb Hout.
  pose proof (respawn_inside random Hr env (randomDraws st) ball Hw Hh Hs)
    as Hin.
  cbv zeta in Hin. destruct Hin as (Ht & Hi & Hrad & Hp & Hd).
  assert (E : boundary random env b ball st
              = with_randomDraws
                  (with_balls st
                     (<[b := (respawn random env (randomDraws st) ball).1]>
                        (balls st)))
                  (respawn random env (randomDraws st) ball).2).
  { unfold boundary. fold (outerBound env).
    destruct (decide _) as [_|Hn]; [|contradiction].
    rewrite Hred. destruct (respawn _ _ _ _). reflexivity. }
  exists (respawn random env (randomDraws st) ball).1.
  rewrite E. cbn [balls with_balls with_randomDraws].
  split; [apply list_lookup_insert_eq; exact Hb|].
  do 5 (split; [assumption|]).
  unfold boundary at 1. fold (outerBound env).
  destruct (decide _) as [Hn|_]; [lra|reflexivity].
Qed.

Lemma respawned_ball_is_inside_witness :
  ∃ ball',
    balls (boundary halfRandom sampleEnv 0 farBall farSession) !! 0%nat
    = Some ball'
    ∧ trail ball' = [] ∧ id ball' = id farBall
    ∧ radius ball' = radius farBall ∧ isPinned ball' = isPinned farBall
    ∧ mag (sub (pos ball') (center sampleEnv)) <= outerBound sampleEnv
    ∧ boundary halfRandom sampleEnv 0 ball'
        (boundary halfRandom sampleEnv 0 farBall farSession)
      = boundary halfRandom sampleEnv 0 farBall farSession.
Proof.
  assert (HM : outerBound sampleEnv = 1100).
  { unfold outerBound. cbn [innerWidth innerHeight sampleEnv].
    rewrite Rmax_left by lra. lra. }
  apply (respawned_ball_is_inside halfRandom sampleEnv 0 farBall farSession).
  - intros n. unfold halfRandom. lra.
  - cbn [innerWidth sampleEnv]. lra.
  - cbn [innerHeight sampleEnv]. lra.
  - cbn [baseScale config sampleEnv INITIAL_CONFIG]. lra.
  - reflexivity.
  - cbn [length balls farSession]. lia.
  - rewrite HM.
    replace (sub (pos farBall) (center sampleEnv))
      with {| x := 4500; y := 0 |}
      by (apply Vector2_eq;
          cbn [x y sub pos farBall sampleBall center innerWidth innerHeight
               sampleEnv]; lra).
    rewrite mag_axis_x by lra. lra.
Defined.

(** X28: with microphone control and an analyser that returns at least
    one byte, the elasticity of the frame lies between 0.5 and
    [0.5 + 0.4 * micSensitivity], whatever the configured elasticity is:
    0.5 on silence and the upper end once the average bin reaches 128. *)
Theorem mic_elasticity_range (env : Env) (data : list Z) :
  micControlEnabled (config env) = true →
  micAnalyser env = Some data →
  data ≠ [] → Forall isByte data →
  0 <= micSensitivity (config env) →
  0.5 <= currentElasticity env <= 0.5 + 0.4 * micSensitivity (config env)
  ∧ (sumBytes data = 0%Z → currentElasticity env = 0.5)
  ∧ ((128 * Z.of_nat (length data) <= sumBytes data)%Z →
     currentElasticity env = 0.5 + 0.4 * micSensitivity (config env)).
Proof.
  intros Hmic Han Hne HF Hs. unfold currentElasticity. rewrite Hmic, Han.
  pose proof (micVolume_range data Hne HF) as Hv.
  destruct (average_nonneg data Hne HF) as [Hlen Ha].
  split; [nra|]. split.
  - intros H0. unfold micVolume. cbv zeta. rewrite H0.
    replace (0 / INR (length data) / 128) with 0 by (unfold Rdiv; ring).
    rewrite Rmin_right by lra. lra.
  - intros H128. unfold micVolume. cbv zeta.
    apply IZR_le in H128. rewrite mult_IZR, <- INR_IZR_INZ in H128.
    assert (H1 : 1 <= IZR (sumBytes data) / INR (length data) / 128).
    { unfold Rdiv. rewrite Rmult_assoc, <- Rinv_mult.
      apply (Rmult_le_reg_r (INR (length data) * 128)); [lra|].
      rewrite Rmult_assoc, Rinv_l by lra. lra. }
    rewrite Rmin_left by exact H1. lra.
Qed.

Lemma mic_elasticity_range_witness :
  0.5 <= currentElasticity micEnv
      <= 0.5 + 0.4 * micSensitivity (config micEnv)
  ∧ (sumBytes micData = 0%Z → currentElasticity micEnv = 0.5)
  ∧ ((128 * Z.of_nat (length micData) <= sumBytes micData)%Z →
     currentElasticity micEnv = 0.5 + 0.4 * micSensitivity (config micEnv)).
Proof.
  apply (mic_elasticity_range micEnv micData).
  - reflexivity.
  - reflexivity.
  - discriminate.
  - repeat constructor; unfold isByte; lia.
  - cbn [micSensitivity config micEnv]. lra.
Defined.

(** X29: a double click on the mounted canvas appends one ball and changes
    no other: the new ball sits at the pointer, unpinned, with an empty
    trail and velocity components of at most 7.5; with a ball size that is
    not negative it is within reach of [togglePin] at the same point, so a
    context-menu click there hits a ball. *)
Theorem double_click_adds_a_ball_in_reach
  (random : nat → R) (env : Env) (e : PointerEvent) (now : R) (st : State)
  (rect : Vector2) :
  unitRandom random →
  0 <= ballSize (config env) →
  canvasRect env = Some rect →
  let st' := handleDoubleClick random env e now st in
  ∃ newBall,
    balls st' = balls st ++ [newBall]
    ∧ pos newBall = eventPos rect e
    ∧ isPinned newBall = false ∧ trail newBall = []
    ∧ Rabs (x (vel newBall)) <= 7.5 ∧ Rabs (y (vel newBall)) <= 7.5
    ∧ (togglePin (eventPos rect e) (balls st')).2 = true.
Proof.
  intros Hr Hsize Hrect st'. subst st'. unfold handleDoubleClick.
  rewrite Hrect. cbv zeta.
  assert (Hhit : ∀ bs nb, pos nb = eventPos rect e → 0 <= radius nb →
            (togglePin (eventPos rect e) (bs ++ [nb])).2 = true).
  { intros bs nb Hp Hrad.
    destruct (togglePin (eventPos rect e) (bs ++ [nb])).2 eqn:E;
      [reflexivity|].
    apply togglePin_hit_flag in E. apply Forall_app in E as [_ E].
    inversion E as [|? ? Hn _]; subst. exfalso. apply Hn.
    unfold inPinReach. rewrite Hp, dist_self. lra. }
  destruct (randomSpawn (config env)); cbn [balls with_balls with_randomDraws];
    eexists; (split; [reflexivity|]);
    cbn [pos isPinned trail vel x y];
    do 3 (split; [reflexivity|]).
  - pose proof (Hr (randomDraws st)). pose proof (Hr (randomDraws st + 2 + 1)%nat).
    pose proof (Hr (randomDraws st + 2 + 2)%nat).
    split; [apply Rabs_le; lra|]. split; [apply Rabs_le; lra|].
    apply Hhit; [reflexivity|cbn [radius]; lra].
  - pose proof (Hr (randomDraws st)). pose proof (Hr (randomDraws st + 1 + 1)%nat).
    pose proof (Hr (randomDraws st + 1 + 2)%nat).
    split; [apply Rabs_le; lra|]. split; [apply Rabs_le; lra|].
    apply Hhit; [reflexivity|cbn [radius]; lra].
Qed.

Lemma double_click_adds_a_ball_in_reach_witness :
  let st' := handleDoubleClick halfRandom godEnv mainPress 1000 initialState in
  ∃ newBall,
    balls st' = balls initialState ++ [newBall]
    ∧ pos newBall = eventPos {| x := 0; y := 0 |} mainPress
    ∧ isPinned newBall = false ∧ trail newBall = []
    ∧ Rabs (x (vel newBall)) <= 7.5 ∧ Rabs (y (vel newBall)) <= 7.5
    ∧ (togglePin (eventPos {| x := 0; y := 0 |} mainPress) (balls st')).2
      = true.
Proof.
  apply (double_click_adds_a_ball_in_reach halfRandom godEnv mainPress 1000
           initialState {| x := 0; y := 0 |}).
  - intros n. unfold halfRandom. lra.
  - cbn [ballSize config godEnv]. lra.
  - reflexivity.
Defined.

(** X30: outside chaos mode the radius effect changes radii only: it keeps
    the balls in number and order, each with its id, position, velocity,
    colour, trail and pin flag, pinned balls included, and gives each a
    radius in [ballSize, ballSize + 2); in chaos mode it changes nothing. *)
Theorem resizeBalls_changes_radii_only
  (random : nat → R) (env : Env) (st : State) :
  unitRandom random →
  (randomSpawn (config env) = false →
   Forall2 (resized (config env)) (balls st)
     (balls (resizeBalls random env st)))
  ∧ (randomSpawn (config env) = true → resizeBalls random env st = st).
Proof.
  intros Hr. unfold resizeBalls. split; intros Hc; rewrite Hc;
    [|reflexivity].
  pose proof (resizeLoop_resized random Hr env (balls st)
                ([], randomDraws st) [] ltac:(constructor)) as H.
  cbn [app] in H. destruct (foldl _ _ _) as [bs d]. exact H.
Qed.

Lemma resizeBalls_changes_radii_only_witness :
  (randomSpawn (config sampleEnv) = false →
   Forall2 (resized (config sampleEnv)) (balls pinnedSession)
     (balls (resizeBalls halfRandom sampleEnv pinnedSession)))
  ∧ (randomSpawn (config sampleEnv) = true →
     resizeBalls halfRandom sampleEnv pinnedSession = pinnedSession).
Proof.
  apply (resizeBalls_changes_radii_only halfRandom sampleEnv pinnedSession).
  intros n. unfold halfRandom. lra.
Defined.
